(** * Dinic's maximum-flow solver of NetworKit (networkit/cpp/flow/Dinic.cpp)

    A shallow embedding of [Dinic.cpp] and the verification of its
    specification.

    Modelling conventions.
    - [node] is [nat]; the level array holds [Z] (the source uses [int] with
      the marker [-1]).
    - [edgeweight] is [double] in the source.  A finite double is modelled
      by the rational number it denotes: comparisons [> 0.0], [== 0] and
      [std::min] are the exact ones of [Q], and the sum and the difference of
      the source are rounded to the nearest double, ties to even ([fadd],
      [fsub]).  Infinities and NaN are not modelled: a result above
      [std::numeric_limits<double>::max()] keeps its rounded value.
    - [std::vector] and [std::deque] are lists in the order of the source
      ([push_back] appends, [front] is the head).  An index out of range is
      undefined behaviour in the source; the model reads the default value
      there and leaves the vector unchanged on a write.  The hypotheses of
      the theorems on the algorithm (source, target and all neighbours among
      the nodes) keep every index in range.
    - Every loop of the source takes a fuel argument and returns [None] when
      it runs out; the theorems give the fuel that suffices. *)

From Stdlib Require Import ZArith QArith Qminmax Qabs Lqa Lia String.
From stdpp Require Import base tactics option numbers list.

#[local] Open Scope nat_scope.

(** * The program *)

(** ** The graph container *)

Abbreviation node := nat (only parsing).
Abbreviation edgeweight := Q (only parsing).
Definition nullWeight : edgeweight := 0%Q.

(** Modelled from the spec: the graph container ([Graph.hpp]) is not part of
    the sources.  The spec asks of it directedness and weightedness queries,
    the node count, in-neighbour iteration with weights, out-neighbour
    iteration, weight lookup and mutation, an edge-existence check and edge
    insertion.  It is modelled as an adjacency array: [outEdges G !!! u] is
    the list of the out-edges of [u], in insertion order, each with its
    weight. *)
Record Graph : Type := mkGraph {
  isDirected : bool;
  isWeighted : bool;
  outEdges : list (list (node * edgeweight))
}.

Definition numberOfNodes (G : Graph) : nat := length (outEdges G).

(** Lookup in one adjacency list: the first entry for [v]. *)
Fixpoint adjWeight (adj : list (node * edgeweight)) (v : node) : option edgeweight :=
  match adj with
  | [] => None
  | (x, w) :: adj' => if Nat.eqb x v then Some w else adjWeight adj' v
  end.

(** Update in one adjacency list: the first entry for [v]. *)
Fixpoint adjSetWeight (adj : list (node * edgeweight)) (v : node) (w : edgeweight)
  : list (node * edgeweight) :=
  match adj with
  | [] => []
  | (x, w0) :: adj' =>
      if Nat.eqb x v then (x, w) :: adj' else (x, w0) :: adjSetWeight adj' v w
  end.

Definition hasEdge (G : Graph) (u v : node) : bool :=
  match adjWeight (outEdges G !!! u) v with Some _ => true | None => false end.

(** [weight]: the weight of the edge, [nullWeight] when there is none. *)
Definition weight (G : Graph) (u v : node) : edgeweight :=
  match adjWeight (outEdges G !!! u) v with Some w => w | None => nullWeight end.

Definition addEdge (G : Graph) (u v : node) (w : edgeweight) : Graph :=
  mkGraph (isDirected G) (isWeighted G)
          (alter (fun adj => adj ++ [(v, w)]) u (outEdges G)).

(** [setWeight] overwrites the weight of an existing edge and inserts the
    edge when there is none. *)
Definition setWeight (G : Graph) (u v : node) (w : edgeweight) : Graph :=
  if hasEdge G u v then
    mkGraph (isDirected G) (isWeighted G)
            (alter (fun adj => adjSetWeight adj v w) u (outEdges G))
  else addEdge G u v w.

Definition neighborRange (G : Graph) (u : node) : list node :=
  fst <$> (outEdges G !!! u).

(** [forInNeighborsOf]: the pairs [(v, w)] with an edge [v -> u] of weight [w],
    by increasing [v]. *)
Definition inNeighborsOf (G : Graph) (u : node) : list (node * edgeweight) :=
  mjoin (imap (fun v adj =>
                 (fun e : node * edgeweight => (v, e.2))
                   <$> filter (fun e : node * edgeweight => e.1 = u) adj)
              (outEdges G)).

(** Modelled from the spec: the graph builder ([GraphBuilder.hpp]) is not part
    of the sources.  The spec asks of it a sized construction with
    directed/weighted flags, per-node edge insertion and a finalize-to-graph
    operation. *)
Record GraphBuilder : Type := mkGraphBuilder {
  builderWeighted : bool;
  builderDirected : bool;
  builderOutEdges : list (list (node * edgeweight))
}.

Definition GraphBuilder_new (n : nat) (weighted directed autoCompleteEdges : bool)
  : GraphBuilder :=
  mkGraphBuilder weighted directed (replicate n []).

Definition addHalfEdge (b : GraphBuilder) (u v : node) (w : edgeweight) : GraphBuilder :=
  mkGraphBuilder (builderWeighted b) (builderDirected b)
                 (alter (fun adj => adj ++ [(v, w)]) u (builderOutEdges b)).

Definition completeGraph (b : GraphBuilder) : Graph :=
  mkGraph (builderDirected b) (builderWeighted b) (builderOutEdges b).

(** The graph a default-constructed [Graph] member holds. *)
Definition emptyGraph : Graph := mkGraph false false [].

(** ** Numeric tools *)

(** Modelled from the spec: [Aux::NumericTools::equal] is not part of the
    sources; the spec calls it a tolerance-aware equality.  The tolerance is
    the parameter [eps]. *)
Definition NumericTools_equal (eps : Q) (x y : edgeweight) : bool :=
  Qle_bool (Qabs (x - y)) eps.

(** [std::numeric_limits<double>::max()], that is (2 - 2^-52) * 2^1023. *)
Definition edgeweight_max : edgeweight :=
  inject_Z ((2 ^ 53 - 1) * 2 ^ 971).

(** [a > 0.0] *)
Definition isPositive (a : edgeweight) : bool := negb (Qle_bool a 0).

(** ** Floating point *)

(** [n / d] rounded to the nearest integer, ties to the even one, for
    [0 <= n]. *)
Definition roundNearestEven (n : Z) (d : positive) : Z :=
  let q := (n / Z.pos d)%Z in
  let r := (n mod Z.pos d)%Z in
  match (2 * r ?= Z.pos d)%Z with
  | Lt => q
  | Gt => (q + 1)%Z
  | Eq => if Z.even q then q else (q + 1)%Z
  end.

(** [n / d] divided by [2 ^ e], as a numerator and a denominator. *)
Definition scaled (n : Z) (d : positive) (e : Z) : Z * positive :=
  if (0 <=? e)%Z then (n, (d * Z.to_pos (2 ^ e))%positive)
  else ((n * 2 ^ (- e))%Z, d).

(** The exponent of the leading bit of [n / d], for [0 < n]. *)
Definition floorLog2 (n : Z) (d : positive) : Z :=
  let k := (Z.log2 n - Z.log2 (Z.pos d))%Z in
  if (Z.pos (scaled n d k).2 <=? (scaled n d k).1)%Z then k else (k - 1)%Z.

(** What an arithmetic operation of the source stores for the exact result
    [q]: the nearest binary64 number, ties to even.  A binary64 number is a
    multiple [m * 2 ^ e] with [m] of at most 53 bits and [-1074 <= e]; the
    exponent chosen is the one that gives the leading bit of [q] the weight
    [2 ^ 52], or -1074 for the subnormal numbers. *)
Definition round64 (q : Q) : Q :=
  match Qnum q with
  | Z0 => 0%Q
  | _ =>
      let n := Z.abs (Qnum q) in
      let e := Z.max (floorLog2 n (Qden q) - 52) (-1074) in
      let m := (Z.sgn (Qnum q) *
                roundNearestEven (scaled n (Qden q) e).1 (scaled n (Qden q) e).2)%Z in
      Qred (if (0 <=? e)%Z then inject_Z (m * 2 ^ e) else m # Z.to_pos (2 ^ (- e)))
  end.

(** [x + y] and [x - y] on [double]. *)
Definition fadd (x y : edgeweight) : edgeweight := round64 (x + y).
Definition fsub (x y : edgeweight) : edgeweight := round64 (x - y).

(** ** The algorithm object *)

Record Dinic : Type := mkDinic {
  graph : Graph;
  source : node;
  target : node;
  residualGraph : Graph;
  parents : list (list node);
  maxFlow : edgeweight;
  hasRun : bool
}.

Definition set_residualGraph (d : Dinic) (g : Graph) : Dinic :=
  mkDinic (graph d) (source d) (target d) g (parents d) (maxFlow d) (hasRun d).
Definition set_parents (d : Dinic) (ps : list (list node)) : Dinic :=
  mkDinic (graph d) (source d) (target d) (residualGraph d) ps (maxFlow d) (hasRun d).
Definition set_maxFlow (d : Dinic) (f : edgeweight) : Dinic :=
  mkDinic (graph d) (source d) (target d) (residualGraph d) (parents d) f (hasRun d).
Definition set_hasRun (d : Dinic) (b : bool) : Dinic :=
  mkDinic (graph d) (source d) (target d) (residualGraph d) (parents d) (maxFlow d) b.

Inductive exception : Type :=
| runtime_error (what : string).

Definition not_directed : string := "Dinic algorithm requires directed graph!".
Definition not_weighted : string := "Dinic algorithm requires weighted graph!".
Definition same_nodes : string :=
  "Dinic algorithm requires `source` and `target` node to be different!".

(** [Dinic::Dinic].  A constructor that throws leaves no object behind: the
    result is either the exception or the instance.  [maxFlow] is not
    initialised by the constructor; it is only read after [run] has set it. *)
Definition Dinic_new (G : Graph) (s t : node) : exception + Dinic :=
  if negb (isDirected G) then inl (runtime_error not_directed)
  else if negb (isWeighted G) then inl (runtime_error not_weighted)
  else if Nat.eqb s t then inl (runtime_error same_nodes)
  else inr (mkDinic G s t emptyGraph (replicate (numberOfNodes G) []) 0%Q false).

(** [Dinic::initializeResidualGraph].  [parallelForNodes] is run node by node,
    by increasing node. *)
Definition addResidualEdges (u : node) (b : GraphBuilder) (e : node * edgeweight)
  : GraphBuilder :=
  let '(v, w) := e in
  addHalfEdge (addHalfEdge b v u w) u v 0%Q.

Definition initializeResidualGraph (d : Dinic) : Dinic :=
  let builder := GraphBuilder_new (numberOfNodes (graph d)) true true false in
  let builder :=
    foldl (fun b u => foldl (addResidualEdges u) b (inNeighborsOf (graph d) u))
          builder (seq 0 (numberOfNodes (graph d))) in
  set_residualGraph d (completeGraph builder).

(** ** [Dinic::canReachTargetInLevelGraph] *)

Record bfs_state : Type := mkBfs {
  bfs_level : list Z;
  bfs_parents : list (list node);
  bfs_queue : list node
}.

(** The body of the [for] loop over the neighbours of [parent]. *)
Definition visitChild (g : Graph) (parent : node) (st : bfs_state) (child : node)
  : bfs_state :=
  if isPositive (weight g parent child) then
    if Z.eqb (bfs_level st !!! child) (-1) then
      mkBfs (<[child := (bfs_level st !!! parent + 1)%Z]> (bfs_level st))
            (alter (fun ps => ps ++ [parent]) child (bfs_parents st))
            (bfs_queue st ++ [child])
    else if Z.eqb (bfs_level st !!! child) (bfs_level st !!! parent + 1) then
      mkBfs (bfs_level st)
            (alter (fun ps => ps ++ [parent]) child (bfs_parents st))
            (bfs_queue st)
    else st
  else st.

(** The [do ... while (!queue.empty())] loop.  [front] of an empty queue is
    undefined behaviour and gives [None]; the loop is entered with the queue
    [[source]] and re-entered only with a non-empty one. *)
Fixpoint bfs_loop (fuel : nat) (g : Graph) (st : bfs_state) : option bfs_state :=
  match fuel with
  | O => None
  | S fuel' =>
      match bfs_queue st with
      | [] => None
      | parent :: queue' =>
          let st' :=
            foldl (visitChild g parent)
                  (mkBfs (bfs_level st) (bfs_parents st) queue')
                  (neighborRange g parent) in
          match bfs_queue st' with
          | [] => Some st'
          | _ :: _ => bfs_loop fuel' g st'
          end
      end
  end.

Definition bfs_init (d : Dinic) : bfs_state :=
  mkBfs (<[source d := 0%Z]> (replicate (numberOfNodes (residualGraph d)) (-1)%Z))
        ((fun _ => []) <$> parents d)
        [source d].

Definition canReachTargetInLevelGraph (fuel : nat) (d : Dinic) : option (bool * Dinic) :=
  match bfs_loop fuel (residualGraph d) (bfs_init d) with
  | None => None
  | Some st =>
      Some (Z.ltb (-1) (bfs_level st !!! target d), set_parents d (bfs_parents st))
  end.

(** ** [Dinic::computeBlockingPath] *)

(** The first [for] loop of an augmentation: the minimal residual capacity on
    the path.  [path] runs from the target to the source, so the parent of
    [path[i]] is [path[i + 1]]. *)
Fixpoint bottleNeck (g : Graph) (path : list node) (acc : edgeweight) : edgeweight :=
  match path with
  | [] => acc
  | child :: path' =>
      match path' with
      | [] => acc
      | parent :: _ => bottleNeck g path' (Qmin acc (weight g parent child))
      end
  end.

(** [!l.empty()]. *)
Definition nonempty {A : Type} (l : list A) : bool :=
  match l with [] => false | _ :: _ => true end.

(** The body of the second [for] loop: push [b] over the edge
    [parent -> child]. *)
Definition saturateEdge (b : edgeweight) (st : Graph * list (list node))
  (parent child : node) : Graph * list (list node) :=
  let currentCapacity := weight st.1 parent child in
  let g1 := setWeight st.1 parent child (fsub currentCapacity b) in
  let g2 :=
    if hasEdge g1 child parent
    then setWeight g1 child parent (fadd (weight g1 child parent) b)
    else addEdge g1 child parent b in
  let ps :=
    if Qeq_bool (weight g2 parent child) 0%Q && nonempty (st.2 !!! child)
    then alter tail child st.2
    else st.2 in
  (g2, ps).

Fixpoint saturatePath (b : edgeweight) (st : Graph * list (list node))
  (path : list node) : Graph * list (list node) :=
  match path with
  | [] => st
  | child :: path' =>
      match path' with
      | [] => st
      | parent :: _ => saturatePath b (saturateEdge b st parent child) path'
      end
  end.

Record blocking_state : Type := mkBlocking {
  bl_totalFlow : edgeweight;
  bl_path : list node;
  bl_u : node;
  bl_graph : Graph;
  bl_parents : list (list node)
}.

(** The choice of [v] at the head of the loop body: the front parent of [u]
    pushed on the path, or, when [u] has none, the new back of the path after
    [pop_back]; [None] is the [break]. *)
Definition nextNode (st : blocking_state) : option (node * list node) :=
  match bl_parents st !!! bl_u st with
  | v :: _ => Some (v, bl_path st ++ [v])
  | [] =>
      let path := removelast (bl_path st) in
      match last path with
      | None => None
      | Some v => Some (v, path)
      end
  end.

(** The [if (v == source)] block. *)
Definition augment (s t : node) (v : node) (path : list node) (st : blocking_state)
  : blocking_state :=
  if Nat.eqb v s then
    let bottleNeckOnPath := bottleNeck (bl_graph st) path edgeweight_max in
    let r := saturatePath bottleNeckOnPath (bl_graph st, bl_parents st) path in
    mkBlocking (fadd (bl_totalFlow st) bottleNeckOnPath) [t] v r.1 r.2
  else
    mkBlocking (bl_totalFlow st) path v (bl_graph st) (bl_parents st).

(** The [while (true)] loop; [augment] ends with [u = v]. *)
Fixpoint blocking_loop (fuel : nat) (s t : node) (st : blocking_state)
  : option blocking_state :=
  match fuel with
  | O => None
  | S fuel' =>
      match nextNode st with
      | None => Some st
      | Some (v, path) => blocking_loop fuel' s t (augment s t v path st)
      end
  end.

Definition computeBlockingPath (fuel : nat) (d : Dinic) : option (edgeweight * Dinic) :=
  match blocking_loop fuel (source d) (target d)
          (mkBlocking 0%Q [target d] (target d) (residualGraph d) (parents d)) with
  | None => None
  | Some st =>
      Some (bl_totalFlow st, set_parents (set_residualGraph d (bl_graph st)) (bl_parents st))
  end.

(** ** [Dinic::run] and [Dinic::getMaxFlow] *)

(** The [while (canReachTargetInLevelGraph())] loop.  [fuel] bounds the
    iterations of this loop, [inner] those of the loops of the two functions
    it calls. *)
Fixpoint run_loop (eps : Q) (inner fuel : nat) (d : Dinic) : option Dinic :=
  match fuel with
  | O => None
  | S fuel' =>
      match canReachTargetInLevelGraph inner d with
      | None => None
      | Some (false, d1) => Some d1
      | Some (true, d1) =>
          match computeBlockingPath inner d1 with
          | None => None
          | Some (flow, d2) =>
              if negb (NumericTools_equal eps flow 0%Q)
              then run_loop eps inner fuel' (set_maxFlow d2 (fadd (maxFlow d2) flow))
              else Some d2
          end
      end
  end.

Definition run (eps : Q) (fuel : nat) (d : Dinic) : option Dinic :=
  let d1 := initializeResidualGraph d in
  let d2 := set_maxFlow d1 0%Q in
  match run_loop eps fuel fuel d2 with
  | None => None
  | Some d3 => Some (set_hasRun d3 true)
  end.

Definition not_run : string := "Error, run must be called first".

(** Modelled from the spec: [assureFinished] belongs to the base class
    [Algorithm], which is not part of the sources; the spec has [getMaxFlow]
    fail with a "not run" error unless [run] has finished. *)
Definition assureFinished (d : Dinic) : exception + unit :=
  if hasRun d then inr tt else inl (runtime_error not_run).

Definition getMaxFlow (d : Dinic) : exception + edgeweight :=
  match assureFinished d with
  | inl e => inl e
  | inr _ => inr (maxFlow d)
  end.

(** The flows of the successive phases of [run_loop]: one entry for every
    call of [computeBlockingPath], in order.  It follows the recursion of
    [run_loop] and only records. *)
Fixpoint phaseFlows (eps : Q) (inner fuel : nat) (d : Dinic) : option (list edgeweight) :=
  match fuel with
  | O => None
  | S fuel' =>
      match canReachTargetInLevelGraph inner d with
      | None => None
      | Some (false, d1) => Some []
      | Some (true, d1) =>
          match computeBlockingPath inner d1 with
          | None => None
          | Some (flow, d2) =>
              if negb (NumericTools_equal eps flow 0%Q)
              then cons flow <$>
                     phaseFlows eps inner fuel' (set_maxFlow d2 (fadd (maxFlow d2) flow))
              else Some [flow]
          end
      end
  end.

(** * Example inputs *)

(** The directed, weighted graph on [n] nodes with the listed edges
    [(u, v, w)], inserted in order. *)
Definition graphOfEdges (n : nat) (edges : list (node * node * edgeweight)) : Graph :=
  foldl (fun G e => addEdge G e.1.1 e.1.2 e.2) (mkGraph true true (replicate n [])) edges.

(** Scenario A of the spec: s = 0, a = 1, b = 2, t = 3. *)
Definition diamond : Graph :=
  graphOfEdges 4 [(0, 1, 3%Q); (0, 2, 2%Q); (1, 2, 1%Q); (1, 3, 2%Q); (2, 3, 3%Q)].

(** The instance constructed on the diamond graph, and the state [run]
    leaves it in. *)
Definition diamondInstance : Dinic :=
  mkDinic diamond 0 3 emptyGraph (replicate 4 []) 0%Q false.

Definition diamondFinished : Dinic :=
  mkDinic diamond 0 3
    (mkGraph true true
       [[(1, 0%Q); (2, 0%Q)]; [(0, 3%Q); (2, 0%Q); (3, 0%Q)];
        [(0, 2%Q); (1, 1%Q); (3, 0%Q)]; [(1, 2%Q); (2, 3%Q)]])
    [[]; []; []; []] 5%Q true.

(** A tolerance for the examples. *)
Definition tolerance : Q := 1 # 1000000000000.

(** Two equal-length disjoint paths: 0 -> 1 -> 3 and 0 -> 2 -> 3. *)
Definition twoPaths : Graph :=
  graphOfEdges 4 [(0, 1, 1%Q); (1, 3, 1%Q); (0, 2, 1%Q); (2, 3, 1%Q)].

(** Three layers: 0 -> {1,2,3} -> {4,5,6} -> 7, nine paths of length three. *)
Definition layered : Graph :=
  graphOfEdges 8
    [(0, 1, 3%Q); (0, 2, 3%Q); (0, 3, 3%Q);
     (1, 4, 1%Q); (1, 5, 1%Q); (1, 6, 1%Q);
     (2, 4, 1%Q); (2, 5, 1%Q); (2, 6, 1%Q);
     (3, 4, 1%Q); (3, 5, 1%Q); (3, 6, 1%Q);
     (4, 7, 3%Q); (5, 7, 3%Q); (6, 7, 3%Q)].

(** One edge whose capacity, 2^-44, lies below the tolerance. *)
Definition tinyEdge : Graph := graphOfEdges 2 [(0, 1, 1 # 17592186044416)].


(** * Specification vocabulary *)

(** ** Conditions on a graph *)

(** Every neighbour is a node of the graph. *)
Definition wfGraph (g : Graph) : Prop :=
  ∀ u v w, (v, w) ∈ outEdges g !!! u → v < numberOfNodes g.

(** Every capacity stored in the graph is non-negative. *)
Definition nonnegGraph (g : Graph) : Prop :=
  ∀ u v w, (v, w) ∈ outEdges g !!! u → (0 <= w)%Q.

(** No two edges join the same pair of nodes, in either direction; in
    particular there is no loop. *)
Definition simpleGraph (G : Graph) : Prop :=
  (∀ u, NoDup (outEdges G !!! u).*1) ∧
  (∀ u v, hasEdge G u v = true → hasEdge G v u = false).

(** The capacities that are whole multiples of [1 / D]. *)
Definition multipleOf (D : positive) (q : Q) : Prop := ∃ z : Z, (q == z # D)%Q.

(** [2 ^ p] *)
Definition pow2 (p : nat) : positive := Pos.shiftl_nat 1 p.

(** Every finite double is a whole multiple of [2^-1074]. *)
Definition onGrid (q : Q) : Prop := multipleOf (pow2 1074) q.

(** The arithmetic of the source is exact on the multiples of [1 / D]
    between 0 and [B]. *)
Definition exactOn (D : positive) (B : Q) : Prop :=
  ∀ q, multipleOf D q → (0 <= q)%Q → (q <= B)%Q → (round64 q == q)%Q.

(** The conditions above as boolean tests, to decide them on a concrete
    graph. *)
Definition wfGraphb (g : Graph) : bool :=
  forallb (forallb (fun e : node * edgeweight => Nat.ltb e.1 (numberOfNodes g)))
          (outEdges g).

Definition nonnegGraphb (g : Graph) : bool :=
  forallb (forallb (fun e : node * edgeweight => Qle_bool 0 e.2)) (outEdges g).

Definition simpleGraphb (G : Graph) : bool :=
  forallb (fun adj : list (node * edgeweight) => bool_decide (NoDup adj.*1)) (outEdges G) &&
  forallb (fun u => forallb (fun e : node * edgeweight => negb (hasEdge G e.1 u))
                            (outEdges G !!! u))
          (seq 0 (numberOfNodes G)).

Definition multipleOfb (D : positive) (w : Q) : bool :=
  Z.eqb ((Qnum w * Z.pos D) mod Z.pos (Qden w)) 0.

Definition onGridb (q : Q) : bool := multipleOfb (pow2 1074) q.

Definition multiplesGraphb (D : positive) (G : Graph) : bool :=
  forallb (forallb (fun e : node * edgeweight => multipleOfb D e.2)) (outEdges G).

(** ** Finite sums of rationals *)

(** The sum of [f x] over the nodes [x] listed in [l]. *)
Definition sumQ (f : nat → Q) (l : list nat) : Q :=
  foldr (fun x acc => (f x + acc)%Q) 0%Q l.

(** [b] when [o] is the node [x], 0 otherwise. *)
Definition atNode (b : Q) (o : option node) (x : node) : Q :=
  if decide (o = Some x) then b else 0%Q.

(** [q] when [b] holds, 0 otherwise. *)
Definition on (b : bool) (q : Q) : Q := if b then q else 0%Q.

(** [k] steps of [1 / D]. *)
Fixpoint steps (D : positive) (k : nat) : Q :=
  match k with
  | O => 0%Q
  | S k' => (steps D k' + (1 # D))%Q
  end.

(** ** Residual-graph construction *)

(** The half edges [initializeResidualGraph] inserts, in order: [(x, (y, w))]
    stands for the half edge [x -> y] of weight [w]. *)
Definition residualEntries (G : Graph) : list (node * (node * edgeweight)) :=
  u ← seq 0 (numberOfNodes G);
  e ← inNeighborsOf G u;
  [(e.1, (u, e.2)); (u, (e.1, 0%Q))].

(** [addHalfEdge] for every listed half edge, in order. *)
Definition addHalfEdges (b : GraphBuilder) (l : list (node * (node * edgeweight)))
  : GraphBuilder :=
  foldl (fun b p => addHalfEdge b p.1 p.2.1 p.2.2) b l.

(** ** The search *)

(** The invariant of the search on the graph [g] from the source [s]. *)
Record bfs_inv (g : Graph) (s : node) (st : bfs_state) : Prop := mkBfsInv {
  bi_len_level : length (bfs_level st) = numberOfNodes g;
  bi_len_parents : length (bfs_parents st) = numberOfNodes g;
  bi_level_ge : ∀ c, c < numberOfNodes g → (-1 ≤ bfs_level st !!! c)%Z;
  bi_source : bfs_level st !!! s = 0%Z;
  bi_level0 : ∀ c, c < numberOfNodes g → bfs_level st !!! c = 0%Z → c = s;
  bi_queue : ∀ x, x ∈ bfs_queue st →
                  x < numberOfNodes g ∧ (0 ≤ bfs_level st !!! x)%Z;
  bi_parents : ∀ c p, c < numberOfNodes g → p ∈ bfs_parents st !!! c →
                      p < numberOfNodes g ∧ isPositive (weight g p c) = true ∧
                      (0 ≤ bfs_level st !!! p)%Z ∧
                      (bfs_level st !!! c = bfs_level st !!! p + 1)%Z;
  bi_has_parent : ∀ c, c < numberOfNodes g → (1 ≤ bfs_level st !!! c)%Z →
                       bfs_parents st !!! c ≠ [];
  bi_unreached : ∀ c, c < numberOfNodes g → bfs_level st !!! c = (-1)%Z →
                      bfs_parents st !!! c = []
}.

(** Every reached node outside [pending] has all its neighbours over an edge
    of positive capacity reached. *)
Definition bfs_closed (g : Graph) (pending : list node) (st : bfs_state) : Prop :=
  ∀ u v, u < numberOfNodes g → (0 ≤ bfs_level st !!! u)%Z →
         isPositive (weight g u v) = true →
         u ∈ pending ∨ (0 ≤ bfs_level st !!! v)%Z.

(** The number of unreached nodes. *)
Definition unreached (level : list Z) : nat :=
  length (filter (fun l => l = (-1)%Z) level).

(** What the search leaves to [computeBlockingPath]: levels and, for every
    node, predecessors one level below over edges of positive capacity. *)
Record level_graph (g : Graph) (s : node) (level : list Z) (ps : list (list node))
  : Prop := mkLevelGraph {
  lg_len : length ps = numberOfNodes g;
  lg_source : level !!! s = 0%Z;
  lg_level0 : ∀ c, c < numberOfNodes g → level !!! c = 0%Z → c = s;
  lg_parents : ∀ c p, c < numberOfNodes g → p ∈ ps !!! c →
                      p < numberOfNodes g ∧ (0 < weight g p c)%Q ∧
                      (0 ≤ level !!! p)%Z ∧ (level !!! c = level !!! p + 1)%Z;
  lg_has_parent : ∀ c, c < numberOfNodes g → (1 ≤ level !!! c)%Z → ps !!! c ≠ []
}.

(** The nodes the search has reached. *)
Definition reached (level : list Z) (u : node) : bool := Z.leb 0 (level !!! u).

(** ** Paths and their saturation *)

(** The spec's wording of the saturation test: a tolerance-aware comparison
    of the new residual capacity with zero. *)
Definition saturateEdge_tolerant (eps : Q) (b : edgeweight)
  (st : Graph * list (list node)) (parent child : node) : Graph * list (list node) :=
  let currentCapacity := weight st.1 parent child in
  let g1 := setWeight st.1 parent child (fsub currentCapacity b) in
  let g2 :=
    if hasEdge g1 child parent
    then setWeight g1 child parent (fadd (weight g1 child parent) b)
    else addEdge g1 child parent b in
  let ps :=
    if NumericTools_equal eps (weight g2 parent child) 0%Q && nonempty (st.2 !!! child)
    then alter tail child st.2
    else st.2 in
  (g2, ps).

(** The change of capacity [saturateEdge] makes on the pair [(x, y)]. *)
Definition edgeDelta (b : edgeweight) (p c x y : node) : Q :=
  ((if decide (x = p ∧ y = c) then - b else 0) +
   (if decide (x = c ∧ y = p) then b else 0))%Q.

(** The change of capacity [saturatePath] makes on the pair [(x, y)]. *)
Fixpoint pathDelta (b : edgeweight) (path : list node) (x y : node) : Q :=
  match path with
  | [] => 0%Q
  | c :: path' =>
      match path' with
      | [] => 0%Q
      | p :: _ => (edgeDelta b p c x y + pathDelta b path' x y)%Q
      end
  end.

(** [x -> y] is an edge of the path, which lists the nodes from the target
    back to the source. *)
Definition onPath (path : list node) (x y : node) : Prop :=
  ∃ i, path !! i = Some y ∧ path !! S i = Some x.

(** Every edge of the path, listed from the target back to the source, has
    at least capacity [b] in [g]. *)
Fixpoint pathCap (g : Graph) (b : edgeweight) (path : list node) : Prop :=
  match path with
  | [] => True
  | c :: path' =>
      match path' with
      | [] => True
      | p :: _ => (b <= weight g p c)%Q ∧ pathCap g b path'
      end
  end.

(** Every edge of the path has a positive capacity in [g]. *)
Fixpoint pathPositive (g : Graph) (path : list node) : Prop :=
  match path with
  | [] => True
  | c :: path' =>
      match path' with
      | [] => True
      | p :: _ => (0 < weight g p c)%Q ∧ pathPositive g path'
      end
  end.

(** The nodes the loop pushes on the path buffer when it starts at [u] and
    follows front predecessors for [k] steps. *)
Fixpoint walk (ps : list (list node)) (u : node) (k : nat) : list node :=
  match k with
  | O => []
  | S k' =>
      match ps !!! u with
      | [] => []
      | v :: _ => v :: walk ps v k'
      end
  end.

(** The path one call of [computeBlockingPath] saturates. *)
Definition phasePath (ps : list (list node)) (t : node) (level : list Z) : list node :=
  t :: walk ps t (Z.to_nat (level !!! t)).

(** ** Runs *)

(** The state [run] hands to its loop. *)
Definition run_start (d : Dinic) : Dinic :=
  set_maxFlow (initializeResidualGraph d) 0%Q.

(** The phase flows [run] adds to [maxFlow]: those that are not
    tolerance-zero. *)
Definition accepted (eps : Q) (flows : list edgeweight) : list edgeweight :=
  List.filter (fun f => negb (NumericTools_equal eps f 0%Q)) flows.

(** The states of an instance at the boundaries of the phases of a run that
    started from [d0]: the state [run] hands to its loop, the state after a
    search that reached the target followed by [computeBlockingPath], and
    such a state with the flow added to [maxFlow]. *)
Inductive phase_state (d0 : Dinic) : Dinic → Prop :=
| phase_start : phase_state d0 (run_start d0)
| phase_next d fuel fuel' d1 flow d2 :
    phase_state d0 d →
    canReachTargetInLevelGraph fuel d = Some (true, d1) →
    computeBlockingPath fuel' d1 = Some (flow, d2) →
    phase_state d0 d2
| phase_accumulate d m :
    phase_state d0 d → phase_state d0 (set_maxFlow d m).

(** What holds of the instance at every phase boundary. *)
Record run_inv (d0 d : Dinic) : Prop := mkRunInv {
  rv_graph : graph d = graph d0;
  rv_source : source d = source d0;
  rv_target : target d = target d0;
  rv_nodes : numberOfNodes (residualGraph d) = numberOfNodes (graph d0);
  rv_len : length (parents d) = numberOfNodes (graph d0);
  rv_wf : wfGraph (residualGraph d);
  rv_nonneg : nonnegGraph (residualGraph d)
}.

(** What [maxFlow] accounts for at a phase boundary: out of every node the
    residual capacities have dropped, in total, by [maxFlow] at the source, by
    its opposite at the target and by nothing elsewhere; the residual
    capacities are whole multiples of [1 / D]; and [maxFlow] is not
    negative. *)
Record flow_inv (D : positive) (d0 d : Dinic) : Prop := mkFlowInv {
  fi_out : ∀ x, x < numberOfNodes (graph d0) →
    (sumQ (weight (residualGraph (run_start d0)) x) (seq 0 (numberOfNodes (graph d0))) -
     sumQ (weight (residualGraph d) x) (seq 0 (numberOfNodes (graph d0))) ==
     atNode (maxFlow d) (Some (source d0)) x -
     atNode (maxFlow d) (Some (target d0)) x)%Q;
  fi_multiple : ∀ x y, multipleOf D (weight (residualGraph d) x y);
  fi_nonneg : (0 <= maxFlow d)%Q
}.

(** What holds at a phase boundary while the source computes without
    rounding: the residual capacities are whole multiples of [1 / D], and on
    every pair of nodes the two directions add up to what they added up to
    in the residual graph as initialised. *)
Record exact_inv (D : positive) (d0 d : Dinic) : Prop := mkExactInv {
  ex_multiple : ∀ x y, multipleOf D (weight (residualGraph d) x y);
  ex_pairs : ∀ u v,
    (weight (residualGraph d) u v + weight (residualGraph d) v u ==
     weight (residualGraph (run_start d0)) u v +
     weight (residualGraph (run_start d0)) v u)%Q
}.

(** Every capacity stored in the graph is a whole multiple of [1 / 2^p] and
    at most [M]. *)
Definition dyadicGraph (p : nat) (M : Q) (G : Graph) : Prop :=
  ∀ u v w, (v, w) ∈ outEdges G !!! u → multipleOf (pow2 p) w ∧ (w <= M)%Q.

(** ** Flows of the input graph *)

(** The capacity of the input graph from [u] to [v]: the weights of all its
    edges [u -> v] added up, 0 when there is none. *)
Definition capacity (G : Graph) (u v : node) : Q :=
  foldr (fun (e : node * edgeweight) acc => if Nat.eqb e.1 v then (e.2 + acc)%Q else acc)
        0%Q (outEdges G !!! u).

(** A flow from [s] to [t]: on every pair of nodes between 0 and the
    capacity, and what enters a node other than [s] and [t] leaves it. *)
Record feasible_flow (G : Graph) (s t : node) (f : node → node → Q) : Prop :=
  mkFeasibleFlow {
  ff_capacity : ∀ u v, (0 <= f u v)%Q ∧ (f u v <= capacity G u v)%Q;
  ff_conservation : ∀ u, u < numberOfNodes G → u ≠ s → u ≠ t →
    (sumQ (fun v => f v u) (seq 0 (numberOfNodes G)) ==
     sumQ (fun v => f u v) (seq 0 (numberOfNodes G)))%Q
}.

(** The value of a flow: what leaves the source minus what enters it. *)
Definition flow_value (G : Graph) (s : node) (f : node → node → Q) : Q :=
  (sumQ (fun v => f s v) (seq 0 (numberOfNodes G)) -
   sumQ (fun v => f v s) (seq 0 (numberOfNodes G)))%Q.


(** The capacity of the cut between the reached nodes and the others. *)
Definition cutCapacity (G : Graph) (level : list Z) : Q :=
  sumQ (fun u => sumQ (fun v => on (reached level u && negb (reached level v))
                                   (weight G u v))
                      (seq 0 (numberOfNodes G)))
       (seq 0 (numberOfNodes G)).

(** The flow the residual graph [r] stands for on the input graph [G]. *)
Definition residualFlow (G r : Graph) (u v : node) : Q :=
  if hasEdge G u v then (weight G u v - weight r u v)%Q else 0%Q.

(** ** Walks over edges of positive capacity *)

(** [walkTo g s k v]: a walk of [k] edges of positive capacity leads from [s]
    to [v] in [g]. *)
Inductive walkTo (g : Graph) (s : node) : nat → node → Prop :=
| walkTo_O : walkTo g s 0 s
| walkTo_S k u v :
    walkTo g s k u → (0 < weight g u v)%Q → walkTo g s (S k) v.

(** [k] is the least number of edges of such a walk from [s] to [v]. *)
Definition distance (g : Graph) (s v : node) (k : nat) : Prop :=
  walkTo g s k v ∧ ∀ j, walkTo g s j v → k ≤ j.

(** The search has dealt with the edge [u -> v]: [v] is reached, at most one
    level above [u], and has [u] among its predecessors when it is exactly
    one level above. *)
Definition bfs_edge_ok (st : bfs_state) (u v : node) : Prop :=
  (0 ≤ bfs_level st !!! v ≤ bfs_level st !!! u + 1)%Z ∧
  (bfs_level st !!! v = (bfs_level st !!! u + 1)%Z → u ∈ bfs_parents st !!! v).

(** The search has dealt with every edge of positive capacity that leaves a
    reached node outside [pending]. *)
Definition bfs_tight (g : Graph) (pending : list node) (st : bfs_state) : Prop :=
  ∀ u v, u < numberOfNodes g → (0 ≤ bfs_level st !!! u)%Z →
         isPositive (weight g u v) = true →
         u ∈ pending ∨ bfs_edge_ok st u v.

(** The queue holds nodes of level [L] followed by nodes of level [L + 1],
    and no node has a higher level. *)
Definition bfs_order (g : Graph) (L : Z) (st : bfs_state) : Prop :=
  (∃ A B, bfs_queue st = A ++ B ∧
          (∀ x, x ∈ A → bfs_level st !!! x = L) ∧
          (∀ x, x ∈ B → bfs_level st !!! x = (L + 1)%Z)) ∧
  (∀ x, x < numberOfNodes g → (bfs_level st !!! x ≤ L + 1)%Z).

(** ** The edges stored in a graph *)

(** The neighbours stored for every node, in order, without the weights. *)
Definition edgeKeys (g : Graph) : list (list node) :=
  (fun adj : list (node * edgeweight) => adj.*1) <$> outEdges g.

(** Every edge of the path, listed from the target back to the source, is
    stored in [g] together with its reverse edge. *)
Fixpoint pathStored (g : Graph) (path : list node) : Prop :=
  match path with
  | [] => True
  | c :: path' =>
      match path' with
      | [] => True
      | p :: _ => hasEdge g p c = true ∧ hasEdge g c p = true ∧ pathStored g path'
      end
  end.

(** ** Walks in the input graph *)

(** A walk from [s] over stored edges of positive capacity of the input
    graph. *)
Inductive positiveWalk (G : Graph) (s : node) : node → Prop :=
| positiveWalk_refl : positiveWalk G s s
| positiveWalk_step u v w :
    positiveWalk G s u → (v, w) ∈ outEdges G !!! u → (0 < w)%Q →
    positiveWalk G s v.

(** ** The order of [parallelForNodes] *)

(** [initializeResidualGraph] with the body of [parallelForNodes] run for the
    nodes in the order [order]; the source fixes no order. *)
Definition initializeResidualGraph_in (order : list node) (d : Dinic) : Dinic :=
  let builder := GraphBuilder_new (numberOfNodes (graph d)) true true false in
  let builder :=
    foldl (fun b u => foldl (addResidualEdges u) b (inNeighborsOf (graph d) u))
          builder order in
  set_residualGraph d (completeGraph builder).

(** The half edges it inserts, in order. *)
Definition residualEntries_in (G : Graph) (order : list node)
  : list (node * (node * edgeweight)) :=
  u ← order;
  e ← inNeighborsOf G u;
  [(e.1, (u, e.2)); (u, (e.1, 0%Q))].

(** ** Further example inputs *)

(** The state [run] hands to its loop on the diamond graph. *)
Definition diamondStart : Dinic := run_start diamondInstance.

(** One edge, from the target back to the source. *)
Definition backEdge : Graph := graphOfEdges 2 [(1, 0, 1%Q)].

(** A path 0 -> 1 -> 2 whose first edge has a capacity just above that of
    the second: the double nearest to 1.0000000000001, and 1. *)
Definition nearlyOnePath : Graph :=
  graphOfEdges 3 [(0, 1, round64 (10000000000001 # 10000000000000)); (1, 2, 1%Q)].

(** The state [run] hands to its loop on it, and the state after the first
    search. *)
Definition nearlyOneStart : Dinic :=
  run_start (mkDinic nearlyOnePath 0 2 emptyGraph (replicate 3 []) 0%Q false).

Definition nearlyOneSearched : Dinic :=
  match canReachTargetInLevelGraph 3 nearlyOneStart with
  | Some (_, d1) => d1
  | None => nearlyOneStart
  end.




(** The instance the constructor builds on [G] for [s] and [t]. *)
Definition instanceOn (G : Graph) (s t : node) : Dinic :=
  mkDinic G s t emptyGraph (replicate (numberOfNodes G) []) 0%Q false.








(** Every capacity stored in the graph is at most [M], as a boolean test. *)
Definition boundedGraphb (M : Q) (g : Graph) : bool :=
  forallb (forallb (fun e : node * edgeweight => Qle_bool e.2 M)) (outEdges g).

(** The diamond instance after the first phase of [run]: a search and one
    call of [computeBlockingPath]. *)
Definition diamondAfterPhase : Dinic :=
  match canReachTargetInLevelGraph 4 diamondStart with
  | Some (_, d1) =>
      match computeBlockingPath 5 d1 with
      | Some (_, d2) => d2
      | None => diamondStart
      end
  | None => diamondStart
  end.


(** * Properties *)

(** ** The graph container: lookup after update *)

Lemma adjWeight_None adj v : adjWeight adj v = None ↔ v ∉ adj.*1.
Proof.
  induction adj as [|[x w] adj IH]; simpl.
  - split; [intros _; apply not_elem_of_nil | done].
  - destruct (Nat.eqb_spec x v) as [->|Hne].
    + split; [done | intros []; left].
    + rewrite IH, not_elem_of_cons. split; [by auto | by intros [_ ?]].
Qed.

Lemma adjWeight_Some_elem adj v w : adjWeight adj v = Some w → (v, w) ∈ adj.
Proof.
  induction adj as [|[x w0] adj IH]; simpl; [done|].
  destruct (Nat.eqb_spec x v) as [->|Hne].
  - intros [= ->]. left.
  - intros H. right. auto.
Qed.

Lemma adjWeight_set_eq adj v w :
  is_Some (adjWeight adj v) → adjWeight (adjSetWeight adj v w) v = Some w.
Proof.
  induction adj as [|[x w0] adj IH]; simpl; [by intros [? ?]|].
  destruct (Nat.eqb_spec x v) as [->|Hne]; simpl.
  - by rewrite Nat.eqb_refl.
  - intros H. destruct (Nat.eqb_spec x v); [done | auto].
Qed.

Lemma adjWeight_set_ne adj v w y :
  y ≠ v → adjWeight (adjSetWeight adj v w) y = adjWeight adj y.
Proof.
  intros Hy. induction adj as [|[x w0] adj IH]; simpl; [done|].
  destruct (Nat.eqb_spec x v) as [->|Hne]; simpl.
  - by destruct (Nat.eqb_spec v y).
  - by destruct (Nat.eqb_spec x y).
Qed.

Lemma adjWeight_snoc adj x w v :
  adjWeight (adj ++ [(x, w)]) v =
    match adjWeight adj v with
    | Some a => Some a
    | None => if Nat.eqb x v then Some w else None
    end.
Proof.
  induction adj as [|[y w0] adj IH]; simpl; [done|].
  by destruct (Nat.eqb y v).
Qed.

Lemma numberOfNodes_addEdge g u v w :
  numberOfNodes (addEdge g u v w) = numberOfNodes g.
Proof. unfold numberOfNodes, addEdge; simpl. apply length_alter. Qed.

Lemma numberOfNodes_setWeight g u v w :
  numberOfNodes (setWeight g u v w) = numberOfNodes g.
Proof.
  unfold setWeight. destruct (hasEdge g u v).
  - unfold numberOfNodes; simpl. apply length_alter.
  - apply numberOfNodes_addEdge.
Qed.

Lemma hasEdge_lt g u v : hasEdge g u v = true → u < numberOfNodes g.
Proof.
  unfold hasEdge, numberOfNodes. intros H.
  destruct (decide (u < length (outEdges g))) as [|Hge]; [done|].
  rewrite list_lookup_total_alt, lookup_ge_None_2 in H by lia. done.
Qed.

Lemma weight_addEdge g u v w x y :
  u < numberOfNodes g → hasEdge g u v = false →
  weight (addEdge g u v w) x y = if decide (x = u ∧ y = v) then w else weight g x y.
Proof.
  unfold numberOfNodes, hasEdge, weight, addEdge; simpl. intros Hu Hno.
  rewrite list_lookup_total_alter.
  destruct (decide (u = x ∧ u < length (outEdges g))) as [[-> _]|Hn].
  - rewrite adjWeight_snoc.
    destruct (adjWeight (outEdges g !!! x) v) eqn:Hv; [done|].
    destruct (Nat.eqb_spec v y) as [->|Hne].
    + rewrite Hv. by rewrite decide_True by done.
    + rewrite decide_False by intuition (subst; eauto).
      by destruct (adjWeight (outEdges g !!! x) y).
  - rewrite decide_False by intuition (subst; eauto). done.
Qed.

Lemma weight_setWeight g u v w x y :
  u < numberOfNodes g →
  weight (setWeight g u v w) x y = if decide (x = u ∧ y = v) then w else weight g x y.
Proof.
  intros Hu. unfold setWeight. destruct (hasEdge g u v) eqn:Hh.
  - unfold numberOfNodes, hasEdge, weight in *; simpl.
    rewrite list_lookup_total_alter.
    destruct (decide (u = x ∧ u < length (outEdges g))) as [[-> _]|Hn].
    + destruct (decide (y = v)) as [->|Hne].
      * rewrite decide_True by done. rewrite adjWeight_set_eq; [done|].
        destruct (adjWeight (outEdges g !!! x) v); [by eexists | done].
      * rewrite adjWeight_set_ne, decide_False by intuition (subst; eauto). done.
    + rewrite decide_False by intuition (subst; eauto). done.
  - by apply weight_addEdge.
Qed.

Lemma weight_no_edge g u v : hasEdge g u v = false → weight g u v = 0%Q.
Proof.
  unfold hasEdge, weight. by destruct (adjWeight (outEdges g !!! u) v).
Qed.

(** ** Multiples of a granularity *)

Lemma multipleOf_eq D q q' : (q == q')%Q → multipleOf D q → multipleOf D q'.
Proof. intros Heq [z Hz]. exists z. by rewrite <- Heq. Qed.

Lemma multipleOf_0 D : multipleOf D 0.
Proof. exists 0%Z. reflexivity. Qed.

Lemma multipleOf_plus D q1 q2 :
  multipleOf D q1 → multipleOf D q2 → multipleOf D (q1 + q2).
Proof.
  intros [z1 H1] [z2 H2]. exists (z1 + z2)%Z. rewrite H1, H2.
  unfold Qeq, Qplus; simpl. nia.
Qed.

Lemma multipleOf_opp D q : multipleOf D q → multipleOf D (- q).
Proof.
  intros [z H]. exists (- z)%Z. rewrite H. unfold Qeq, Qopp; simpl. lia.
Qed.

Lemma multipleOf_min D q1 q2 :
  multipleOf D q1 → multipleOf D q2 → multipleOf D (Qmin q1 q2).
Proof.
  intros H1 H2. destruct (Q.min_spec q1 q2) as [[_ Heq]|[_ Heq]];
    eapply multipleOf_eq; try (symmetry; exact Heq); done.
Qed.

Lemma multipleOf_inject_Z D z : multipleOf D (inject_Z z).
Proof. exists (z * Z.pos D)%Z. unfold Qeq, inject_Z; simpl. lia. Qed.

Lemma multipleOf_positive D q : multipleOf D q → (0 < q)%Q → (1 # D <= q)%Q.
Proof.
  intros [z Hz] Hpos. rewrite Hz in *. unfold Qlt, Qle in *; simpl in *. nia.
Qed.

Lemma multipleOfb_correct D w : multipleOfb D w = true → multipleOf D w.
Proof.
  unfold multipleOfb, multipleOf. intros H%Z.eqb_eq.
  exists (Qnum w * Z.pos D / Z.pos (Qden w))%Z.
  apply Z.div_exact in H; [|lia]. unfold Qeq; simpl. lia.
Qed.

(** ** Floating point *)

Lemma pow2_pos p : Z.pos (pow2 p) = (2 ^ Z.of_nat p)%Z.
Proof.
  unfold pow2. induction p as [|p IH]; [done|].
  rewrite Nat2Z.inj_succ, Z.pow_succ_r by lia. simpl. rewrite Pos2Z.inj_xO, IH. lia.
Qed.

Lemma roundNearestEven_nonneg n d : (0 ≤ n)%Z → (0 ≤ roundNearestEven n d)%Z.
Proof.
  intros Hn. unfold roundNearestEven.
  assert (0 ≤ n / Z.pos d)%Z by (apply Z.div_pos; lia).
  destruct (2 * (n mod Z.pos d) ?= Z.pos d)%Z; [destruct (Z.even _)|..]; lia.
Qed.

Lemma roundNearestEven_exact m d : roundNearestEven (m * Z.pos d) d = m.
Proof.
  unfold roundNearestEven.
  rewrite Z.div_mul, Z.mod_mul by lia. simpl. done.
Qed.

Lemma scaled_nonneg n d e : (0 ≤ n)%Z → (0 ≤ (scaled n d e).1)%Z.
Proof.
  intros Hn. unfold scaled. destruct (0 <=? e)%Z eqn:He; simpl; [done|].
  apply Z.mul_nonneg_nonneg; [done|]. apply Z.pow_nonneg. lia.
Qed.

(** The value [round64] returns: a signed integer times a power of two. *)
Lemma round64_value q :
  Qnum q ≠ 0%Z →
  ∃ m e, (0 ≤ m)%Z ∧
         (round64 q == inject_Z (Z.sgn (Qnum q) * m) * (if (0 <=? e)%Z then inject_Z (2 ^ e) else 1 # Z.to_pos (2 ^ (- e))))%Q ∧
         e = Z.max (floorLog2 (Z.abs (Qnum q)) (Qden q) - 52) (-1074) ∧
         m = roundNearestEven (scaled (Z.abs (Qnum q)) (Qden q) e).1
                              (scaled (Z.abs (Qnum q)) (Qden q) e).2.
Proof.
  intros Hn. unfold round64. destruct (Qnum q) eqn:Hq; [done|..].
  all: eexists _, _; split; [|split; [|split; reflexivity]].
  all: try (apply roundNearestEven_nonneg, scaled_nonneg; lia).
  all: rewrite Qred_correct; destruct (0 <=? _)%Z; unfold Qeq, Qmult, inject_Z; simpl Qnum; simpl Qden; lia.
Qed.

(** Rounding keeps the sign. *)
Lemma round64_sign q :
  ((0 <= q)%Q → (0 <= round64 q)%Q) ∧ ((q <= 0)%Q → (round64 q <= 0)%Q).
Proof.
  destruct (decide (Qnum q = 0%Z)) as [H0|H0].
  { unfold round64. rewrite H0. split; intros _; apply Qle_refl. }
  destruct (round64_value q H0) as (m & e & Hm & -> & _ & _).
  assert (0 < (if (0 <=? e)%Z then inject_Z (2 ^ e) else 1 # Z.to_pos (2 ^ (- e))))%Q as Hpos.
  { destruct (0 <=? e)%Z eqn:He; [|reflexivity].
    apply Z.leb_le in He. unfold Qlt, inject_Z; simpl.
    pose proof (Z.pow_pos_nonneg 2 e). lia. }
  set (f := if (0 <=? e)%Z then _ else _) in *.
  assert (inject_Z (Z.sgn (Qnum q) * m) == inject_Z (Z.sgn (Qnum q)) * inject_Z m)%Q as ->
    by (unfold Qeq, Qmult, inject_Z; simpl; lia).
  assert (0 <= inject_Z m)%Q as Hm' by (unfold Qle, inject_Z; simpl; lia).
  split; intros Hq.
  - assert (0 <= inject_Z (Z.sgn (Qnum q)))%Q.
    { unfold Qle in *; simpl in *. lia. }
    apply Qmult_le_0_compat; [|lra]. by apply Qmult_le_0_compat.
  - assert (inject_Z (Z.sgn (Qnum q)) <= 0)%Q as Hs.
    { unfold Qle in *; simpl in *. lia. }
    assert (0 <= (- inject_Z (Z.sgn (Qnum q))) * inject_Z m * f)%Q.
    { apply Qmult_le_0_compat; [|lra]. apply Qmult_le_0_compat; [lra | done]. }
    lra.
Qed.

Lemma floorLog2_spec n d :
  (0 < n)%Z →
  let k := floorLog2 n d in
  ((0 ≤ k)%Z → (2 ^ k * Z.pos d ≤ n)%Z) ∧
  ((k < 0)%Z → (Z.pos d ≤ n * 2 ^ (- k))%Z).
Proof.
  intros Hn. unfold floorLog2, scaled.
  set (a := Z.log2 n). set (b := Z.log2 (Z.pos d)).
  destruct (Z.log2_spec n Hn) as [Ha1 Ha2].
  destruct (Z.log2_spec (Z.pos d) ltac:(lia)) as [Hb1 Hb2].
  fold a in Ha1, Ha2. fold b in Hb1, Hb2.
  assert (0 ≤ a)%Z as Ha0 by apply Z.log2_nonneg.
  assert (0 ≤ b)%Z as Hb0 by apply Z.log2_nonneg.
  rewrite Z.pow_succ_r in Ha2, Hb2 by done.
  destruct (0 <=? a - b)%Z eqn:Hk.
  - apply Z.leb_le in Hk. simpl.
    rewrite Pos2Z.inj_mul, Z2Pos.id by (apply Z.pow_pos_nonneg; lia).
    destruct (Z.leb_spec (Z.pos d * 2 ^ (a - b)) n) as [Hle|Hgt]; simpl.
    + split; [lia | lia].
    + assert (2 ^ a = 2 ^ (a - b) * 2 ^ b)%Z as Hab
        by (rewrite <- Z.pow_add_r by lia; f_equal; lia).
      split.
      * intros Hk1.
        assert (2 ^ (a - b) = 2 * 2 ^ (a - b - 1))%Z as Hs
          by (rewrite <- Z.pow_succ_r by lia; f_equal; lia).
        assert (0 < 2 ^ (a - b - 1))%Z by (apply Z.pow_pos_nonneg; lia).
        nia.
      * intros Hk1. assert (a - b = 0)%Z as H0 by lia.
        rewrite H0 in *. replace (- (0 - 1))%Z with 1%Z by lia.
        change (2 ^ 1)%Z with 2%Z. change (2 ^ 0)%Z with 1%Z in *. nia.
  - apply Z.leb_gt in Hk. simpl.
    assert (2 ^ b = 2 ^ a * 2 ^ (- (a - b)))%Z as Hab
      by (rewrite <- Z.pow_add_r by lia; f_equal; lia).
    assert (0 < 2 ^ (- (a - b)))%Z by (apply Z.pow_pos_nonneg; lia).
    destruct (Z.leb_spec (Z.pos d) (n * 2 ^ (- (a - b)))) as [Hle|Hgt]; simpl.
    + split; [lia | done].
    + split; [lia|]. intros _.
      replace (- (a - b - 1))%Z with (Z.succ (- (a - b)))%Z by lia.
      rewrite Z.pow_succ_r by lia. nia.
Qed.

Lemma pow2_le_inv a b : (0 ≤ b)%Z → (2 ^ a ≤ 2 ^ b)%Z → (a ≤ b)%Z.
Proof.
  intros Hb Hle. destruct (Z.le_gt_cases a b) as [|Hgt]; [done|].
  assert (2 ^ b < 2 ^ a)%Z by (apply Z.pow_lt_mono_r; lia). lia.
Qed.

(** Rounding leaves a multiple of [2^-p] of at most 53 bits as it is. *)
Lemma round64_exact (p : nat) (z : Z) (q : Q) :
  (Z.of_nat p ≤ 1074)%Z → (Z.abs z ≤ 2 ^ 53)%Z → (q == z # pow2 p)%Q →
  (round64 q == q)%Q.
Proof.
  intros Hp Hz Hq. unfold Qeq in Hq. simpl in Hq. rewrite pow2_pos in Hq.
  destruct (decide (Qnum q = 0%Z)) as [H0|H0].
  { unfold round64. rewrite H0. unfold Qeq. simpl. lia. }
  destruct (round64_value q H0) as (m & e & _ & -> & He & Hm).
  set (n := Z.abs (Qnum q)) in *. set (d := Qden q) in *.
  set (P := (2 ^ Z.of_nat p)%Z) in *.
  assert (0 < P)%Z as HP by (apply Z.pow_pos_nonneg; lia).
  assert (0 < n)%Z as Hn by lia.
  assert (n * P = Z.abs z * Z.pos d)%Z as Hnz.
  { assert (Z.abs (Qnum q * P) = Z.abs (z * Z.pos d)) as Habs by (by rewrite Hq).
    rewrite !Z.abs_mul in Habs. unfold n. lia. }
  set (k := floorLog2 n d) in *.
  destruct (floorLog2_spec n d Hn) as [Hk1 Hk2]. fold k in Hk1, Hk2.
  (* the exponent of the leading bit *)
  assert (k + Z.of_nat p ≤ 53 ∧ (k + Z.of_nat p = 53 → Z.abs z = 2 ^ 53))%Z as [Hkp Hkeq].
  { destruct (Z.le_gt_cases 0 k) as [Hk|Hk].
    - specialize (Hk1 Hk).
      assert (2 ^ (k + Z.of_nat p) ≤ Z.abs z)%Z as Hle.
      { rewrite Z.pow_add_r by lia. fold P.
        assert (0 < 2 ^ k)%Z by (apply Z.pow_pos_nonneg; lia). nia. }
      split; [apply pow2_le_inv; lia|].
      intros Heq. rewrite Heq in Hle. lia.
    - specialize (Hk2 Hk).
      destruct (Z.le_gt_cases 0 (k + Z.of_nat p)) as [Hkp|Hkp]; [|lia].
      assert (2 ^ (k + Z.of_nat p) ≤ Z.abs z)%Z as Hle.
      { assert (P = 2 ^ (k + Z.of_nat p) * 2 ^ (- k))%Z as HPk
          by (unfold P; rewrite <- Z.pow_add_r by lia; f_equal; lia).
        assert (0 < 2 ^ (- k))%Z by (apply Z.pow_pos_nonneg; lia).
        assert (0 < 2 ^ (k + Z.of_nat p))%Z by (apply Z.pow_pos_nonneg; lia).
        nia. }
      split; [apply pow2_le_inv; lia|].
      intros Heq. rewrite Heq in Hle. lia. }
  assert (e + Z.of_nat p ≤ 0 ∨ (e + Z.of_nat p = 1 ∧ Z.abs z = 2 ^ 53))%Z as Hcase by lia.
  assert (Z.sgn (Qnum q) * n = Qnum q)%Z as Hsgn by (unfold n; lia).
  (* the scaled value is an integer *)
  assert (∃ M, (scaled n d e).1 = M * Z.pos (scaled n d e).2 ∧
               if (0 <=? e)%Z then (M * 2 ^ e * Z.pos d = n)%Z
               else (M * Z.pos d = n * 2 ^ (- e))%Z)%Z as (M & HM & HMe).
  { unfold scaled. destruct (Z.leb_spec 0 e) as [He0|He0]; simpl.
    - rewrite Pos2Z.inj_mul, Z2Pos.id by (apply Z.pow_pos_nonneg; lia).
      assert (0 < 2 ^ e)%Z by (apply Z.pow_pos_nonneg; lia).
      destruct Hcase as [Hle|[Heq Hzz]].
      + assert (e = 0 ∧ Z.of_nat p = 0)%Z as [He' Hp'] by lia.
        unfold P in *. rewrite He', Hp' in *. change (2 ^ 0)%Z with 1%Z in *.
        exists (Z.abs z). lia.
      + assert ((e = 1 ∧ Z.of_nat p = 0) ∨ (e = 0 ∧ Z.of_nat p = 1))%Z
          as [[He' Hp']|[He' Hp']] by lia;
          unfold P in *; rewrite He', Hp', Hzz in *;
          change (2 ^ 0)%Z with 1%Z in *; change (2 ^ 1)%Z with 2%Z in *;
          exists (2 ^ 52)%Z; lia.
    - assert (0 < 2 ^ (- e))%Z by (apply Z.pow_pos_nonneg; lia).
      destruct Hcase as [Hle|[Heq Hzz]].
      + exists (Z.abs z * 2 ^ (- (e + Z.of_nat p)))%Z.
        assert (2 ^ (- e) = P * 2 ^ (- (e + Z.of_nat p)))%Z as Hpe
          by (unfold P; rewrite <- Z.pow_add_r by lia; f_equal; lia).
        rewrite Hpe. split; nia.
      + exists (2 ^ 52)%Z.
        assert (P = 2 * 2 ^ (- e))%Z as Hpe
          by (unfold P; rewrite <- Z.pow_succ_r by lia; f_equal; lia).
        rewrite Hzz in Hnz. split; nia. }
  rewrite HM, roundNearestEven_exact in Hm. subst m.
  destruct q as [qn qd]. simpl in *. fold d.
  destruct (Z.leb_spec 0 e) as [He0|He0]; unfold Qeq, Qmult, inject_Z; simpl.
  - nia.
  - rewrite Pos.mul_1_l, Z2Pos.id by (apply Z.pow_pos_nonneg; lia). nia.
Qed.

Lemma round64_zero q : (q == 0)%Q → round64 q = 0%Q.
Proof.
  intros Hq. unfold round64.
  assert (Qnum q = 0%Z) as -> by (unfold Qeq in Hq; simpl in Hq; lia). done.
Qed.

Lemma fsub_nonneg x y : (y <= x)%Q → (0 <= fsub x y)%Q.
Proof. intros H. apply round64_sign. lra. Qed.

Lemma fsub_positive x y : (0 < fsub x y)%Q → (y < x)%Q.
Proof.
  intros H. apply Qnot_le_lt. intros Hle.
  assert (fsub x y <= 0)%Q by (apply round64_sign; lra). lra.
Qed.

Lemma fsub_same x y : (x == y)%Q → fsub x y = 0%Q.
Proof. intros H. apply round64_zero. lra. Qed.

Lemma fadd_nonneg x y : (0 <= x)%Q → (0 <= y)%Q → (0 <= fadd x y)%Q.
Proof. intros Hx Hy. apply round64_sign. lra. Qed.

(** Multiples of [2^-p] of at most 53 bits are computed exactly. *)
Lemma exactOn_pow2 p B :
  (Z.of_nat p ≤ 1074)%Z → (B <= 2 ^ 53 # pow2 p)%Q → exactOn (pow2 p) B.
Proof.
  intros Hp HB q [z Hz] H0 HqB. apply (round64_exact p z); [done| |done].
  rewrite Hz in H0, HqB. unfold Qle in *. simpl in *.
  assert (z * Z.pos (pow2 p) ≤ 2 ^ 53 * Z.pos (pow2 p))%Z.
  { destruct B as [bn bd]. simpl in *. nia. }
  nia.
Qed.

Lemma roundNearestEven_ge n d :
  (Z.pos d ≤ n)%Z → (1 ≤ roundNearestEven n d)%Z.
Proof.
  intros Hn. unfold roundNearestEven.
  assert (1 ≤ n / Z.pos d)%Z by (apply Z.div_le_lower_bound; lia).
  destruct (2 * (n mod Z.pos d) ?= Z.pos d)%Z; [destruct (Z.even _)|..]; lia.
Qed.

(** A number of the grid of the doubles other than 0 is not rounded to 0. *)
Lemma round64_nonzero q : onGrid q → ¬ (q == 0)%Q → ¬ (round64 q == 0)%Q.
Proof.
  intros [z Hz] Hq0. unfold Qeq in Hz. cbn [Qnum Qden] in Hz.
  rewrite pow2_pos in Hz.
  set (P := (2 ^ Z.of_nat 1074)%Z) in *.
  assert (0 < P)%Z as HP by (apply Z.pow_pos_nonneg; lia).
  assert (Qnum q ≠ 0%Z) as H0.
  { intros H. apply Hq0. unfold Qeq. cbn [Qnum Qden inject_Z]. lia. }
  destruct (round64_value q H0) as (m & e & _ & -> & He & Hm).
  set (n := Z.abs (Qnum q)) in *. set (d := Qden q) in *.
  assert (0 < n)%Z as Hn by lia.
  assert (n * P = Z.abs z * Z.pos d)%Z as Hnz.
  { assert (Z.abs (Qnum q * P) = Z.abs (z * Z.pos d)) as Habs
      by (by rewrite Hz).
    rewrite !Z.abs_mul in Habs. unfold n. lia. }
  assert (z ≠ 0)%Z as Hz0 by (intros ->; lia).
  set (k := floorLog2 n d) in *.
  destruct (floorLog2_spec n d Hn) as [Hk1 Hk2]. fold k in Hk1, Hk2.
  assert (Z.pos (scaled n d e).2 ≤ (scaled n d e).1)%Z as Hge.
  { unfold scaled. destruct (Z.leb_spec 0 e) as [He0|He0]; simpl.
    - rewrite Pos2Z.inj_mul, Z2Pos.id by (apply Z.pow_pos_nonneg; lia).
      assert (2 ^ e ≤ 2 ^ k)%Z by (apply Z.pow_le_mono_r; lia).
      specialize (Hk1 ltac:(lia)). nia.
    - assert (0 < 2 ^ (- e))%Z by (apply Z.pow_pos_nonneg; lia).
      destruct (Z.le_gt_cases (k - 52) (-1074)) as [Hsub|Hnorm].
      + assert (e = (-1074)%Z) as -> by lia.
        change (2 ^ (- -1074))%Z with P. nia.
      + assert (e = (k - 52)%Z) as -> by lia.
        destruct (Z.le_gt_cases 0 k) as [Hk|Hk].
        * specialize (Hk1 Hk).
          assert (0 < 2 ^ k)%Z by (apply Z.pow_pos_nonneg; lia). nia.
        * specialize (Hk2 Hk).
          assert (2 ^ (- k) ≤ 2 ^ (- (k - 52)))%Z by (apply Z.pow_le_mono_r; lia).
          nia. }
  apply roundNearestEven_ge in Hge. rewrite <- Hm in Hge.
  assert (0 < (if (0 <=? e)%Z then inject_Z (2 ^ e) else 1 # Z.to_pos (2 ^ (- e))))%Q
    as Hpos.
  { destruct (0 <=? e)%Z eqn:He'; [|reflexivity].
    apply Z.leb_le in He'. unfold Qlt, inject_Z; simpl.
    pose proof (Z.pow_pos_nonneg 2 e). lia. }
  set (f := if (0 <=? e)%Z then _ else _) in *.
  intros Hzero. apply Qmult_integral in Hzero as [Hzero|Hzero]; [|lra].
  unfold Qeq, inject_Z in Hzero. simpl in Hzero. nia.
Qed.

(** The difference of two doubles is rounded to 0 only when they are
    equal. *)
Lemma fsub_zero_onGrid x y :
  onGrid x → onGrid y → (fsub x y == 0)%Q → (x == y)%Q.
Proof.
  intros Hx Hy Hz.
  destruct (Qeq_dec (x - y) 0) as [H0|H0]; [lra|].
  destruct (round64_nonzero (x - y)); [|done|done].
  apply multipleOf_plus; [done | by apply multipleOf_opp].
Qed.

Lemma onGridb_correct q : onGridb q = true → onGrid q.
Proof. apply multipleOfb_correct. Qed.

(** ** What the functions leave unchanged *)

Lemma visitChild_lengths g p st c :
  length (bfs_level (visitChild g p st c)) = length (bfs_level st) ∧
  length (bfs_parents (visitChild g p st c)) = length (bfs_parents st).
Proof.
  unfold visitChild.
  repeat match goal with |- context [if ?b then _ else _] => destruct b end;
    simpl; rewrite ?length_insert, ?length_alter; done.
Qed.

Lemma foldl_visitChild_lengths g p cs st :
  length (bfs_level (foldl (visitChild g p) st cs)) = length (bfs_level st) ∧
  length (bfs_parents (foldl (visitChild g p) st cs)) = length (bfs_parents st).
Proof.
  revert st. induction cs as [|c cs IH]; intros st; simpl; [done|].
  destruct (IH (visitChild g p st c)) as [-> ->]. apply visitChild_lengths.
Qed.

Lemma bfs_loop_lengths fuel g st st' :
  bfs_loop fuel g st = Some st' →
  length (bfs_level st') = length (bfs_level st) ∧
  length (bfs_parents st') = length (bfs_parents st).
Proof.
  revert st. induction fuel as [|fuel IH]; intros st; simpl; [done|].
  destruct (bfs_queue st) as [|p q]; [done|].
  pose proof (foldl_visitChild_lengths g p (neighborRange g p)
                (mkBfs (bfs_level st) (bfs_parents st) q)) as [Hl Hp].
  simpl in Hl, Hp.
  destruct (bfs_queue (foldl _ _ _)) eqn:Hq.
  - intros [= <-]. done.
  - intros H%IH. by rewrite <- Hl, <- Hp.
Qed.

Lemma canReach_frame fuel d b d1 :
  canReachTargetInLevelGraph fuel d = Some (b, d1) →
  graph d1 = graph d ∧ source d1 = source d ∧ target d1 = target d ∧
  residualGraph d1 = residualGraph d ∧ maxFlow d1 = maxFlow d ∧
  hasRun d1 = hasRun d ∧ length (parents d1) = length (parents d).
Proof.
  unfold canReachTargetInLevelGraph.
  destruct (bfs_loop _ _ _) as [st|] eqn:Hloop; [|done].
  intros [= <- <-]; simpl. repeat split.
  apply bfs_loop_lengths in Hloop as [_ ->]. simpl. apply length_fmap.
Qed.

Lemma saturateEdge_length b st p c :
  length (saturateEdge b st p c).2 = length st.2.
Proof.
  unfold saturateEdge; simpl.
  destruct (_ && _); [apply length_alter | done].
Qed.

Lemma saturatePath_length b path st :
  length (saturatePath b st path).2 = length st.2.
Proof.
  revert st. induction path as [|c path IH]; intros st; simpl; [done|].
  destruct path as [|p path]; [done|].
  rewrite IH. apply saturateEdge_length.
Qed.

Lemma augment_length s t v path st :
  length (bl_parents (augment s t v path st)) = length (bl_parents st).
Proof.
  unfold augment. destruct (Nat.eqb v s); simpl; [|done].
  apply saturatePath_length.
Qed.

Lemma blocking_loop_length fuel s t st st' :
  blocking_loop fuel s t st = Some st' →
  length (bl_parents st') = length (bl_parents st).
Proof.
  revert st. induction fuel as [|fuel IH]; intros st; simpl; [done|].
  destruct (nextNode st) as [[v path]|].
  - intros H%IH. by rewrite H, augment_length.
  - by intros [= <-].
Qed.

Lemma computeBlockingPath_frame fuel d flow d1 :
  computeBlockingPath fuel d = Some (flow, d1) →
  graph d1 = graph d ∧ source d1 = source d ∧ target d1 = target d ∧
  maxFlow d1 = maxFlow d ∧ hasRun d1 = hasRun d ∧
  length (parents d1) = length (parents d).
Proof.
  unfold computeBlockingPath.
  destruct (blocking_loop _ _ _ _) as [st|] eqn:Hloop; [|done].
  intros [= <- <-]; simpl. repeat split.
  by apply blocking_loop_length in Hloop.
Qed.

Lemma run_loop_frame eps inner fuel d d' :
  run_loop eps inner fuel d = Some d' →
  graph d' = graph d ∧ source d' = source d ∧ target d' = target d ∧
  hasRun d' = hasRun d ∧ length (parents d') = length (parents d).
Proof.
  revert d. induction fuel as [|fuel IH]; intros d; simpl; [done|].
  destruct (canReachTargetInLevelGraph inner d) as [[[] d1]|] eqn:Hbfs; [| |done].
  - apply canReach_frame in Hbfs as (Hg & Hs & Ht & _ & _ & Hr & Hp).
    destruct (computeBlockingPath inner d1) as [[flow d2]|] eqn:Hblock; [|done].
    apply computeBlockingPath_frame in Hblock as (Hg2 & Hs2 & Ht2 & _ & Hr2 & Hp2).
    destruct (negb _).
    + intros (-> & -> & -> & -> & ->)%IH. simpl. by rewrite Hg2, Hs2, Ht2, Hr2, Hp2.
    + intros [= <-]. by rewrite Hg2, Hs2, Ht2, Hr2, Hp2.
  - apply canReach_frame in Hbfs as (Hg & Hs & Ht & _ & _ & Hr & Hp).
    by intros [= <-].
Qed.

(** [hasRun] is not read by the loop. *)
Lemma canReach_set_hasRun fuel d b :
  canReachTargetInLevelGraph fuel (set_hasRun d b) =
    (fun r : bool * Dinic => (r.1, set_hasRun r.2 b)) <$> canReachTargetInLevelGraph fuel d.
Proof.
  unfold canReachTargetInLevelGraph, bfs_init; simpl.
  by destruct (bfs_loop _ _ _).
Qed.

Lemma computeBlockingPath_set_hasRun fuel d b :
  computeBlockingPath fuel (set_hasRun d b) =
    (fun r : Q * Dinic => (r.1, set_hasRun r.2 b)) <$> computeBlockingPath fuel d.
Proof.
  unfold computeBlockingPath; simpl. by destruct (blocking_loop _ _ _ _).
Qed.

Lemma run_loop_set_hasRun eps inner fuel d b :
  run_loop eps inner fuel (set_hasRun d b) =
    (fun r => set_hasRun r b) <$> run_loop eps inner fuel d.
Proof.
  revert d. induction fuel as [|fuel IH]; intros d; simpl; [done|].
  rewrite canReach_set_hasRun.
  destruct (canReachTargetInLevelGraph inner d) as [[[] d1]|]; simpl; [| done..].
  rewrite computeBlockingPath_set_hasRun.
  destruct (computeBlockingPath inner d1) as [[flow d2]|]; simpl; [|done].
  destruct (negb _); [|done].
  by rewrite <- IH.
Qed.

(** The predecessor sets are cleared before they are read: only their number
    matters to the loop. *)
Lemma canReach_set_parents fuel d ps :
  length ps = length (parents d) →
  canReachTargetInLevelGraph fuel (set_parents d ps) =
    canReachTargetInLevelGraph fuel d.
Proof.
  intros Hlen. unfold canReachTargetInLevelGraph, bfs_init; simpl.
  replace ((fun _ => []) <$> ps) with ((fun _ : list node => @nil node) <$> parents d); [done|].
  rewrite !(const_fmap _ _ (@nil node)) by done. by rewrite Hlen.
Qed.

Lemma bfs_init_set_parents d ps :
  length ps = length (parents d) → bfs_init (set_parents d ps) = bfs_init d.
Proof.
  intros Hlen. unfold bfs_init; simpl. f_equal.
  rewrite !(const_fmap _ _ (@nil node)) by done. by rewrite Hlen.
Qed.

Lemma run_loop_set_parents eps inner fuel d ps :
  length ps = length (parents d) →
  run_loop eps inner fuel (set_parents d ps) = run_loop eps inner fuel d.
Proof.
  intros Hlen. destruct fuel as [|fuel]; simpl; [done|].
  by rewrite canReach_set_parents.
Qed.

(** ** More fuel changes nothing *)

Lemma bfs_loop_mono fuel fuel' g st st' :
  fuel ≤ fuel' → bfs_loop fuel g st = Some st' → bfs_loop fuel' g st = Some st'.
Proof.
  revert fuel' st. induction fuel as [|fuel IH]; intros fuel' st Hle; simpl; [done|].
  destruct fuel' as [|fuel']; [lia|]. simpl.
  destruct (bfs_queue st) as [|p q]; [done|].
  destruct (bfs_queue (foldl _ _ _)); [done|].
  apply IH. lia.
Qed.

Lemma blocking_loop_mono fuel fuel' s t st st' :
  fuel ≤ fuel' →
  blocking_loop fuel s t st = Some st' → blocking_loop fuel' s t st = Some st'.
Proof.
  revert fuel' st. induction fuel as [|fuel IH]; intros fuel' st Hle; simpl; [done|].
  destruct fuel' as [|fuel']; [lia|]. simpl.
  destruct (nextNode st) as [[v path]|]; [|done].
  apply IH. lia.
Qed.

Lemma canReach_mono fuel fuel' d r :
  fuel ≤ fuel' →
  canReachTargetInLevelGraph fuel d = Some r →
  canReachTargetInLevelGraph fuel' d = Some r.
Proof.
  intros Hle. unfold canReachTargetInLevelGraph.
  destruct (bfs_loop fuel _ _) as [st|] eqn:H; [|done].
  by rewrite (bfs_loop_mono _ _ _ _ _ Hle H).
Qed.

Lemma computeBlockingPath_mono fuel fuel' d r :
  fuel ≤ fuel' →
  computeBlockingPath fuel d = Some r → computeBlockingPath fuel' d = Some r.
Proof.
  intros Hle. unfold computeBlockingPath.
  destruct (blocking_loop fuel _ _ _) as [st|] eqn:H; [|done].
  by rewrite (blocking_loop_mono _ _ _ _ _ _ Hle H).
Qed.

Lemma run_loop_mono eps inner inner' fuel fuel' d d' :
  inner ≤ inner' → fuel ≤ fuel' →
  run_loop eps inner fuel d = Some d' → run_loop eps inner' fuel' d = Some d'.
Proof.
  intros Hin. revert fuel' d.
  induction fuel as [|fuel IH]; intros fuel' d Hle; simpl; [done|].
  destruct fuel' as [|fuel']; [lia|]. simpl.
  destruct (canReachTargetInLevelGraph inner d) as [[b d1]|] eqn:Hbfs; [|done].
  rewrite (canReach_mono _ _ _ _ Hin Hbfs).
  destruct b; [|done].
  destruct (computeBlockingPath inner d1) as [[flow d2]|] eqn:Hblock; [|done].
  rewrite (computeBlockingPath_mono _ _ _ _ Hin Hblock).
  destruct (negb _); [|done].
  apply IH. lia.
Qed.

Lemma run_mono eps fuel fuel' d d' :
  fuel ≤ fuel' → run eps fuel d = Some d' → run eps fuel' d = Some d'.
Proof.
  intros Hle. unfold run.
  destruct (run_loop eps fuel fuel _) as [d3|] eqn:H; [|done].
  by rewrite (run_loop_mono _ _ _ _ _ _ _ Hle Hle H).
Qed.

(** Two runs that both finish agree, whatever their fuel. *)
Lemma run_deterministic eps fuel fuel' d d1 d2 :
  run eps fuel d = Some d1 → run eps fuel' d = Some d2 → d1 = d2.
Proof.
  intros H1 H2. destruct (Nat.le_ge_cases fuel fuel') as [Hle|Hle].
  - apply (run_mono _ _ _ _ _ Hle) in H1. congruence.
  - apply (run_mono _ _ _ _ _ Hle) in H2. congruence.
Qed.

(** ** The accumulated flow *)

Lemma run_loop_maxFlow eps inner fuel d d' :
  run_loop eps inner fuel d = Some d' →
  ∃ flows, phaseFlows eps inner fuel d = Some flows ∧
           maxFlow d' = foldl fadd (maxFlow d) (accepted eps flows).
Proof.
  revert d. induction fuel as [|fuel IH]; intros d; simpl; [done|].
  destruct (canReachTargetInLevelGraph inner d) as [[[] d1]|] eqn:Hbfs; [| |done].
  - apply canReach_frame in Hbfs as (_ & _ & _ & _ & Hm & _).
    destruct (computeBlockingPath inner d1) as [[flow d2]|] eqn:Hblock; [|done].
    apply computeBlockingPath_frame in Hblock as (_ & _ & _ & Hm2 & _).
    destruct (negb (NumericTools_equal eps flow 0)) eqn:Hflow.
    + intros (flows & -> & ->)%IH. exists (flow :: flows).
      split; [done|]. unfold accepted; simpl. rewrite Hflow. simpl.
      by rewrite Hm2, Hm.
    + intros [= <-]. exists [flow]. split; [done|].
      unfold accepted; simpl. rewrite Hflow. simpl. by rewrite Hm2, Hm.
  - apply canReach_frame in Hbfs as (_ & _ & _ & _ & Hm & _).
    intros [= <-]. by exists [].
Qed.

(** ** Construction *)

Lemma Dinic_new_inr G s t d0 :
  Dinic_new G s t = inr d0 →
  d0 = mkDinic G s t emptyGraph (replicate (numberOfNodes G) []) 0%Q false ∧
  s ≠ t ∧ isDirected G = true ∧ isWeighted G = true.
Proof.
  unfold Dinic_new.
  destruct (isDirected G), (isWeighted G), (Nat.eqb_spec s t); simpl; try done.
  by intros [= <-].
Qed.

(** C8: construction with an undirected graph, with an unweighted graph or
    with source = target yields the configuration error of that case, checked
    in this order, and only the error: the result of a failing construction
    holds no instance, hence no residual graph.  Construction succeeds exactly
    on a directed, weighted graph with source <> target, and the instance it
    returns has an empty residual graph, one empty predecessor list per node
    and has not run. *)
Theorem Dinic_new_configuration_error (G : Graph) (s t : node) :
  (isDirected G = false →
   Dinic_new G s t = inl (runtime_error not_directed)) ∧
  (isDirected G = true → isWeighted G = false →
   Dinic_new G s t = inl (runtime_error not_weighted)) ∧
  (isDirected G = true → isWeighted G = true → s = t →
   Dinic_new G s t = inl (runtime_error same_nodes)) ∧
  ((isDirected G = false ∨ isWeighted G = false ∨ s = t) ↔
   (∃ e, Dinic_new G s t = inl e)) ∧
  (∀ d, Dinic_new G s t = inr d →
        graph d = G ∧ source d = s ∧ target d = t ∧
        residualGraph d = emptyGraph ∧
        parents d = replicate (numberOfNodes G) [] ∧ hasRun d = false).
Proof.
  unfold Dinic_new.
  destruct (isDirected G), (isWeighted G), (Nat.eqb_spec s t); simpl;
    repeat split; try done; try (intros; by eexists);
    try (intros [e He]; done);
    try (match goal with H : inr _ = inr _ |- _ => by injection H as <- end);
    try (intros [?|[?|?]]; done); auto.
Qed.

(** ** [getMaxFlow] *)

Lemma phase_state_hasRun d0 d : phase_state d0 d → hasRun d = hasRun d0.
Proof.
  induction 1 as [|d fuel fuel' d1 flow d2 _ IH Hbfs Hblock|d m _ IH]; [done| |done].
  apply canReach_frame in Hbfs as (_ & _ & _ & _ & _ & Hr1 & _).
  apply computeBlockingPath_frame in Hblock as (_ & _ & _ & _ & Hr2 & _).
  congruence.
Qed.

(** C9: on an instance as constructed, and at every phase boundary of a run
    on it, that is as long as [run] has not completed, [getMaxFlow] fails with
    the "not run" error; once [run] has completed, [getMaxFlow] of the
    resulting instance returns a value, the flows of the phases whose flow was
    not tolerance-zero added up from 0. *)
Theorem getMaxFlow_after_run (eps : Q) (fuel : nat) (G : Graph) (s t : node)
    (d d' : Dinic) :
  Dinic_new G s t = inr d →
  run eps fuel d = Some d' →
  getMaxFlow d = inl (runtime_error not_run) ∧
  (∀ d1, phase_state d d1 → getMaxFlow d1 = inl (runtime_error not_run)) ∧
  ∃ flows, phaseFlows eps fuel fuel (run_start d) = Some flows ∧
           getMaxFlow d' = inr (foldl fadd 0%Q (accepted eps flows)).
Proof.
  intros (-> & _)%Dinic_new_inr Hrun.
  set (d := mkDinic G s t emptyGraph (replicate (numberOfNodes G) []) 0%Q false) in *.
  assert (hasRun d = false) as Hr by done.
  split; [|split].
  - unfold getMaxFlow, assureFinished. by rewrite Hr.
  - intros d1 Hd1%phase_state_hasRun.
    unfold getMaxFlow, assureFinished. by rewrite Hd1, Hr.
  - unfold run in Hrun. fold (run_start d) in Hrun.
    destruct (run_loop eps fuel fuel (run_start d)) as [d3|] eqn:Hloop; [|done].
    injection Hrun as <-.
    apply run_loop_maxFlow in Hloop as (flows & Hflows & Hmax).
    exists flows. split; [done|].
    unfold getMaxFlow, assureFinished; simpl. by rewrite Hmax.
Qed.

Lemma getMaxFlow_after_run_witness :
  getMaxFlow diamondInstance = inl (runtime_error not_run) ∧
  (∀ d1, phase_state diamondInstance d1 →
         getMaxFlow d1 = inl (runtime_error not_run)) ∧
  ∃ flows,
    phaseFlows tolerance 8 8 (run_start diamondInstance) = Some flows ∧
    getMaxFlow diamondFinished = inr (foldl fadd 0%Q (accepted tolerance flows)).
Proof.
  apply (getMaxFlow_after_run tolerance 8 diamond 0 3).
  - reflexivity.
  - vm_compute. reflexivity.
Defined.

(** ** Running twice *)

(** C10: [run] on the instance an earlier [run] has left starts as the
    earlier one did.  It rebuilds the residual graph from the input graph,
    which [run] never changes: the residual graph handed to the loop is the
    one the earlier run handed to its loop, not the one that run left
    behind; and it resets [maxFlow] to 0.  The loop then does what it did in
    the earlier run, so the second run ends, with the fuel of the first or
    more, in the very instance it started from: [getMaxFlow] returns the
    value of the first run again, not a sum over both runs. *)
Theorem run_twice (eps : Q) (fuel : nat) (d d1 : Dinic) :
  run eps fuel d = Some d1 →
  hasRun d1 = true ∧ graph d1 = graph d ∧
  initializeResidualGraph d1 =
    set_residualGraph d1 (residualGraph (initializeResidualGraph d)) ∧
  residualGraph (run_start d1) = residualGraph (run_start d) ∧
  maxFlow (run_start d1) = 0%Q ∧
  (∀ fuel', run eps fuel' d1 =
            (fun d3 => set_hasRun d3 true) <$>
              run_loop eps fuel' fuel'
                (set_maxFlow (initializeResidualGraph d1) 0%Q)) ∧
  (∀ fuel', run_loop eps fuel' fuel' (run_start d1) =
            (fun d3 => set_hasRun d3 true) <$>
              run_loop eps fuel' fuel' (run_start d)) ∧
  (∀ fuel', fuel ≤ fuel' → run eps fuel' d1 = Some d1) ∧
  (∀ fuel' d2, run eps fuel' d1 = Some d2 →
               d2 = d1 ∧ getMaxFlow d2 = getMaxFlow d1) ∧
  getMaxFlow d1 = inr (maxFlow d1).
Proof.
  intros Hrun.
  unfold run in Hrun. fold (run_start d) in Hrun.
  destruct (run_loop eps fuel fuel (run_start d)) as [d3|] eqn:Hloop; [|done].
  injection Hrun as <-.
  pose proof (run_loop_frame _ _ _ _ _ Hloop) as (Hg & Hs & Ht & Hr & Hp).
  assert (run_start (set_hasRun d3 true) =
          set_hasRun (set_parents (run_start d) (parents d3)) true) as Hstart.
  { unfold run_start, initializeResidualGraph, set_maxFlow, set_residualGraph,
      set_hasRun, set_parents in *; simpl in *. by rewrite Hg, Hs, Ht. }
  assert (∀ fuel', run_loop eps fuel' fuel' (run_start (set_hasRun d3 true)) =
                   (fun d3 => set_hasRun d3 true) <$>
                     run_loop eps fuel' fuel' (run_start d)) as Hagain.
  { intros fuel'. rewrite Hstart.
    by rewrite run_loop_set_hasRun, run_loop_set_parents by done. }
  assert (run eps fuel (set_hasRun d3 true) = Some (set_hasRun d3 true)) as Hsame.
  { unfold run. fold (run_start (set_hasRun d3 true)).
    rewrite Hagain, Hloop. simpl. by destruct d3. }
  split; [done|]. split; [done|].
  split.
  { unfold initializeResidualGraph, set_residualGraph, set_hasRun in *; simpl in *.
    by rewrite Hg. }
  split; [by rewrite Hstart|]. split; [done|].
  split.
  { intros fuel'. unfold run. by destruct (run_loop _ _ _ _). }
  split; [exact Hagain|].
  split; [intros fuel' Hle; by apply (run_mono eps fuel)|].
  split; [|done].
  intros fuel' d2 Hrun'.
  by pose proof (run_deterministic _ _ _ _ _ _ Hsame Hrun') as <-.
Qed.

Lemma run_twice_witness :
  hasRun diamondFinished = true ∧ graph diamondFinished = diamond ∧
  initializeResidualGraph diamondFinished =
    set_residualGraph diamondFinished
      (residualGraph (initializeResidualGraph diamondInstance)) ∧
  residualGraph (run_start diamondFinished) =
    residualGraph (run_start diamondInstance) ∧
  maxFlow (run_start diamondFinished) = 0%Q ∧
  (∀ fuel', run tolerance fuel' diamondFinished =
            (fun d3 => set_hasRun d3 true) <$>
              run_loop tolerance fuel' fuel'
                (set_maxFlow (initializeResidualGraph diamondFinished) 0%Q)) ∧
  (∀ fuel', run_loop tolerance fuel' fuel' (run_start diamondFinished) =
            (fun d3 => set_hasRun d3 true) <$>
              run_loop tolerance fuel' fuel' (run_start diamondInstance)) ∧
  (∀ fuel', 8 ≤ fuel' → run tolerance fuel' diamondFinished = Some diamondFinished) ∧
  (∀ fuel' d2, run tolerance fuel' diamondFinished = Some d2 →
               d2 = diamondFinished ∧ getMaxFlow d2 = getMaxFlow diamondFinished) ∧
  getMaxFlow diamondFinished = inr 5%Q.
Proof.
  apply (run_twice tolerance 8 diamondInstance diamondFinished).
  vm_compute. reflexivity.
Defined.

(** ** One call of [computeBlockingPath] *)

Lemma alter_out_of_range {A} (f : A → A) (l : list A) (i : nat) :
  length l ≤ i → alter f i l = l.
Proof.
  intros Hi. apply list_eq. intros j. rewrite list_lookup_alter.
  case_decide as Hj; [|done]. subst.
  by rewrite lookup_ge_None_2.
Qed.

Lemma weight_setWeight_ne g u v w x y :
  ¬ (x = u ∧ y = v) → weight (setWeight g u v w) x y = weight g x y.
Proof.
  intros Hne. destruct (decide (u < numberOfNodes g)) as [Hu|Hu].
  - by rewrite weight_setWeight, decide_False.
  - unfold setWeight, addEdge, weight, numberOfNodes in *.
    destruct (hasEdge g u v); simpl; by rewrite alter_out_of_range by lia.
Qed.

Lemma weight_addEdge_ne g u v w x y :
  ¬ (x = u ∧ y = v) → weight (addEdge g u v w) x y = weight g x y.
Proof.
  intros Hne. unfold addEdge, weight; simpl.
  rewrite list_lookup_total_alter.
  destruct (decide (u = x ∧ u < length (outEdges g))) as [[-> _]|Hn]; [|done].
  rewrite adjWeight_snoc.
  destruct (adjWeight (outEdges g !!! x) y); [done|].
  destruct (Nat.eqb_spec v y) as [->|]; [|done].
  by destruct Hne.
Qed.

(** The residual capacity of the edge [parent -> child] after [saturateEdge]. *)
Lemma saturateEdge_weight_forward b st parent child :
  parent < numberOfNodes st.1 → parent ≠ child →
  weight (saturateEdge b st parent child).1 parent child =
    fsub (weight st.1 parent child) b.
Proof.
  intros Hp Hne. unfold saturateEdge; simpl.
  destruct (hasEdge _ child parent).
  - rewrite weight_setWeight_ne by (intros [? ?]; congruence).
    by rewrite weight_setWeight, decide_True.
  - rewrite weight_addEdge_ne by (intros [? ?]; congruence).
    by rewrite weight_setWeight, decide_True.
Qed.

Lemma alter_tail_nil (ps : list (list node)) (c : node) :
  ps !!! c = [] → alter tail c ps = ps.
Proof.
  intros Hc. apply list_eq. intros i.
  destruct (decide (c = i)) as [<-|Hne].
  - rewrite list_lookup_alter_eq, list_lookup_total_alt in *.
    destruct (ps !! c) as [l|]; simpl in *; by subst.
  - by rewrite list_lookup_alter_ne.
Qed.

(** C4, as stated, fails.  On the path 0 -> 1 -> 2 with the capacities
    1.0000000000001 and 1, [computeBlockingPath] pushes 1; when the loop
    comes to the edge 0 -> 1 it leaves about 10^-13 there, which is
    tolerance-zero for the tolerance 10^-12, and keeps the predecessor of
    node 1; a tolerance-aware test would pop it. *)
Lemma computeBlockingPath_not_tolerant :
  canReachTargetInLevelGraph 3 nearlyOneStart = Some (true, nearlyOneSearched) ∧
  parents nearlyOneSearched = [[]; [0]; [1]] ∧
  (∃ d2,
     computeBlockingPath 4 nearlyOneSearched = Some (1%Q, d2) ∧
     (residualGraph d2, parents d2) =
       saturateEdge 1%Q
         (saturateEdge 1%Q
            (residualGraph nearlyOneSearched, parents nearlyOneSearched) 1 2) 0 1 ∧
     (0 < weight (residualGraph d2) 0 1)%Q ∧
     NumericTools_equal tolerance (weight (residualGraph d2) 0 1) 0%Q = true ∧
     parents d2 !!! 1 = [0]) ∧
  (saturateEdge_tolerant tolerance 1%Q
     (saturateEdge 1%Q
        (residualGraph nearlyOneSearched, parents nearlyOneSearched) 1 2) 0 1).2
    !!! 1 = [].
Proof.
  split; [vm_compute; reflexivity|]. split; [vm_compute; reflexivity|].
  split; [|vm_compute; reflexivity].
  eexists. split; [vm_compute; reflexivity|].
  repeat split; vm_compute; reflexivity.
Qed.

(** C4, amended: the saturation test of [saturateEdge] is the exact
    comparison with zero of the residual capacity it has just stored for the
    edge, the rounded difference of the capacity and the pushed amount.  For
    an edge [parent -> child] between two different nodes, with doubles for
    the capacity and the pushed amount, the front predecessor of [child] is
    popped when the two are equal, and the predecessor lists stay as they
    are when they are not, however small the remainder. *)
Theorem saturateEdge_exact_test (b : edgeweight) (g : Graph) (ps : list (list node))
    (parent child : node) :
  parent < numberOfNodes g → parent ≠ child →
  onGrid (weight g parent child) → onGrid b →
  weight (saturateEdge b (g, ps) parent child).1 parent child =
    fsub (weight g parent child) b ∧
  (weight g parent child == b →
   (saturateEdge b (g, ps) parent child).2 = alter tail child ps) ∧
  (¬ weight g parent child == b →
   (saturateEdge b (g, ps) parent child).2 = ps).
Proof.
  intros Hp Hne Hgw Hgb.
  pose proof (saturateEdge_weight_forward b (g, ps) parent child Hp Hne) as Hw.
  split; [done|].
  unfold saturateEdge in *; simpl in *. rewrite Hw. clear Hw.
  split; intros Hb.
  - rewrite (fsub_same _ _ Hb). simpl.
    destruct (ps !!! child) eqn:Hc; simpl; [|done].
    by rewrite alter_tail_nil.
  - destruct (Qeq_bool _ _) eqn:Hz; [|done].
    apply Qeq_bool_iff in Hz. destruct Hb.
    apply fsub_zero_onGrid in Hz; done.
Qed.

Lemma saturateEdge_exact_test_witness :
  (saturateEdge 1%Q (residualGraph nearlyOneSearched, parents nearlyOneSearched) 1 2).2 =
    alter tail 2 (parents nearlyOneSearched) ∧
  (saturateEdge 1%Q
     (saturateEdge 1%Q
        (residualGraph nearlyOneSearched, parents nearlyOneSearched) 1 2) 0 1).2 =
    (saturateEdge 1%Q
       (residualGraph nearlyOneSearched, parents nearlyOneSearched) 1 2).2.
Proof.
  split.
  - apply (saturateEdge_exact_test 1%Q (residualGraph nearlyOneSearched)
             (parents nearlyOneSearched) 1 2).
    + vm_compute. lia.
    + lia.
    + apply onGridb_correct. vm_compute. reflexivity.
    + apply onGridb_correct. vm_compute. reflexivity.
    + vm_compute. reflexivity.
  - apply (saturateEdge_exact_test 1%Q
             (saturateEdge 1%Q
                (residualGraph nearlyOneSearched, parents nearlyOneSearched) 1 2).1
             (saturateEdge 1%Q
                (residualGraph nearlyOneSearched, parents nearlyOneSearched) 1 2).2
             0 1).
    + vm_compute. lia.
    + lia.
    + apply onGridb_correct. vm_compute. reflexivity.
    + apply onGridb_correct. vm_compute. reflexivity.
    + vm_compute. discriminate.
Defined.

(** After an augmentation the loop is left at once: [u] is the source, which
    has no predecessor, and the path buffer holds the target alone. *)
Lemma saturatePath_source_no_parent b path st s :
  st.2 !!! s = [] → (saturatePath b st path).2 !!! s = [].
Proof.
  revert st. induction path as [|c path IH]; intros st Hs; simpl; [done|].
  destruct path as [|p path]; [done|].
  apply IH. unfold saturateEdge; simpl.
  destruct (_ && _); [|done].
  rewrite list_lookup_total_alter. case_decide as Hc; [|done].
  destruct Hc as [-> _]. by rewrite Hs.
Qed.

Lemma nextNode_after_augment s t path st :
  bl_parents st !!! s = [] → nextNode (augment s t s path st) = None.
Proof.
  intros Hs. unfold augment, nextNode. rewrite Nat.eqb_refl. simpl.
  by rewrite saturatePath_source_no_parent.
Qed.

(** C2 (the source departs from it): on two disjoint paths of equal length,
    0 -> 1 -> 3 and 0 -> 2 -> 3 with all capacities 1, the breadth-first
    search reaches the target and [computeBlockingPath] returns after one
    path with flow 1, while the level graph still has the walk 3 <- 2 <- 0
    over edges of positive residual capacity. *)
Theorem computeBlockingPath_single_path :
  ∃ d1 d2,
    canReachTargetInLevelGraph 8
      (run_start (mkDinic twoPaths 0 3 emptyGraph (replicate 4 []) 0%Q false)) =
      Some (true, d1) ∧
    parents d1 = [[]; [0]; [0]; [1; 2]] ∧
    computeBlockingPath 8 d1 = Some (1%Q, d2) ∧
    parents d2 = [[]; []; [0]; [2]] ∧
    isPositive (weight (residualGraph d2) 2 3) = true ∧
    isPositive (weight (residualGraph d2) 0 2) = true.
Proof.
  eexists _, _.
  split; [vm_compute; reflexivity|].
  split; [vm_compute; reflexivity|].
  split; [vm_compute; reflexivity|].
  repeat split; vm_compute; reflexivity.
Qed.

(** C3 (the source departs from it): on the three-layer graph with 8 nodes
    [run] goes through 9 phases, each with flow 1, before the search fails to
    reach the target. *)
Theorem layered_nine_phases :
  numberOfNodes layered = 8 ∧
  phaseFlows tolerance 16 16
    (run_start (mkDinic layered 0 7 emptyGraph (replicate 8 []) 0%Q false)) =
    Some (replicate 9 1%Q) ∧
  (maxFlow <$> run tolerance 16 (mkDinic layered 0 7 emptyGraph (replicate 8 []) 0%Q false)) =
    Some 9%Q.
Proof. repeat split; vm_compute; reflexivity. Qed.

(** ** Residual-graph construction *)

Lemma addHalfEdges_app b l1 l2 :
  addHalfEdges b (l1 ++ l2) = addHalfEdges (addHalfEdges b l1) l2.
Proof. apply foldl_app. Qed.

Lemma addHalfEdges_flags b l :
  builderWeighted (addHalfEdges b l) = builderWeighted b ∧
  builderDirected (addHalfEdges b l) = builderDirected b ∧
  length (builderOutEdges (addHalfEdges b l)) = length (builderOutEdges b).
Proof.
  revert b. induction l as [|p l IH]; intros b; [done|].
  destruct (IH (addHalfEdge b p.1 p.2.1 p.2.2)) as (Hw & Hd & Hl).
  unfold addHalfEdges in *; simpl in *. rewrite Hw, Hd, Hl.
  by rewrite length_alter.
Qed.

Lemma addHalfEdges_lookup b l x :
  Forall (fun p => p.1 < length (builderOutEdges b)) l →
  builderOutEdges (addHalfEdges b l) !!! x =
    builderOutEdges b !!! x ++ (snd <$> filter (fun p => p.1 = x) l).
Proof.
  revert b. induction l as [|[y e] l IH]; intros b Hl.
  - simpl. by rewrite app_nil_r.
  - apply Forall_cons in Hl as [Hy Hl]. simpl in Hy.
    change (addHalfEdges b ((y, e) :: l))
      with (addHalfEdges (addHalfEdge b y e.1 e.2) l).
    rewrite IH by (simpl; by rewrite length_alter).
    simpl. rewrite list_lookup_total_alter, filter_cons. simpl.
    destruct (decide (y = x)) as [->|Hne].
    + rewrite decide_True by done. rewrite <- app_assoc. simpl. by destruct e.
    + rewrite decide_False by (intros [? ?]; done). done.
Qed.

Lemma foldl_addResidualEdges u b l :
  foldl (addResidualEdges u) b l =
    addHalfEdges b (e ← l; [(e.1, (u, e.2)); (u, (e.1, 0%Q))]).
Proof.
  revert b. induction l as [|[v w] l IH]; intros b; [done|].
  simpl. by rewrite IH.
Qed.

Lemma initializeResidualGraph_entries d :
  residualGraph (initializeResidualGraph d) =
    completeGraph (addHalfEdges (GraphBuilder_new (numberOfNodes (graph d)) true true false)
                                (residualEntries (graph d))).
Proof.
  unfold initializeResidualGraph, residualEntries; simpl. f_equal.
  generalize (GraphBuilder_new (numberOfNodes (graph d)) true true false).
  induction (seq 0 (numberOfNodes (graph d))) as [|u us IH]; intros b; [done|].
  simpl. rewrite addHalfEdges_app, IH. f_equal. apply foldl_addResidualEdges.
Qed.

Lemma elem_of_inNeighborsOf G u v w :
  (v, w) ∈ inNeighborsOf G u ↔ v < numberOfNodes G ∧ (u, w) ∈ outEdges G !!! v.
Proof.
  unfold inNeighborsOf, numberOfNodes. rewrite list_elem_of_join. split.
  - intros (l & Hvw & Hl).
    apply list_elem_of_lookup in Hl as [i Hi].
    rewrite list_lookup_imap in Hi.
    destruct (outEdges G !! i) as [adj|] eqn:Hadj; [|done].
    injection Hi as <-.
    apply list_elem_of_fmap in Hvw as ([x w'] & [= -> ->] & Hin).
    apply list_elem_of_filter in Hin as [Hx Hin]. simpl in *. subst.
    split; [by eapply lookup_lt_Some|].
    by rewrite list_lookup_total_alt, Hadj.
  - intros [Hv Hin].
    destruct (lookup_lt_is_Some_2 _ _ Hv) as [adj Hadj].
    rewrite list_lookup_total_alt, Hadj in Hin. simpl in Hin.
    eexists. split; [|apply list_elem_of_lookup; exists v;
                        by rewrite list_lookup_imap, Hadj].
    apply list_elem_of_fmap. exists (u, w). split; [done|].
    by apply list_elem_of_filter.
Qed.

Lemma residualEntries_lt G :
  Forall (fun p => p.1 < numberOfNodes G) (residualEntries G).
Proof.
  apply Forall_forall. intros [x e] Hin. simpl.
  unfold residualEntries in Hin.
  apply list_elem_of_bind in Hin as (u & Hin & Hu%elem_of_seq).
  apply list_elem_of_bind in Hin as ([v w] & Hin & Hvw%elem_of_inNeighborsOf).
  simpl in Hin. destruct Hvw as [Hv _].
  apply elem_of_cons in Hin as [[= -> ->]|Hin]; [done|].
  apply list_elem_of_singleton in Hin as [= -> ->]. lia.
Qed.

Lemma elem_of_residualEntries G x e :
  (x, e) ∈ residualEntries G ↔
  ∃ u v w, u < numberOfNodes G ∧ (v, w) ∈ inNeighborsOf G u ∧
           ((x = v ∧ e = (u, w)) ∨ (x = u ∧ e = (v, 0%Q))).
Proof.
  unfold residualEntries. rewrite list_elem_of_bind. split.
  - intros (u & Hin & Hu%elem_of_seq).
    apply list_elem_of_bind in Hin as ([v w] & Hin & Hvw). simpl in Hin.
    exists u, v, w. split; [lia|]. split; [done|].
    apply elem_of_cons in Hin as [[= -> ->]|Hin]; [by left|].
    apply list_elem_of_singleton in Hin as [= -> ->]. by right.
  - intros (u & v & w & Hu & Hvw & Hcase).
    exists u. split; [|apply elem_of_seq; lia].
    apply list_elem_of_bind. exists (v, w). split; [|done]. simpl.
    destruct Hcase as [[-> ->]|[-> ->]]; [left | right; left].
Qed.

Lemma initializeResidualGraph_lookup d x :
  outEdges (residualGraph (initializeResidualGraph d)) !!! x =
    snd <$> filter (fun p => p.1 = x) (residualEntries (graph d)).
Proof.
  rewrite initializeResidualGraph_entries. simpl.
  rewrite addHalfEdges_lookup.
  - simpl. destruct (decide (x < numberOfNodes (graph d))) as [Hx|Hx].
    + by rewrite lookup_total_replicate_2.
    + by rewrite list_lookup_total_alt, lookup_ge_None_2
        by (rewrite length_replicate; lia).
  - simpl. rewrite length_replicate. apply residualEntries_lt.
Qed.

Lemma initializeResidualGraph_nodes d :
  numberOfNodes (residualGraph (initializeResidualGraph d)) = numberOfNodes (graph d).
Proof.
  rewrite initializeResidualGraph_entries. unfold numberOfNodes at 1. simpl.
  destruct (addHalfEdges_flags
              (GraphBuilder_new (numberOfNodes (graph d)) true true false)
              (residualEntries (graph d))) as (_ & _ & ->).
  simpl. apply length_replicate.
Qed.

Lemma elem_of_initializeResidualGraph d x e :
  e ∈ outEdges (residualGraph (initializeResidualGraph d)) !!! x ↔
  (x, e) ∈ residualEntries (graph d).
Proof.
  rewrite initializeResidualGraph_lookup, list_elem_of_fmap. split.
  - intros ([y e'] & -> & Hin). apply list_elem_of_filter in Hin as [Hy Hin].
    simpl in *. by subst.
  - intros Hin. exists (x, e). split; [done|]. by apply list_elem_of_filter.
Qed.

(** C7: the residual graph [initializeResidualGraph] builds has the nodes of
    the input graph and is directed and weighted; for every node [u] and
    every in-neighbour [v] of [u] with weight [w] it has an entry [v -> u] of
    capacity [w] and an entry [u -> v] of capacity 0; and it has no other
    entry. *)
Theorem initializeResidualGraph_edges (d : Dinic) (u v : node) (w : edgeweight) :
  u < numberOfNodes (graph d) →
  (v, w) ∈ inNeighborsOf (graph d) u →
  numberOfNodes (residualGraph (initializeResidualGraph d)) = numberOfNodes (graph d) ∧
  isDirected (residualGraph (initializeResidualGraph d)) = true ∧
  isWeighted (residualGraph (initializeResidualGraph d)) = true ∧
  (u, w) ∈ outEdges (residualGraph (initializeResidualGraph d)) !!! v ∧
  (v, 0%Q) ∈ outEdges (residualGraph (initializeResidualGraph d)) !!! u ∧
  (∀ x e, e ∈ outEdges (residualGraph (initializeResidualGraph d)) !!! x →
          ∃ u' v' w', u' < numberOfNodes (graph d) ∧
                      (v', w') ∈ inNeighborsOf (graph d) u' ∧
                      ((x = v' ∧ e = (u', w')) ∨ (x = u' ∧ e = (v', 0%Q)))).
Proof.
  intros Hu Hvw. split; [apply initializeResidualGraph_nodes|].
  split.
  { rewrite initializeResidualGraph_entries. simpl.
    by destruct (addHalfEdges_flags
                   (GraphBuilder_new (numberOfNodes (graph d)) true true false)
                   (residualEntries (graph d))) as (_ & -> & _). }
  split.
  { rewrite initializeResidualGraph_entries. simpl.
    by destruct (addHalfEdges_flags
                   (GraphBuilder_new (numberOfNodes (graph d)) true true false)
                   (residualEntries (graph d))) as (-> & _ & _). }
  rewrite !elem_of_initializeResidualGraph, !elem_of_residualEntries.
  split; [exists u, v, w; auto|].
  split; [exists u, v, w; auto|].
  intros x e. by rewrite elem_of_initializeResidualGraph, elem_of_residualEntries.
Qed.

Lemma initializeResidualGraph_edges_witness :
  numberOfNodes (residualGraph (initializeResidualGraph
     diamondInstance)) =
    numberOfNodes diamond ∧
  (1, 3%Q) ∈ outEdges (residualGraph (initializeResidualGraph
     diamondInstance)) !!! 0 ∧
  (0, 0%Q) ∈ outEdges (residualGraph (initializeResidualGraph
     diamondInstance)) !!! 1.
Proof.
  pose proof (initializeResidualGraph_edges
                diamondInstance 1 0 3%Q)
    as H.
  destruct H as (H1 & _ & _ & H2 & H3 & _).
  - vm_compute. lia.
  - vm_compute. left.
  - exact (conj H1 (conj H2 H3)).
Defined.

(** ** The breadth-first search *)

Lemma isPositive_iff a : isPositive a = true ↔ (0 < a)%Q.
Proof.
  unfold isPositive. rewrite negb_true_iff. split.
  - intros H. apply Qnot_le_lt. intros Hle%Qle_bool_iff. congruence.
  - intros H. destruct (Qle_bool a 0) eqn:Hle; [|done].
    apply Qle_bool_iff in Hle. lra.
Qed.

Lemma weight_nonzero_neighbor g u v :
  ¬ (weight g u v == 0)%Q → v ∈ neighborRange g u ∧ u < numberOfNodes g.
Proof.
  unfold weight, neighborRange, numberOfNodes. intros Hw.
  destruct (adjWeight (outEdges g !!! u) v) as [w|] eqn:Hadj.
  - split.
    + apply list_elem_of_fmap. exists (v, w). split; [done|].
      by apply adjWeight_Some_elem.
    + destruct (decide (u < length (outEdges g))); [done|].
      rewrite list_lookup_total_alt, lookup_ge_None_2 in Hadj by lia. done.
  - destruct Hw. reflexivity.
Qed.

Lemma neighborRange_lt g u v :
  wfGraph g → v ∈ neighborRange g u → v < numberOfNodes g.
Proof.
  intros Hwf Hv. apply list_elem_of_fmap in Hv as ([v' w] & -> & Hin).
  by eapply Hwf.
Qed.

Lemma bfs_init_parents d c : bfs_parents (bfs_init d) !!! c = [].
Proof.
  unfold bfs_init; simpl. rewrite (const_fmap _ _ (@nil node)) by done.
  rewrite list_lookup_total_alt.
  destruct (replicate _ _ !! c) eqn:Hc; [|done].
  by apply lookup_replicate in Hc as [-> _].
Qed.

Lemma bfs_init_inv d :
  source d < numberOfNodes (residualGraph d) →
  length (parents d) = numberOfNodes (residualGraph d) →
  bfs_inv (residualGraph d) (source d) (bfs_init d).
Proof.
  intros Hs Hlen. pose proof (bfs_init_parents d) as Hnil. unfold bfs_init in *.
  simpl in Hnil. split; simpl.
  - by rewrite length_insert, length_replicate.
  - by rewrite length_fmap.
  - intros c Hc. rewrite list_lookup_total_insert, length_replicate.
    case_decide; [lia|]. rewrite lookup_total_replicate_2 by done. lia.
  - by rewrite list_lookup_total_insert_eq by (by rewrite length_replicate).
  - intros c Hc. rewrite list_lookup_total_insert, length_replicate.
    case_decide as H; [by destruct H|].
    rewrite lookup_total_replicate_2 by done. done.
  - intros x ->%list_elem_of_singleton. split; [done|].
    by rewrite list_lookup_total_insert_eq by (by rewrite length_replicate).
  - intros c p _. rewrite Hnil. by intros ?%elem_of_nil.
  - intros c Hc. rewrite list_lookup_total_insert, length_replicate.
    case_decide; [lia|]. rewrite lookup_total_replicate_2 by done. lia.
  - intros c _ _. apply Hnil.
Qed.

Lemma visitChild_inv g s st p c :
  bfs_inv g s st → p < numberOfNodes g → (0 ≤ bfs_level st !!! p)%Z →
  c < numberOfNodes g →
  bfs_inv g s (visitChild g p st c).
Proof.
  intros [Hll Hlp Hge Hs H0 Hq Hpar Hhas Hun] Hp Hlevp Hc.
  unfold visitChild.
  destruct (isPositive (weight g p c)) eqn:Hpos; [|done].
  destruct (Z.eqb_spec (bfs_level st !!! c) (-1)) as [Hc1|Hc1].
  - (* the child is reached for the first time *)
    assert (∀ x, (0 ≤ bfs_level st !!! x)%Z →
                 <[c:=(bfs_level st !!! p + 1)%Z]> (bfs_level st) !!! x = bfs_level st !!! x)
      as Hkeep.
    { intros x Hx. apply list_lookup_total_insert_ne. intros ->. lia. }
    split; simpl.
    + by rewrite length_insert.
    + by rewrite length_alter.
    + intros x Hx. destruct (decide (x = c)) as [->|Hne].
      * rewrite list_lookup_total_insert_eq by lia. lia.
      * rewrite list_lookup_total_insert_ne by done. auto.
    + rewrite Hkeep; [done | lia].
    + intros x Hx. destruct (decide (x = c)) as [->|Hne].
      * rewrite list_lookup_total_insert_eq by lia. lia.
      * rewrite list_lookup_total_insert_ne by done. auto.
    + intros x [Hx| ->%list_elem_of_singleton]%elem_of_app.
      * destruct (Hq x Hx) as [? ?]. by rewrite Hkeep.
      * rewrite list_lookup_total_insert_eq by lia. split; [done | lia].
    + intros x q Hx. destruct (decide (x = c)) as [->|Hne].
      * rewrite list_lookup_total_alter_eq by lia.
        rewrite (Hun c Hc Hc1). simpl. intros ->%list_elem_of_singleton.
        rewrite list_lookup_total_insert_eq by lia.
        rewrite Hkeep by done. done.
      * rewrite list_lookup_total_alter_ne by done. intros Hin.
        destruct (Hpar x q Hx Hin) as (? & ? & ? & ?).
        rewrite Hkeep by done.
        rewrite list_lookup_total_insert_ne by done. done.
    + intros x Hx. destruct (decide (x = c)) as [->|Hne].
      * rewrite list_lookup_total_alter_eq by lia. intros _.
        by destruct (bfs_parents st !!! c).
      * rewrite list_lookup_total_alter_ne, list_lookup_total_insert_ne by done.
        auto.
    + intros x Hx. destruct (decide (x = c)) as [->|Hne].
      * rewrite list_lookup_total_insert_eq by lia. lia.
      * rewrite list_lookup_total_alter_ne, list_lookup_total_insert_ne by done.
        auto.
  - destruct (Z.eqb_spec (bfs_level st !!! c) (bfs_level st !!! p + 1)) as [Hc2|Hc2];
      [|done].
    (* the child was reached over a path of the same length *)
    split; simpl; try done.
    + by rewrite length_alter.
    + intros x q Hx. destruct (decide (x = c)) as [->|Hne].
      * rewrite list_lookup_total_alter_eq by lia.
        intros [Hin| ->%list_elem_of_singleton]%elem_of_app; [auto | done].
      * rewrite list_lookup_total_alter_ne by done. auto.
    + intros x Hx. destruct (decide (x = c)) as [->|Hne].
      * rewrite list_lookup_total_alter_eq by lia. intros _.
        by destruct (bfs_parents st !!! c).
      * rewrite list_lookup_total_alter_ne by done. auto.
    + intros x Hx. destruct (decide (x = c)) as [->|Hne].
      * lia.
      * rewrite list_lookup_total_alter_ne by done. auto.
Qed.

(** A reached node stays reached with its level, and the queue only grows. *)
Lemma visitChild_keeps g p st c x :
  (0 ≤ bfs_level st !!! x)%Z →
  bfs_level (visitChild g p st c) !!! x = bfs_level st !!! x.
Proof.
  intros Hx. unfold visitChild.
  destruct (isPositive _); [|done].
  destruct (Z.eqb_spec (bfs_level st !!! c) (-1)) as [Hc1|Hc1]; simpl.
  - apply list_lookup_total_insert_ne. intros ->. lia.
  - by destruct (Z.eqb _ _).
Qed.

Lemma visitChild_queue g p st c x :
  x ∈ bfs_queue st → x ∈ bfs_queue (visitChild g p st c).
Proof.
  intros Hx. unfold visitChild.
  repeat match goal with |- context [if ?b then _ else _] => destruct b end;
    simpl; try done.
  apply elem_of_app. by left.
Qed.

Lemma visitChild_reaches g s p st c :
  bfs_inv g s st → (0 ≤ bfs_level st !!! p)%Z → c < numberOfNodes g →
  isPositive (weight g p c) = true →
  (0 ≤ bfs_level (visitChild g p st c) !!! c)%Z.
Proof.
  intros Hinv Hp Hc Hpos. unfold visitChild. rewrite Hpos.
  pose proof (bi_level_ge _ _ _ Hinv c Hc) as Hge.
  pose proof (bi_len_level _ _ _ Hinv) as Hlen.
  destruct (Z.eqb_spec (bfs_level st !!! c) (-1)) as [Hc1|Hc1]; simpl.
  - rewrite list_lookup_total_insert_eq by lia. lia.
  - destruct (Z.eqb _ _); simpl; lia.
Qed.

(** The [for] loop over the neighbours of [p]. *)
Lemma foldl_visitChild_inv g s p cs st :
  wfGraph g → bfs_inv g s st → p < numberOfNodes g → (0 ≤ bfs_level st !!! p)%Z →
  (∀ c, c ∈ cs → c < numberOfNodes g) →
  bfs_inv g s (foldl (visitChild g p) st cs) ∧
  (∀ x, (0 ≤ bfs_level st !!! x)%Z →
        bfs_level (foldl (visitChild g p) st cs) !!! x = bfs_level st !!! x) ∧
  (∀ x, x ∈ bfs_queue st → x ∈ bfs_queue (foldl (visitChild g p) st cs)) ∧
  (∀ c, c ∈ cs → isPositive (weight g p c) = true →
        (0 ≤ bfs_level (foldl (visitChild g p) st cs) !!! c)%Z).
Proof.
  intros Hwf. revert st.
  induction cs as [|c cs IH]; intros st Hinv Hp Hlevp Hcs; simpl.
  - split; [done|]. split; [done|]. split; [done|]. by intros c ?%elem_of_nil.
  - assert (c < numberOfNodes g) as Hc by (apply Hcs; left).
    pose proof (visitChild_inv g s st p c Hinv Hp Hlevp Hc) as Hinv'.
    destruct (IH (visitChild g p st c)) as (IH1 & IH2 & IH3 & IH4).
    { done. }
    { done. }
    { by rewrite visitChild_keeps. }
    { intros c' Hc'. apply Hcs. by right. }
    split; [done|]. split; [|split].
    + intros x Hx. rewrite IH2 by (by rewrite visitChild_keeps).
      by apply visitChild_keeps.
    + intros x Hx. by apply IH3, visitChild_queue.
    + intros c' [->|Hc']%elem_of_cons Hpos; [|by apply IH4].
      pose proof (visitChild_reaches g s p st c Hinv Hlevp Hc Hpos) as Hr.
      by rewrite IH2.
Qed.

(** A node that becomes reached is put on the queue. *)
Lemma visitChild_new g p st c x :
  (0 ≤ bfs_level (visitChild g p st c) !!! x)%Z →
  (0 ≤ bfs_level st !!! x)%Z ∨ x ∈ bfs_queue (visitChild g p st c).
Proof.
  unfold visitChild.
  destruct (isPositive _); [|by left].
  destruct (Z.eqb_spec (bfs_level st !!! c) (-1)) as [Hc1|Hc1]; simpl.
  - destruct (decide (x = c)) as [->|Hne].
    + intros _. right. apply elem_of_app. right. left.
    + rewrite list_lookup_total_insert_ne by done. by left.
  - destruct (Z.eqb _ _); by left.
Qed.

Lemma foldl_visitChild_new g p cs st x :
  (0 ≤ bfs_level (foldl (visitChild g p) st cs) !!! x)%Z →
  (0 ≤ bfs_level st !!! x)%Z ∨ x ∈ bfs_queue (foldl (visitChild g p) st cs).
Proof.
  revert st. induction cs as [|c cs IH]; intros st; simpl; [by left|].
  intros [H|H]%IH; [|by right].
  apply visitChild_new in H as [H|H]; [by left|].
  right. clear IH. revert H. generalize (visitChild g p st c).
  induction cs as [|c' cs IH]; intros st' H; simpl; [done|].
  by apply IH, visitChild_queue.
Qed.

Lemma unreached_insert level c x :
  c < length level → level !!! c = (-1)%Z → x ≠ (-1)%Z →
  S (unreached (<[c:=x]> level)) = unreached level.
Proof.
  unfold unreached. revert c.
  induction level as [|l level IH]; intros c Hc Hl Hx; simpl in *; [lia|].
  destruct c as [|c]; simpl in *.
  - subst l. rewrite !filter_cons.
    rewrite decide_False, decide_True by done. done.
  - rewrite !filter_cons. destruct (decide (l = (-1)%Z)); simpl.
    + f_equal. apply IH; [lia | done | done].
    + apply IH; [lia | done | done].
Qed.

Lemma unreached_replicate n : unreached (replicate n (-1)%Z) = n.
Proof.
  unfold unreached. induction n as [|n IH]; [done|].
  change (replicate (S n) (-1)%Z) with ((-1)%Z :: replicate n (-1)%Z).
  rewrite filter_cons, decide_True by done. simpl. by f_equal.
Qed.

Lemma visitChild_measure g s p st c :
  bfs_inv g s st → (0 ≤ bfs_level st !!! p)%Z → c < numberOfNodes g →
  unreached (bfs_level (visitChild g p st c)) + length (bfs_queue (visitChild g p st c)) =
    unreached (bfs_level st) + length (bfs_queue st).
Proof.
  intros Hinv Hp Hc. unfold visitChild.
  destruct (isPositive _); [|done].
  destruct (Z.eqb_spec (bfs_level st !!! c) (-1)) as [Hc1|Hc1]; simpl.
  - rewrite length_app. simpl.
    rewrite <- (unreached_insert (bfs_level st) c (bfs_level st !!! p + 1)%Z);
      [lia | | done | lia].
    by rewrite (bi_len_level _ _ _ Hinv).
  - by destruct (Z.eqb _ _).
Qed.

Lemma foldl_visitChild_measure g s p cs st :
  bfs_inv g s st → p < numberOfNodes g → (0 ≤ bfs_level st !!! p)%Z →
  (∀ c, c ∈ cs → c < numberOfNodes g) →
  unreached (bfs_level (foldl (visitChild g p) st cs)) +
    length (bfs_queue (foldl (visitChild g p) st cs)) =
    unreached (bfs_level st) + length (bfs_queue st).
Proof.
  revert st. induction cs as [|c cs IH]; intros st Hinv Hp Hlevp Hcs; simpl; [done|].
  assert (c < numberOfNodes g) as Hc by (apply Hcs; left).
  rewrite IH.
  - by eapply visitChild_measure.
  - by apply visitChild_inv.
  - done.
  - by rewrite visitChild_keeps.
  - intros c' Hc'. apply Hcs. by right.
Qed.

Lemma bfs_inv_dequeue g s level ps p q :
  bfs_inv g s (mkBfs level ps (p :: q)) → bfs_inv g s (mkBfs level ps q).
Proof.
  intros [Hll Hlp Hge Hs H0 Hq Hpar Hhas Hun]. split; simpl in *; try done.
  intros x Hx. apply Hq. by right.
Qed.

(** The search ends within as many rounds as there are unreached and queued
    nodes, in a state that satisfies the invariant and is closed. *)
Lemma bfs_loop_spec g s fuel st :
  wfGraph g → bfs_inv g s st → bfs_closed g (bfs_queue st) st →
  bfs_queue st ≠ [] →
  unreached (bfs_level st) + length (bfs_queue st) ≤ fuel →
  ∃ st', bfs_loop fuel g st = Some st' ∧ bfs_inv g s st' ∧ bfs_closed g [] st' ∧
         (∀ x, (0 ≤ bfs_level st !!! x)%Z → bfs_level st' !!! x = bfs_level st !!! x).
Proof.
  intros Hwf. revert st.
  induction fuel as [|fuel IH]; intros st Hinv Hclosed Hne Hfuel.
  { destruct (bfs_queue st); [done | simpl in Hfuel; lia]. }
  destruct st as [level ps queue]. simpl in *.
  destruct queue as [|p q]; [done|]. clear Hne.
  destruct (bi_queue _ _ _ Hinv p) as [Hp Hlevp]; [left|]. simpl in *.
  pose proof (bfs_inv_dequeue _ _ _ _ _ _ Hinv) as Hinv0.
  assert (∀ c, c ∈ neighborRange g p → c < numberOfNodes g) as Hcs.
  { intros c Hc. by eapply neighborRange_lt. }
  destruct (foldl_visitChild_inv g s p (neighborRange g p) (mkBfs level ps q)
              Hwf Hinv0 Hp Hlevp Hcs) as (Hinv1 & Hkeep & Hqueue & Hreach).
  pose proof (foldl_visitChild_measure g s p (neighborRange g p) (mkBfs level ps q)
                Hinv0 Hp Hlevp Hcs) as Hmeasure.
  pose proof (foldl_visitChild_new g p (neighborRange g p) (mkBfs level ps q)) as Hnew.
  simpl in *.
  set (st1 := foldl (visitChild g p) (mkBfs level ps q) (neighborRange g p)) in *.
  assert (bfs_closed g (bfs_queue st1) st1) as Hclosed1.
  { intros u v Hu Hlevu Hpos.
    destruct (Hnew u Hlevu) as [Hold|Hin]; [|by left].
    destruct (Hclosed u v Hu Hold Hpos) as [[->|Hin]%elem_of_cons|Hv].
    - right. apply Hreach; [|done].
      apply weight_nonzero_neighbor. apply isPositive_iff in Hpos. lra.
    - left. by apply Hqueue.
    - right. by rewrite Hkeep. }
  destruct (bfs_queue st1) as [|x q1] eqn:Hq1.
  - exists st1. split; [done|]. split; [done|]. split; [done|]. done.
  - destruct (IH st1) as (st' & Hloop & Hinv' & Hclosed' & Hkeep'); try done.
    + by rewrite Hq1.
    + by rewrite Hq1.
    + rewrite Hq1. simpl in *. lia.
    + exists st'. split; [done|]. split; [done|]. split; [done|].
      intros y Hy. rewrite Hkeep' by (by rewrite Hkeep). by apply Hkeep.
Qed.

Lemma canReach_spec fuel d :
  wfGraph (residualGraph d) →
  source d < numberOfNodes (residualGraph d) →
  length (parents d) = numberOfNodes (residualGraph d) →
  numberOfNodes (residualGraph d) ≤ fuel →
  ∃ st, bfs_loop fuel (residualGraph d) (bfs_init d) = Some st ∧
        bfs_inv (residualGraph d) (source d) st ∧
        bfs_closed (residualGraph d) [] st ∧
        canReachTargetInLevelGraph fuel d =
          Some (Z.ltb (-1) (bfs_level st !!! target d), set_parents d (bfs_parents st)).
Proof.
  intros Hwf Hs Hlen Hfuel.
  pose proof (bfs_init_inv d Hs Hlen) as Hinv.
  destruct (bfs_loop_spec (residualGraph d) (source d) fuel (bfs_init d))
    as (st & Hloop & Hinv' & Hclosed & _); try done.
  - intros u v Hu Hlevu _. left. unfold bfs_init in *; simpl in *.
    rewrite list_lookup_total_insert, length_replicate in Hlevu.
    case_decide as H; [destruct H as [-> _]; left|].
    rewrite lookup_total_replicate_2 in Hlevu by done. lia.
  - unfold bfs_init; simpl.
    pose proof (unreached_insert (replicate (numberOfNodes (residualGraph d)) (-1)%Z)
                  (source d) 0%Z) as H.
    rewrite length_replicate, unreached_replicate in H.
    rewrite lookup_total_replicate_2 in H by done.
    specialize (H Hs eq_refl). lia.
  - exists st. split; [done|]. split; [done|]. split; [done|].
    unfold canReachTargetInLevelGraph. by rewrite Hloop.
Qed.

Lemma visitChild_parents_grow g s p st c x q :
  bfs_inv g s st → c < numberOfNodes g →
  q ∈ bfs_parents st !!! x → q ∈ bfs_parents (visitChild g p st c) !!! x.
Proof.
  intros Hinv Hc Hq. pose proof (bi_len_parents _ _ _ Hinv) as Hlen.
  unfold visitChild.
  destruct (isPositive _); [|done].
  destruct (Z.eqb _ _); [|destruct (Z.eqb _ _); [|done]]; simpl;
    (destruct (decide (x = c)) as [->|Hne];
     [rewrite list_lookup_total_alter_eq by lia; apply elem_of_app; by left
     |by rewrite list_lookup_total_alter_ne by done]).
Qed.

Lemma visitChild_edge_ok_keep g s p st c u v :
  bfs_inv g s st → c < numberOfNodes g → (0 ≤ bfs_level st !!! u)%Z →
  bfs_edge_ok st u v → bfs_edge_ok (visitChild g p st c) u v.
Proof.
  intros Hinv Hc Hu [Hv Hpar]. unfold bfs_edge_ok.
  rewrite !visitChild_keeps by lia. split; [done|].
  intros H. eapply visitChild_parents_grow; eauto.
Qed.

Lemma visitChild_edge_ok_new g s L p st c :
  bfs_inv g s st → bfs_order g L st → bfs_level st !!! p = L → (0 ≤ L)%Z →
  c < numberOfNodes g → isPositive (weight g p c) = true →
  bfs_edge_ok (visitChild g p st c) p c.
Proof.
  intros Hinv [_ Hmax] Hp HL Hc Hpos.
  pose proof (bi_len_parents _ _ _ Hinv) as Hlen.
  pose proof (bi_len_level _ _ _ Hinv) as Hlen'.
  pose proof (bi_level_ge _ _ _ Hinv c Hc) as Hge.
  specialize (Hmax c Hc).
  unfold visitChild, bfs_edge_ok. rewrite Hpos.
  destruct (Z.eqb_spec (bfs_level st !!! c) (-1)) as [Hc1|Hc1]; simpl.
  - assert (p ≠ c) by (intros ->; lia).
    rewrite list_lookup_total_insert_eq by lia.
    rewrite list_lookup_total_insert_ne by done.
    split; [lia|]. intros _.
    rewrite list_lookup_total_alter_eq by lia.
    apply elem_of_app. right. left.
  - destruct (Z.eqb_spec (bfs_level st !!! c) (bfs_level st !!! p + 1)) as [Hc2|Hc2];
      simpl.
    + split; [lia|]. intros _.
      rewrite list_lookup_total_alter_eq by lia.
      apply elem_of_app. right. left.
    + split; [lia|]. intros H. lia.
Qed.

Lemma visitChild_order g s L p st c :
  bfs_inv g s st → bfs_order g L st → bfs_level st !!! p = L → (0 ≤ L)%Z →
  c < numberOfNodes g →
  bfs_order g L (visitChild g p st c).
Proof.
  intros Hinv [(A & B & Hq & HA & HB) Hmax] Hp HL Hc.
  pose proof (bi_len_level _ _ _ Hinv) as Hlen.
  unfold visitChild.
  destruct (isPositive _); [|by split; [exists A, B|]].
  destruct (Z.eqb_spec (bfs_level st !!! c) (-1)) as [Hc1|Hc1]; simpl.
  - split; simpl.
    + exists A, (B ++ [c]). rewrite Hq, app_assoc. split; [done|]. split.
      * intros x Hx. rewrite list_lookup_total_insert_ne; [by apply HA|].
        intros ->. specialize (HA _ Hx). lia.
      * intros x [Hx| ->%list_elem_of_singleton]%elem_of_app.
        -- rewrite list_lookup_total_insert_ne; [by apply HB|].
           intros ->. specialize (HB _ Hx). lia.
        -- rewrite list_lookup_total_insert_eq by lia. lia.
    + intros x Hx. destruct (decide (x = c)) as [->|Hne].
      * rewrite list_lookup_total_insert_eq by lia. lia.
      * rewrite list_lookup_total_insert_ne by done. auto.
  - destruct (Z.eqb _ _); by split; [exists A, B|].
Qed.

Lemma visitChild_tight g s p st c :
  bfs_inv g s st → c < numberOfNodes g →
  bfs_tight g (p :: bfs_queue st) st →
  bfs_tight g (p :: bfs_queue (visitChild g p st c)) (visitChild g p st c).
Proof.
  intros Hinv Hc Htight u v Hu Hlev Hpos.
  destruct (visitChild_new g p st c u Hlev) as [Hold|Hin].
  - destruct (Htight u v Hu Hold Hpos) as [[->|Hin]%elem_of_cons|Hok].
    + left. left.
    + left. right. by apply visitChild_queue.
    + right. by eapply visitChild_edge_ok_keep.
  - left. by right.
Qed.

Lemma foldl_visitChild_tight g s L p cs st :
  bfs_inv g s st → bfs_order g L st → bfs_level st !!! p = L → (0 ≤ L)%Z →
  p < numberOfNodes g → (∀ c, c ∈ cs → c < numberOfNodes g) →
  bfs_tight g (p :: bfs_queue st) st →
  bfs_order g L (foldl (visitChild g p) st cs) ∧
  bfs_tight g (p :: bfs_queue (foldl (visitChild g p) st cs))
            (foldl (visitChild g p) st cs) ∧
  (∀ c, c ∈ cs → isPositive (weight g p c) = true →
        bfs_edge_ok (foldl (visitChild g p) st cs) p c).
Proof.
  revert st. induction cs as [|c cs IH]; intros st Hinv Hord Hp HL Hpn Hcs Htight.
  { simpl. split; [done|]. split; [done|]. by intros c ?%elem_of_nil. }
  assert (c < numberOfNodes g) as Hc by (apply Hcs; left).
  assert (0 ≤ bfs_level st !!! p)%Z as Hlevp by lia.
  pose proof (visitChild_inv g s st p c Hinv Hpn Hlevp Hc) as Hinv'.
  assert (bfs_level (visitChild g p st c) !!! p = L) as Hp'
    by (by rewrite visitChild_keeps).
  destruct (IH (visitChild g p st c)) as (IH1 & IH2 & IH3); try done.
  { by eapply visitChild_order. }
  { intros c' Hc'. apply Hcs. by right. }
  { by eapply visitChild_tight. }
  simpl. split; [done|]. split; [done|].
  intros c' [->|Hc']%elem_of_cons Hpos; [|by apply IH3].
  pose proof (visitChild_edge_ok_new g s L p st c Hinv Hord Hp HL Hc Hpos) as Hok.
  clear IH IH1 IH2 IH3 Htight Hord.
  assert (∀ c', c' ∈ cs → c' < numberOfNodes g) as Hcs'
    by (intros c' Hc'; apply Hcs; by right).
  clear Hcs. revert Hinv' Hp' Hok. generalize (visitChild g p st c). clear Hinv Hp.
  induction cs as [|c' cs IH]; intros st' Hinv' Hp' Hok; simpl; [done|].
  assert (c' < numberOfNodes g) as Hc' by (apply Hcs'; left).
  apply IH.
  - intros x Hx. apply Hcs'. by right.
  - apply visitChild_inv; try done. lia.
  - by rewrite visitChild_keeps by lia.
  - eapply visitChild_edge_ok_keep; eauto. lia.
Qed.

Lemma bfs_loop_tight g s fuel st st' :
  wfGraph g → bfs_inv g s st → (∃ L, bfs_order g L st) →
  bfs_tight g (bfs_queue st) st →
  bfs_loop fuel g st = Some st' → bfs_tight g [] st'.
Proof.
  intros Hwf. revert st.
  induction fuel as [|fuel IH]; intros st Hinv [L Hord] Htight Hloop; [done|].
  destruct st as [level ps queue]. simpl in *.
  destruct queue as [|p q]; [done|].
  destruct (bi_queue _ _ _ Hinv p) as [Hp Hlevp]; [left|]. simpl in *.
  pose proof (bfs_inv_dequeue _ _ _ _ _ _ Hinv) as Hinv0.
  assert (∀ c, c ∈ neighborRange g p → c < numberOfNodes g) as Hcs.
  { intros c Hc. by eapply neighborRange_lt. }
  assert (bfs_order g (level !!! p) (mkBfs level ps q)) as Hord0.
  { destruct Hord as [(A & B & Hq & HA & HB) Hmax]. simpl in *.
    destruct A as [|a A].
    - destruct B as [|b B]; [done|]. injection Hq as <- <-.
      assert (level !!! p = (L + 1)%Z) as HpL by (apply HB; left).
      split; simpl.
      + exists q, []. rewrite app_nil_r. split; [done|]. split.
        * intros x Hx. rewrite HpL. apply HB. by right.
        * by intros x ?%elem_of_nil.
      + intros x Hx. specialize (Hmax x Hx). lia.
    - injection Hq as <- ->.
      assert (level !!! p = L) as HpL by (apply HA; left).
      split; simpl.
      + exists A, B. split; [done|]. split.
        * intros x Hx. rewrite HpL. apply HA. by right.
        * intros x Hx. rewrite HpL. by apply HB.
      + intros x Hx. rewrite HpL. by apply Hmax. }
  destruct (foldl_visitChild_tight g s (level !!! p) p (neighborRange g p)
              (mkBfs level ps q)) as (Hord1 & Htight1 & Hok); try done.
  destruct (foldl_visitChild_inv g s p (neighborRange g p) (mkBfs level ps q)
              Hwf Hinv0 Hp Hlevp Hcs) as (Hinv1 & Hkeep & _ & _).
  simpl in *.
  set (st1 := foldl (visitChild g p) (mkBfs level ps q) (neighborRange g p)) in *.
  assert (bfs_tight g (bfs_queue st1) st1) as Htight'.
  { intros u v Hu Hlevu Hpos.
    destruct (Htight1 u v Hu Hlevu Hpos) as [[->|Hin]%elem_of_cons|Hok'];
      [|by left|by right].
    right. apply Hok; [|done].
    apply weight_nonzero_neighbor. apply isPositive_iff in Hpos. lra. }
  destruct (bfs_queue st1) as [|x q1] eqn:Hq1.
  - by injection Hloop as <-.
  - apply (IH st1); try done.
    + by exists (level !!! p).
    + by rewrite Hq1.
Qed.

Lemma bfs_init_order d :
  source d < numberOfNodes (residualGraph d) →
  bfs_order (residualGraph d) 0 (bfs_init d).
Proof.
  intros Hs. unfold bfs_init. split; simpl.
  - exists [source d], []. split; [done|]. split; [|by intros x ?%elem_of_nil].
    intros x ->%list_elem_of_singleton.
    by rewrite list_lookup_total_insert_eq by (by rewrite length_replicate).
  - intros x Hx. rewrite list_lookup_total_insert, length_replicate.
    case_decide; [lia|]. rewrite lookup_total_replicate_2 by done. lia.
Qed.

Lemma bfs_init_tight d :
  bfs_tight (residualGraph d) [source d] (bfs_init d).
Proof.
  intros u v Hu Hlevu _. left. unfold bfs_init in *; simpl in *.
  rewrite list_lookup_total_insert, length_replicate in Hlevu.
  case_decide as H; [destruct H as [-> _]; left|].
  rewrite lookup_total_replicate_2 in Hlevu by done. lia.
Qed.

(** The search, with fuel for one round per node, ends in a state that
    satisfies the invariant and has dealt with every edge of positive
    capacity out of a reached node. *)
Lemma canReach_tight fuel d :
  wfGraph (residualGraph d) →
  source d < numberOfNodes (residualGraph d) →
  length (parents d) = numberOfNodes (residualGraph d) →
  numberOfNodes (residualGraph d) ≤ fuel →
  ∃ st, bfs_inv (residualGraph d) (source d) st ∧
        bfs_tight (residualGraph d) [] st ∧
        canReachTargetInLevelGraph fuel d =
          Some (Z.ltb (-1) (bfs_level st !!! target d), set_parents d (bfs_parents st)).
Proof.
  intros Hwf Hs Hlen Hfuel.
  destruct (canReach_spec fuel d Hwf Hs Hlen Hfuel) as (st & Hloop & Hinv & _ & Hres).
  exists st. split; [done|]. split; [|done].
  apply (bfs_loop_tight _ (source d) _ _ _ Hwf (bfs_init_inv d Hs Hlen)) in Hloop;
    [done | | apply bfs_init_tight].
  exists 0%Z. by apply bfs_init_order.
Qed.

Lemma walkTo_lt g s k v :
  wfGraph g → s < numberOfNodes g → walkTo g s k v → v < numberOfNodes g.
Proof.
  intros Hwf Hs. induction 1 as [|k u v _ _ Hw]; [done|].
  eapply neighborRange_lt; [done|].
  apply (weight_nonzero_neighbor g u v). lra.
Qed.

Lemma walkTo_level g s st k v :
  wfGraph g → bfs_inv g s st → bfs_tight g [] st → s < numberOfNodes g →
  walkTo g s k v → (0 ≤ bfs_level st !!! v ≤ Z.of_nat k)%Z.
Proof.
  intros Hwf Hinv Htight Hs.
  induction 1 as [|k u v Hwalk IH Hw].
  - rewrite (bi_source _ _ _ Hinv). lia.
  - destruct (Htight u v) as [Hin|[Hv _]].
    + apply (weight_nonzero_neighbor g u v). lra.
    + lia.
    + by apply isPositive_iff.
    + by apply elem_of_nil in Hin.
    + lia.
Qed.

Lemma level_walkTo g s st k v :
  bfs_inv g s st → v < numberOfNodes g → bfs_level st !!! v = Z.of_nat k →
  walkTo g s k v.
Proof.
  intros Hinv. revert v. induction k as [|k IH]; intros v Hv Hlev.
  - rewrite (bi_level0 _ _ _ Hinv v Hv Hlev). constructor.
  - destruct (bfs_parents st !!! v) as [|p l] eqn:Hps.
    { destruct (bi_has_parent _ _ _ Hinv v Hv); [lia | done]. }
    destruct (bi_parents _ _ _ Hinv v p Hv) as (Hp & Hpos & Hlp & Hlev').
    { rewrite Hps. left. }
    apply (walkTo_S g s k p v); [apply IH; [done | lia]|].
    by apply isPositive_iff.
Qed.

Lemma level_distance g s st v :
  wfGraph g → bfs_inv g s st → bfs_tight g [] st → s < numberOfNodes g →
  v < numberOfNodes g → (0 ≤ bfs_level st !!! v)%Z →
  distance g s v (Z.to_nat (bfs_level st !!! v)).
Proof.
  intros Hwf Hinv Htight Hs Hv Hlev. split.
  - apply (level_walkTo g s st); [done | done | lia].
  - intros j Hj. pose proof (walkTo_level g s st j v Hwf Hinv Htight Hs Hj). lia.
Qed.

Lemma distance_unique g s v k1 k2 :
  distance g s v k1 → distance g s v k2 → k1 = k2.
Proof.
  intros [Hw1 Hmin1] [Hw2 Hmin2].
  pose proof (Hmin1 _ Hw2). pose proof (Hmin2 _ Hw1). lia.
Qed.

Lemma bfs_loop_queue fuel g st st' :
  bfs_loop fuel g st = Some st' → bfs_queue st' = [].
Proof.
  revert st. induction fuel as [|fuel IH]; intros st; simpl; [done|].
  destruct (bfs_queue st) as [|p q]; [done|].
  destruct (bfs_queue (foldl _ _ _)) eqn:Hq; [|apply IH].
  by intros [= <-].
Qed.

(** C6: the search starts with level 0 at the source, every other node
    unreached, no predecessor recorded and the source alone in the queue.
    For a frontier node [parent] and a neighbour [child] over an edge of
    strictly positive residual capacity: an unreached child gets the level of
    [parent] plus one, [parent] as its only predecessor, and is appended to
    the queue; a child already at the level of [parent] plus one gets
    [parent] appended to its predecessors, the levels and the queue staying
    as they are; in every other case nothing changes.  A round of the loop
    takes the front node off the queue and applies this rule to its
    neighbours in turn, among them every node it has an edge of positive
    capacity to, and the loop goes on while the queue is not empty.  With
    fuel for one round per node the search ends with an empty queue; then
    every edge of positive capacity that leaves a reached node has been
    dealt with: its head is reached, at most one level above its tail, and
    has the tail among its predecessors when it is exactly one level above.
    The search returns [true] exactly when the level of the target is not
    the marker -1. *)
Theorem canReachTargetInLevelGraph_search (d : Dinic) (fuel : nat) :
  wfGraph (residualGraph d) →
  source d < numberOfNodes (residualGraph d) →
  target d < numberOfNodes (residualGraph d) →
  length (parents d) = numberOfNodes (residualGraph d) →
  numberOfNodes (residualGraph d) ≤ fuel →
  (bfs_level (bfs_init d) !!! source d = 0%Z ∧
   (∀ c, c < numberOfNodes (residualGraph d) → c ≠ source d →
         bfs_level (bfs_init d) !!! c = (-1)%Z) ∧
   (∀ c, bfs_parents (bfs_init d) !!! c = []) ∧
   bfs_queue (bfs_init d) = [source d] ∧
   bfs_inv (residualGraph d) (source d) (bfs_init d)) ∧
  (∀ st parent child,
      bfs_inv (residualGraph d) (source d) st →
      parent < numberOfNodes (residualGraph d) →
      (0 ≤ bfs_level st !!! parent)%Z →
      child < numberOfNodes (residualGraph d) →
      bfs_inv (residualGraph d) (source d) (visitChild (residualGraph d) parent st child) ∧
      ((0 < weight (residualGraph d) parent child)%Q →
       bfs_level st !!! child = (-1)%Z →
       bfs_level (visitChild (residualGraph d) parent st child) =
         <[child := (bfs_level st !!! parent + 1)%Z]> (bfs_level st) ∧
       bfs_level (visitChild (residualGraph d) parent st child) !!! child =
         (bfs_level st !!! parent + 1)%Z ∧
       bfs_parents (visitChild (residualGraph d) parent st child) !!! child = [parent] ∧
       bfs_queue (visitChild (residualGraph d) parent st child) = bfs_queue st ++ [child]) ∧
      ((0 < weight (residualGraph d) parent child)%Q →
       bfs_level st !!! child = (bfs_level st !!! parent + 1)%Z →
       bfs_level (visitChild (residualGraph d) parent st child) = bfs_level st ∧
       bfs_parents (visitChild (residualGraph d) parent st child) !!! child =
         bfs_parents st !!! child ++ [parent] ∧
       bfs_queue (visitChild (residualGraph d) parent st child) = bfs_queue st) ∧
      (¬ (0 < weight (residualGraph d) parent child)%Q ∨
       (bfs_level st !!! child ≠ (-1)%Z ∧
        bfs_level st !!! child ≠ (bfs_level st !!! parent + 1)%Z) →
       visitChild (residualGraph d) parent st child = st)) ∧
  (∀ fuel' st parent queue',
      bfs_queue st = parent :: queue' →
      (∀ child, (0 < weight (residualGraph d) parent child)%Q →
                child ∈ neighborRange (residualGraph d) parent) ∧
      bfs_loop (S fuel') (residualGraph d) st =
        (let st' := foldl (visitChild (residualGraph d) parent)
                          (mkBfs (bfs_level st) (bfs_parents st) queue')
                          (neighborRange (residualGraph d) parent) in
         if nonempty (bfs_queue st')
         then bfs_loop fuel' (residualGraph d) st' else Some st')) ∧
  ∃ st, bfs_loop fuel (residualGraph d) (bfs_init d) = Some st ∧
        bfs_inv (residualGraph d) (source d) st ∧
        bfs_queue st = [] ∧
        (∀ u v, u < numberOfNodes (residualGraph d) →
                (0 ≤ bfs_level st !!! u)%Z →
                (0 < weight (residualGraph d) u v)%Q →
                (0 ≤ bfs_level st !!! v ≤ bfs_level st !!! u + 1)%Z ∧
                (bfs_level st !!! v = (bfs_level st !!! u + 1)%Z →
                 u ∈ bfs_parents st !!! v)) ∧
        canReachTargetInLevelGraph fuel d =
          Some (bool_decide (bfs_level st !!! target d ≠ (-1)%Z),
                set_parents d (bfs_parents st)).
Proof.
  intros Hwf Hs Ht Hlen Hfuel.
  pose proof (bfs_init_inv d Hs Hlen) as Hinit.
  split; [|split; [|split]].
  - split; [apply (bi_source _ _ _ Hinit)|].
    split.
    { intros c Hc Hne. unfold bfs_init; simpl.
      rewrite list_lookup_total_insert_ne by done.
      by rewrite lookup_total_replicate_2. }
    split; [apply bfs_init_parents|].
    done.
  - intros st parent child Hinv Hp Hlevp Hc.
    split; [by apply visitChild_inv|].
    pose proof (bi_len_level _ _ _ Hinv) as Hll.
    pose proof (bi_len_parents _ _ _ Hinv) as Hlp.
    split; [|split].
    + intros Hpos%isPositive_iff Hc1. unfold visitChild. rewrite Hpos, Hc1. simpl.
      split; [done|].
      rewrite list_lookup_total_insert_eq by lia.
      rewrite list_lookup_total_alter_eq by lia.
      by rewrite (bi_unreached _ _ _ Hinv child Hc Hc1).
    + intros Hpos%isPositive_iff Hc2. unfold visitChild. rewrite Hpos.
      destruct (Z.eqb_spec (bfs_level st !!! child) (-1)) as [Hc1|Hc1]; [lia|].
      rewrite (proj2 (Z.eqb_eq _ _) Hc2). simpl.
      by rewrite list_lookup_total_alter_eq by lia.
    + intros Hcase. unfold visitChild.
      destruct (isPositive _) eqn:Hpos; [|done].
      apply isPositive_iff in Hpos. destruct Hcase as [Hn|[Hn1 Hn2]]; [done|].
      destruct (Z.eqb_spec (bfs_level st !!! child) (-1)); [done|].
      by destruct (Z.eqb_spec (bfs_level st !!! child) (bfs_level st !!! parent + 1)).
  - intros fuel' st parent queue' Hq. split.
    + intros child Hpos.
      apply (weight_nonzero_neighbor (residualGraph d) parent child). lra.
    + cbn [bfs_loop]. rewrite Hq. cbv zeta.
      by destruct (bfs_queue (foldl _ _ _)).
  - destruct (canReach_tight fuel d Hwf Hs Hlen Hfuel)
      as (st' & _ & Htight & Hres').
    destruct (canReach_spec fuel d Hwf Hs Hlen Hfuel) as (st & Hloop & Hinv & _ & Hres).
    exists st. split; [done|]. split; [done|].
    split; [by eapply bfs_loop_queue|].
    split.
    { apply (bfs_loop_tight _ (source d) _ _ _ Hwf Hinit) in Hloop;
        [| exists 0%Z; by apply bfs_init_order | apply bfs_init_tight].
      intros u v Hu Hlev Hpos.
      destruct (Hloop u v Hu Hlev) as [Hin|Hok]; [by apply isPositive_iff | |done].
      by apply elem_of_nil in Hin. }
    rewrite Hres. do 2 f_equal.
    pose proof (bi_level_ge _ _ _ Hinv (target d) Ht).
    destruct (Z.ltb_spec (-1) (bfs_level st !!! target d)).
    + by rewrite bool_decide_eq_true_2 by lia.
    + by rewrite bool_decide_eq_false_2 by lia.
Qed.

(** ** Saturating one edge *)

Lemma elem_of_adjSetWeight adj v w e :
  e ∈ adjSetWeight adj v w → e ∈ adj ∨ e = (v, w).
Proof.
  induction adj as [|[x w0] adj IH]; simpl; [by left|].
  destruct (Nat.eqb_spec x v) as [->|Hne].
  - intros [->|Hin]%elem_of_cons; [by right | left; by right].
  - intros [->|Hin]%elem_of_cons; [left; left|].
    destruct (IH Hin) as [?|?]; [left; by right | by right].
Qed.

Lemma elem_of_addEdge g u v w x e :
  e ∈ outEdges (addEdge g u v w) !!! x →
  e ∈ outEdges g !!! x ∨ (x = u ∧ e = (v, w)).
Proof.
  unfold addEdge; simpl. rewrite list_lookup_total_alter.
  case_decide as H; [|by left]. destruct H as [-> _].
  intros [Hin| ->%list_elem_of_singleton]%elem_of_app; [by left | by right].
Qed.

Lemma elem_of_setWeight g u v w x e :
  e ∈ outEdges (setWeight g u v w) !!! x →
  e ∈ outEdges g !!! x ∨ (x = u ∧ e = (v, w)).
Proof.
  unfold setWeight. destruct (hasEdge g u v); [|apply elem_of_addEdge].
  simpl. rewrite list_lookup_total_alter.
  case_decide as H; [|by left]. destruct H as [-> _].
  intros [Hin| ->]%elem_of_adjSetWeight; [by left | by right].
Qed.

Lemma wfGraph_setWeight g u v w :
  wfGraph g → v < numberOfNodes g → wfGraph (setWeight g u v w).
Proof.
  intros Hwf Hv x y w' [Hin|[-> [= -> ->]]]%elem_of_setWeight;
    rewrite numberOfNodes_setWeight; [by eapply Hwf | done].
Qed.

Lemma wfGraph_addEdge g u v w :
  wfGraph g → v < numberOfNodes g → wfGraph (addEdge g u v w).
Proof.
  intros Hwf Hv x y w' [Hin|[-> [= -> ->]]]%elem_of_addEdge;
    rewrite numberOfNodes_addEdge; [by eapply Hwf | done].
Qed.

Lemma nonnegGraph_setWeight g u v w :
  nonnegGraph g → (0 <= w)%Q → nonnegGraph (setWeight g u v w).
Proof.
  intros Hnn Hw x y w' [Hin|[-> [= -> ->]]]%elem_of_setWeight;
    [by eapply Hnn | done].
Qed.

Lemma nonnegGraph_addEdge g u v w :
  nonnegGraph g → (0 <= w)%Q → nonnegGraph (addEdge g u v w).
Proof.
  intros Hnn Hw x y w' [Hin|[-> [= -> ->]]]%elem_of_addEdge;
    [by eapply Hnn | done].
Qed.

Lemma nonnegGraph_weight g u v : nonnegGraph g → (0 <= weight g u v)%Q.
Proof.
  intros Hnn. unfold weight.
  destruct (adjWeight (outEdges g !!! u) v) as [w|] eqn:Hw; [|done].
  apply adjWeight_Some_elem in Hw. by eapply Hnn.
Qed.

Lemma hasEdge_addEdge g u v w x y :
  u < numberOfNodes g →
  hasEdge (addEdge g u v w) x y =
    if decide (x = u ∧ y = v) then true else hasEdge g x y.
Proof.
  unfold numberOfNodes, hasEdge, addEdge; simpl. intros Hu.
  rewrite list_lookup_total_alter.
  destruct (decide (u = x ∧ u < length (outEdges g))) as [[-> _]|Hn].
  - rewrite adjWeight_snoc.
    destruct (adjWeight (outEdges g !!! x) y) eqn:Hy.
    + by case_decide.
    + destruct (Nat.eqb_spec v y) as [->|Hne].
      * by rewrite decide_True.
      * by rewrite decide_False by intuition (subst; eauto).
  - rewrite decide_False by intuition (subst; eauto). done.
Qed.

Lemma hasEdge_setWeight g u v w x y :
  u < numberOfNodes g →
  hasEdge (setWeight g u v w) x y =
    if decide (x = u ∧ y = v) then true else hasEdge g x y.
Proof.
  intros Hu. unfold setWeight. destruct (hasEdge g u v) eqn:Hh.
  - unfold numberOfNodes, hasEdge in *; simpl.
    rewrite list_lookup_total_alter.
    destruct (decide (u = x ∧ u < length (outEdges g))) as [[-> _]|Hn].
    + destruct (decide (y = v)) as [->|Hne].
      * rewrite decide_True by done. rewrite adjWeight_set_eq; [done|].
        destruct (adjWeight (outEdges g !!! x) v); [by eexists | done].
      * rewrite adjWeight_set_ne, decide_False by intuition (subst; eauto). done.
    + rewrite decide_False by intuition (subst; eauto). done.
  - by apply hasEdge_addEdge.
Qed.

(** What [saturateEdge] stores for the reverse edge [c -> p]: the rounded
    sum, or the pushed amount when it has to insert the edge. *)
Lemma saturateEdge_graph b g ps p c :
  wfGraph g → nonnegGraph g →
  p < numberOfNodes g → c < numberOfNodes g → p ≠ c →
  (0 <= b)%Q → (b <= weight g p c)%Q →
  numberOfNodes (saturateEdge b (g, ps) p c).1 = numberOfNodes g ∧
  wfGraph (saturateEdge b (g, ps) p c).1 ∧
  nonnegGraph (saturateEdge b (g, ps) p c).1 ∧
  (∀ x y, weight (saturateEdge b (g, ps) p c).1 x y =
          if decide (x = p ∧ y = c) then fsub (weight g p c) b
          else if decide (x = c ∧ y = p)
               then (if hasEdge g c p then fadd (weight g c p) b else b)
               else weight g x y) ∧
  (∀ x y, hasEdge (saturateEdge b (g, ps) p c).1 x y =
          if decide ((x = p ∧ y = c) ∨ (x = c ∧ y = p)) then true
          else hasEdge g x y).
Proof.
  intros Hwf Hnn Hp Hc Hne Hb Hcap. unfold saturateEdge; simpl.
  set (g1 := setWeight g p c (fsub (weight g p c) b)).
  assert (numberOfNodes g1 = numberOfNodes g) as Hn1
    by apply numberOfNodes_setWeight.
  assert (wfGraph g1) as Hwf1 by (by apply wfGraph_setWeight).
  assert (nonnegGraph g1) as Hnn1
    by (apply nonnegGraph_setWeight; [done | by apply fsub_nonneg]).
  assert (∀ x y, weight g1 x y =
                 if decide (x = p ∧ y = c) then fsub (weight g p c) b else weight g x y)
    as Hw1 by (intros x y; by apply weight_setWeight).
  assert (∀ x y, hasEdge g1 x y =
                 if decide (x = p ∧ y = c) then true else hasEdge g x y)
    as Hh1 by (intros x y; by apply hasEdge_setWeight).
  assert (weight g1 c p = weight g c p) as Hcp
    by (rewrite Hw1; by rewrite decide_False by (intros [? ?]; congruence)).
  assert (hasEdge g1 c p = hasEdge g c p) as Hhcp
    by (rewrite Hh1; by rewrite decide_False by (intros [? ?]; congruence)).
  pose proof (nonnegGraph_weight g1 c p Hnn1) as Hrev.
  rewrite Hhcp, Hcp in *.
  destruct (hasEdge g c p) eqn:Hhas.
  - split; [by rewrite numberOfNodes_setWeight|].
    split; [apply wfGraph_setWeight; [done | lia]|].
    split; [apply nonnegGraph_setWeight; [done | by apply fadd_nonneg]|].
    split.
    + intros x y. rewrite weight_setWeight by lia. rewrite Hw1.
      repeat case_decide; try done; destruct_and?; subst; try done;
        exfalso; intuition congruence.
    + intros x y. rewrite hasEdge_setWeight by lia. rewrite Hh1.
      repeat case_decide; try done; exfalso; intuition congruence.
  - split; [by rewrite numberOfNodes_addEdge|].
    split; [apply wfGraph_addEdge; [done | lia]|].
    split; [by apply nonnegGraph_addEdge|].
    split.
    + intros x y. rewrite weight_addEdge by (lia || congruence). rewrite Hw1.
      repeat case_decide; try done; destruct_and?; subst; try done;
        exfalso; intuition congruence.
    + intros x y. rewrite hasEdge_addEdge by lia. rewrite Hh1.
      repeat case_decide; try done; exfalso; intuition congruence.
Qed.

(** ** Finite sums of rationals *)

Lemma sumQ_ext f g l :
  (∀ x, x ∈ l → (f x == g x)%Q) → (sumQ f l == sumQ g l)%Q.
Proof.
  induction l as [|a l IH]; intros H; simpl; [reflexivity|].
  rewrite (H a) by left. rewrite IH; [reflexivity|].
  intros x Hx. apply H. by right.
Qed.

Lemma sumQ_le f g l :
  (∀ x, x ∈ l → (f x <= g x)%Q) → (sumQ f l <= sumQ g l)%Q.
Proof.
  induction l as [|a l IH]; intros H; simpl; [lra|].
  pose proof (H a ltac:(left)).
  assert (sumQ f l <= sumQ g l)%Q by (apply IH; intros x Hx; apply H; by right).
  lra.
Qed.

Lemma sumQ_plus f g l :
  (sumQ (fun x => f x + g x) l == sumQ f l + sumQ g l)%Q.
Proof. induction l as [|a l IH]; simpl; lra. Qed.

Lemma sumQ_minus f g l :
  (sumQ (fun x => f x - g x) l == sumQ f l - sumQ g l)%Q.
Proof. induction l as [|a l IH]; simpl; lra. Qed.

Lemma sumQ_zero l : (sumQ (fun _ => 0) l == 0)%Q.
Proof. induction l as [|a l IH]; simpl; lra. Qed.

Lemma sumQ_exchange (F : nat → nat → Q) l1 l2 :
  (sumQ (fun x => sumQ (fun y => F x y) l2) l1 ==
   sumQ (fun y => sumQ (fun x => F x y) l1) l2)%Q.
Proof.
  induction l1 as [|a l1 IH]; simpl.
  - symmetry. apply sumQ_zero.
  - rewrite IH. symmetry. apply sumQ_plus.
Qed.

Lemma sumQ_indicator (c : nat) (b : Q) l :
  NoDup l →
  (sumQ (fun x => if decide (x = c) then b else 0) l ==
   if decide (c ∈ l) then b else 0)%Q.
Proof.
  induction 1 as [|a l Ha Hnd IH].
  - simpl. reflexivity.
  - change (sumQ (fun x => if decide (x = c) then b else 0%Q) (a :: l))
      with ((if decide (a = c) then b else 0) +
            sumQ (fun x => if decide (x = c) then b else 0) l)%Q.
    rewrite IH. destruct (decide (a = c)) as [->|Hne].
    + rewrite (decide_False (P := c ∈ l)) by done.
      rewrite (decide_True (P := c ∈ c :: l)) by left. lra.
    + destruct (decide (c ∈ l)) as [Hin|Hin].
      * rewrite (decide_True (P := c ∈ a :: l)) by (by right). lra.
      * rewrite (decide_False (P := c ∈ a :: l)); [lra|].
        intros [->|?]%elem_of_cons; done.
Qed.

(** A double sum of a skew-symmetric function over a square vanishes. *)
Lemma sumQ_skew (F : nat → nat → Q) l :
  (∀ x y, (F x y + F y x == 0)%Q) →
  (sumQ (fun x => sumQ (fun y => F x y) l) l == 0)%Q.
Proof.
  intros Hskew.
  pose proof (sumQ_exchange F l l) as Hex.
  assert (sumQ (fun y => sumQ (fun x => F x y) l) l ==
          sumQ (fun x => sumQ (fun y => 0 - F x y) l) l)%Q as Hneg.
  { apply sumQ_ext. intros x _. apply sumQ_ext. intros y _.
    pose proof (Hskew x y). lra. }
  assert (sumQ (fun x => sumQ (fun y => 0 - F x y) l) l ==
          0 - sumQ (fun x => sumQ (fun y => F x y) l) l)%Q as Hopp.
  { transitivity (sumQ (fun x => sumQ (fun _ => 0%Q) l - sumQ (fun y => F x y) l)%Q l).
    - apply sumQ_ext. intros x _.
      apply (sumQ_minus (fun _ => 0%Q) (fun y => F x y)).
    - rewrite (sumQ_minus (fun _ => sumQ (fun _ => 0%Q) l)
                 (fun x => sumQ (fun y => F x y) l)).
      assert (sumQ (fun _ => sumQ (fun _ => 0%Q) l) l == 0)%Q as ->; [|reflexivity].
      transitivity (sumQ (fun _ => 0%Q) l); [|apply sumQ_zero].
      apply sumQ_ext. intros x _. apply sumQ_zero. }
  lra.
Qed.

(** ** Saturating a path *)

Lemma pathCap_ext g g' b path :
  (∀ p c, p ∈ path → c ∈ path → (weight g' p c == weight g p c)%Q) →
  pathCap g b path → pathCap g' b path.
Proof.
  induction path as [|c path IH]; intros Hw; simpl; [done|].
  destruct path as [|p path]; [done|].
  intros [Hcap Hrest]. split.
  - rewrite Hw; [done | right; left | left].
  - apply IH; [|done]. intros p' c' Hp' Hc'. apply Hw; by right.
Qed.

Lemma pathCap_take g b path k : pathCap g b path → pathCap g b (take k path).
Proof.
  revert k. induction path as [|c path IH]; intros k; [by destruct k|].
  destruct k as [|k]; [done|]. destruct path as [|p path]; [by destruct k|].
  intros [Hcap Hrest]. destruct k as [|k]; [done|].
  split; [done|]. apply (IH (S k) Hrest).
Qed.

Lemma onPath_cons c p path x y :
  onPath (c :: p :: path) x y ↔ (x = p ∧ y = c) ∨ onPath (p :: path) x y.
Proof.
  unfold onPath. split.
  - intros ([|i] & Hy & Hx); simpl in *; [left | right; by exists i].
    split; congruence.
  - intros [[-> ->]|(i & Hy & Hx)]; [by exists 0 | by exists (S i)].
Qed.

Lemma onPath_elem path x y : onPath path x y → x ∈ path ∧ y ∈ path.
Proof. intros (i & Hy & Hx). split; by eapply list_elem_of_lookup_2. Qed.

Lemma onPath_dec path x y : onPath path x y ∨ ¬ onPath path x y.
Proof.
  induction path as [|c path IH]; [right; by intros ([|?] & ? & ?)|].
  destruct path as [|p path]; [right; by intros ([|[|?]] & ? & ?)|].
  rewrite onPath_cons.
  destruct (decide (x = p ∧ y = c)) as [Heq|Hne]; [by left; left|].
  destruct IH as [Hon|Hoff]; [by left; right|].
  right. by intros [?|?].
Qed.

(** What [saturatePath] leaves in the graph: on every edge of the path the
    rounded difference, on its reverse edge the rounded sum, and everywhere
    else what was there. *)
Lemma saturatePath_graph b path g ps :
  wfGraph g → nonnegGraph g → (0 <= b)%Q →
  NoDup path → (∀ x, x ∈ path → x < numberOfNodes g) → pathCap g b path →
  numberOfNodes (saturatePath b (g, ps) path).1 = numberOfNodes g ∧
  wfGraph (saturatePath b (g, ps) path).1 ∧
  nonnegGraph (saturatePath b (g, ps) path).1 ∧
  (∀ p c, onPath path p c →
     weight (saturatePath b (g, ps) path).1 p c = fsub (weight g p c) b ∧
     weight (saturatePath b (g, ps) path).1 c p =
       (if hasEdge g c p then fadd (weight g c p) b else b)) ∧
  (∀ x y, ¬ onPath path x y → ¬ onPath path y x →
     weight (saturatePath b (g, ps) path).1 x y = weight g x y).
Proof.
  intros Hwf Hnn Hb. revert g ps Hwf Hnn.
  induction path as [|c path IH]; intros g ps Hwf Hnn Hnd Hlt Hcap.
  { simpl. split; [done|]. split; [done|]. split; [done|].
    split; [|done]. by intros p c ([|?] & ? & ?). }
  destruct path as [|p path].
  { simpl. split; [done|]. split; [done|]. split; [done|].
    split; [|done]. by intros p c' ([|[|?]] & ? & ?). }
  destruct Hcap as [Hcap Hrest].
  apply NoDup_cons in Hnd as [Hc Hnd].
  assert (p ≠ c) as Hne by (intros ->; apply Hc; left).
  destruct (saturateEdge_graph b g ps p c) as (Hn1 & Hwf1 & Hnn1 & Hw1 & Hh1);
    try done.
  { apply Hlt. right; left. }
  { apply Hlt. left. }
  change (saturatePath b (g, ps) (c :: p :: path))
    with (saturatePath b (saturateEdge b (g, ps) p c) (p :: path)).
  destruct (saturateEdge b (g, ps) p c) as [g1 ps1] eqn:Hstep.
  simpl in Hn1, Hwf1, Hnn1, Hw1, Hh1.
  assert (∀ x y, x ≠ c → y ≠ c →
                 weight g1 x y = weight g x y ∧ hasEdge g1 x y = hasEdge g x y)
    as Hsame.
  { intros x y Hx Hy. rewrite Hw1, Hh1.
    rewrite !decide_False by intuition congruence. done. }
  destruct (IH g1 ps1) as (Hn' & Hwf' & Hnn' & Hon' & Hoff'); try done.
  { intros x Hx. rewrite Hn1. apply Hlt. by right. }
  { apply (pathCap_ext g); [|done]. intros p' c' Hp' Hc'.
    destruct (Hsame p' c') as [-> _]; [by intros -> | by intros -> |].
    reflexivity. }
  split; [congruence|]. split; [done|]. split; [done|]. split.
  - intros p' c' [[-> ->]|Hon]%onPath_cons.
    + rewrite !Hoff', !Hw1.
      * rewrite decide_True by done.
        rewrite decide_False by intuition congruence.
        by rewrite decide_True by done.
      * intros [? _]%onPath_elem. done.
      * intros [_ ?]%onPath_elem. done.
      * intros [_ ?]%onPath_elem. done.
      * intros [? _]%onPath_elem. done.
    + destruct (Hon' p' c' Hon) as [-> ->].
      apply onPath_elem in Hon as [Hp' Hc'].
      destruct (Hsame p' c') as [-> _]; [by intros -> | by intros -> |].
      destruct (Hsame c' p') as [-> ->]; [by intros -> | by intros -> |].
      done.
  - intros x y Hxy Hyx. rewrite onPath_cons in Hxy, Hyx.
    rewrite Hoff' by tauto. rewrite Hw1.
    rewrite !decide_False by tauto. done.
Qed.

Lemma pathDelta_skew b path x y :
  (pathDelta b path x y + pathDelta b path y x == 0)%Q.
Proof.
  induction path as [|c path IH]; simpl; [lra|].
  destruct path as [|p path]; [lra|].
  unfold edgeDelta in *.
  repeat case_decide; destruct_and?; subst; try lra; exfalso; naive_solver.
Qed.

Lemma sumQ_edgeDelta b p c x n :
  p < n → c < n →
  (sumQ (edgeDelta b p c x) (seq 0 n) ==
   (if decide (x = p) then - b else 0) + (if decide (x = c) then b else 0))%Q.
Proof.
  intros Hp Hc. unfold edgeDelta.
  rewrite (sumQ_plus (fun y => if decide (x = p ∧ y = c) then (- b)%Q else 0%Q)
             (fun y => if decide (x = c ∧ y = p) then b else 0%Q)).
  assert (∀ (a : Q) (u v : nat), v < n →
            (sumQ (fun y => if decide (x = u ∧ y = v) then a else 0%Q) (seq 0 n) ==
             if decide (x = u) then a else 0)%Q) as Hone.
  { intros a u v Hv.
    transitivity (sumQ (fun y => if decide (y = v)
                                 then (if decide (x = u) then a else 0%Q) else 0%Q)
                       (seq 0 n)).
    - apply sumQ_ext. intros y _. repeat case_decide; destruct_and?; try lra;
        exfalso; naive_solver.
    - rewrite sumQ_indicator by apply NoDup_seq.
      rewrite decide_True by (apply elem_of_seq; lia). reflexivity. }
  rewrite !Hone by done. reflexivity.
Qed.

Lemma sumQ_pathDelta b path x n :
  (∀ y, y ∈ path → y < n) →
  (sumQ (pathDelta b path x) (seq 0 n) ==
   atNode b (head path) x - atNode b (last path) x)%Q.
Proof.
  unfold atNode. induction path as [|c path IH]; intros Hlt.
  - simpl. rewrite sumQ_zero. lra.
  - destruct path as [|p path].
    + simpl. rewrite sumQ_zero. lra.
    + pose proof (sumQ_plus (edgeDelta b p c x) (pathDelta b (p :: path) x)
                    (seq 0 n)) as Hsplit.
      pose proof (IH ltac:(intros y Hy; apply Hlt; by right)) as Hrest.
      pose proof (sumQ_edgeDelta b p c x n ltac:(apply Hlt; right; left)
                    ltac:(apply Hlt; left)) as Hedge.
      rewrite last_cons_cons.
      change (pathDelta b (c :: p :: path) x)
        with (fun y => (edgeDelta b p c x y + pathDelta b (p :: path) x y)%Q).
      change (head (c :: p :: path)) with (Some c).
      change (head (p :: path)) with (Some p) in Hrest.
      repeat case_decide; simplify_eq; lra.
Qed.

Lemma edgeDelta_multiple D b p c x y :
  multipleOf D b → multipleOf D (edgeDelta b p c x y).
Proof.
  intros Hb. unfold edgeDelta. apply multipleOf_plus; case_decide;
    auto using multipleOf_0, multipleOf_opp.
Qed.

Lemma pathDelta_multiple D b path x y :
  multipleOf D b → multipleOf D (pathDelta b path x y).
Proof.
  intros Hb. induction path as [|c path IH]; simpl; [apply multipleOf_0|].
  destruct path as [|p path]; [apply multipleOf_0|].
  apply multipleOf_plus; [by apply edgeDelta_multiple | done].
Qed.

(** ** Where the arithmetic of the source is exact *)

Lemma exactOn_fsub D B x y :
  exactOn D B → multipleOf D x → multipleOf D y →
  (0 <= y)%Q → (y <= x)%Q → (x <= B)%Q → (fsub x y == x - y)%Q.
Proof.
  intros HE Hx Hy H0 Hle HB. apply HE; [|lra..].
  apply multipleOf_plus; [done | by apply multipleOf_opp].
Qed.

Lemma exactOn_fadd D B x y :
  exactOn D B → multipleOf D x → multipleOf D y →
  (0 <= x)%Q → (0 <= y)%Q → (x + y <= B)%Q → (fadd x y == x + y)%Q.
Proof.
  intros HE Hx Hy H0 H1 HB. apply HE; [|lra..]. by apply multipleOf_plus.
Qed.

(** On multiples of [1 / D] that stay below the bound [B], [saturateEdge]
    takes [b] from the edge and adds it to the reverse edge without
    rounding. *)
Lemma saturateEdge_exact D B b g ps p c :
  exactOn D B →
  wfGraph g → nonnegGraph g →
  p < numberOfNodes g → c < numberOfNodes g → p ≠ c →
  (0 <= b)%Q → (b <= weight g p c)%Q → multipleOf D b →
  (∀ x y, multipleOf D (weight g x y)) →
  (weight g p c + weight g c p <= B)%Q →
  ∀ x y, (weight (saturateEdge b (g, ps) p c).1 x y ==
          weight g x y + edgeDelta b p c x y)%Q.
Proof.
  intros HE Hwf Hnn Hp Hc Hne Hb Hcap Hbm Hm HB.
  destruct (saturateEdge_graph b g ps p c) as (_ & _ & _ & Hw & _); try done.
  intros x y. rewrite Hw. unfold edgeDelta.
  pose proof (nonnegGraph_weight g p c Hnn).
  pose proof (nonnegGraph_weight g c p Hnn).
  case_decide as H1.
  { destruct H1 as [-> ->]. rewrite decide_False by (intros [? ?]; done).
    rewrite (exactOn_fsub D B) by (done || lra). lra. }
  case_decide as H2; [destruct H2 as [-> ->]|lra].
  destruct (hasEdge g c p) eqn:Hhas.
  - rewrite (exactOn_fadd D B) by (done || lra). lra.
  - rewrite (weight_no_edge g c p Hhas). lra.
Qed.

Lemma saturatePath_exact D B b path g ps :
  exactOn D B →
  wfGraph g → nonnegGraph g → (0 <= b)%Q → multipleOf D b →
  (∀ x y, multipleOf D (weight g x y)) →
  (∀ x y, x ≠ y → (weight g x y + weight g y x <= B)%Q) →
  NoDup path → (∀ x, x ∈ path → x < numberOfNodes g) → pathCap g b path →
  ∀ x y, (weight (saturatePath b (g, ps) path).1 x y ==
          weight g x y + pathDelta b path x y)%Q.
Proof.
  intros HE Hwf Hnn Hb Hbm. revert g ps Hwf Hnn.
  induction path as [|c path IH]; intros g ps Hwf Hnn Hm HB Hnd Hlt Hcap.
  { intros; simpl; lra. }
  destruct path as [|p path]; [intros; simpl; lra|].
  destruct Hcap as [Hcap Hrest].
  apply NoDup_cons in Hnd as [Hc Hnd].
  assert (p ≠ c) as Hne by (intros ->; apply Hc; left).
  assert (p < numberOfNodes g) as Hp by (apply Hlt; right; left).
  assert (c < numberOfNodes g) as Hcn by (apply Hlt; left).
  destruct (saturateEdge_graph b g ps p c) as (Hn1 & Hwf1 & Hnn1 & _);
    try done.
  pose proof (saturateEdge_exact D B b g ps p c HE Hwf Hnn Hp Hcn Hne Hb Hcap
                Hbm Hm (HB p c Hne)) as Hw1.
  change (saturatePath b (g, ps) (c :: p :: path))
    with (saturatePath b (saturateEdge b (g, ps) p c) (p :: path)).
  destruct (saturateEdge b (g, ps) p c) as [g1 ps1] eqn:Hstep.
  cbn [fst] in Hn1, Hwf1, Hnn1, Hw1.
  intros x y.
  rewrite (IH g1 ps1); try done.
  - rewrite Hw1.
    change (pathDelta b (c :: p :: path) x y)
      with (edgeDelta b p c x y + pathDelta b (p :: path) x y)%Q. lra.
  - intros x' y'. eapply multipleOf_eq; [symmetry; apply Hw1|].
    apply multipleOf_plus; [done | by apply edgeDelta_multiple].
  - intros x' y' Hxy. rewrite !Hw1. pose proof (HB x' y' Hxy).
    unfold edgeDelta. repeat case_decide; destruct_and?; subst; try lra;
      exfalso; intuition congruence.
  - intros x' Hx'. rewrite Hn1. apply Hlt. by right.
  - apply (pathCap_ext g); [|done]. intros p' c' Hp' Hc'. rewrite Hw1.
    unfold edgeDelta.
    rewrite decide_False by (intros [_ ->]; done).
    rewrite decide_False by (intros [-> _]; done). lra.
Qed.

(** ** The bottleneck *)

Lemma bottleNeck_le g path acc : (bottleNeck g path acc <= acc)%Q.
Proof.
  revert acc. induction path as [|c path IH]; intros acc; simpl; [lra|].
  destruct path as [|p path]; [lra|].
  pose proof (IH (Qmin acc (weight g p c))).
  pose proof (Q.le_min_l acc (weight g p c)). lra.
Qed.

Lemma bottleNeck_pathCap g path acc : pathCap g (bottleNeck g path acc) path.
Proof.
  revert acc. induction path as [|c path IH]; intros acc; simpl; [done|].
  destruct path as [|p path]; [done|].
  split; [|apply IH].
  pose proof (bottleNeck_le g (p :: path) (Qmin acc (weight g p c))).
  pose proof (Q.le_min_r acc (weight g p c)). lra.
Qed.

Lemma bottleNeck_positive g path acc :
  pathPositive g path → (0 < acc)%Q → (0 < bottleNeck g path acc)%Q.
Proof.
  revert acc. induction path as [|c path IH]; intros acc; simpl; [done|].
  destruct path as [|p path]; [done|].
  intros [Hw Hrest] Hacc. apply IH; [done|]. by apply Q.min_glb_lt.
Qed.

Lemma bottleNeck_multiple D g path acc :
  (∀ x y, multipleOf D (weight g x y)) → multipleOf D acc →
  multipleOf D (bottleNeck g path acc).
Proof.
  intros Hw. revert acc. induction path as [|c path IH]; intros acc Hacc; simpl;
    [done|].
  destruct path as [|p path]; [done|].
  apply IH. by apply multipleOf_min.
Qed.

Lemma edgeweight_max_positive : (0 < edgeweight_max)%Q.
Proof. reflexivity. Qed.

(** ** The walk from the target to the source *)

Lemma bfs_inv_level_graph g s st :
  bfs_inv g s st → level_graph g s (bfs_level st) (bfs_parents st).
Proof.
  intros [Hll Hlp Hge Hs H0 Hq Hpar Hhas Hun]. split; try done.
  intros c p Hc Hp. destruct (Hpar c p Hc Hp) as (? & ?%isPositive_iff & ? & ?).
  done.
Qed.

Lemma level_graph_source_parents g s level ps :
  level_graph g s level ps → s < numberOfNodes g → ps !!! s = [].
Proof.
  intros Hlg Hs. destruct (ps !!! s) as [|p l] eqn:Hps; [done|].
  destruct (lg_parents _ _ _ _ Hlg s p Hs) as (_ & _ & Hp & Hlev).
  { rewrite Hps. left. }
  rewrite (lg_source _ _ _ _ Hlg) in Hlev. lia.
Qed.

Lemma walk_spec g s level ps k u :
  level_graph g s level ps → u < numberOfNodes g → level !!! u = Z.of_nat k →
  length (walk ps u k) = k ∧
  (∀ x, x ∈ walk ps u k →
        x < numberOfNodes g ∧ (0 ≤ level !!! x < Z.of_nat k)%Z) ∧
  NoDup (u :: walk ps u k) ∧
  last (u :: walk ps u k) = Some s ∧
  pathPositive g (u :: walk ps u k).
Proof.
  intros Hlg. revert u. induction k as [|k IH]; intros u Hu Hlev; simpl.
  - split; [done|]. split; [by intros x ?%elem_of_nil|].
    split; [apply NoDup_singleton|]. split; [|done].
    by rewrite (lg_level0 _ _ _ _ Hlg u Hu Hlev).
  - destruct (ps !!! u) as [|v l] eqn:Hps.
    { destruct (lg_has_parent _ _ _ _ Hlg u Hu); [lia | done]. }
    destruct (lg_parents _ _ _ _ Hlg u v Hu) as (Hv & Hw & Hlv & Hlev').
    { rewrite Hps. left. }
    destruct (IH v Hv) as (Hlen & Hin & Hnd & Hlast & Hpos); [lia|].
    split; [simpl; by rewrite Hlen|].
    assert (∀ x, x ∈ v :: walk ps v k →
                 x < numberOfNodes g ∧ (0 ≤ level !!! x < Z.of_nat (S k))%Z) as Hin'.
    { intros x [->|Hx]%elem_of_cons; [split; [done | lia]|].
      destruct (Hin x Hx). split; [done | lia]. }
    split; [done|]. split; [|split].
    + apply NoDup_cons. split; [|done].
      intros Hx. destruct (Hin' u Hx). lia.
    + by rewrite last_cons_cons.
    + simpl. split; [done|]. exact Hpos.
Qed.

(** The loop follows front predecessors from a node of level [k + 1] down to
    the source, saturates the path it has collected, and stops. *)
Lemma blocking_loop_walk g s t level ps k :
  level_graph g s level ps → s < numberOfNodes g →
  ∀ u path tf fuel,
    u < numberOfNodes g → level !!! u = Z.of_nat (S k) → k + 2 ≤ fuel →
    blocking_loop fuel s t (mkBlocking tf path u g ps) =
      Some (augment s t s (path ++ walk ps u (S k)) (mkBlocking tf path u g ps)).
Proof.
  intros Hlg Hs.
  pose proof (level_graph_source_parents _ _ _ _ Hlg Hs) as Hps.
  induction k as [|k IH]; intros u path tf fuel Hu Hlev Hfuel.
  - destruct fuel as [|[|fuel]]; [lia..|].
    destruct (ps !!! u) as [|v l] eqn:Hpu.
    { destruct (lg_has_parent _ _ _ _ Hlg u Hu); [lia | done]. }
    destruct (lg_parents _ _ _ _ Hlg u v Hu) as (Hv & Hw & Hlv & Hlev').
    { rewrite Hpu. left. }
    assert (v = s) as -> by (apply (lg_level0 _ _ _ _ Hlg); [done | lia]).
    cbn [blocking_loop]. unfold nextNode at 1. cbn [bl_parents bl_u bl_path].
    rewrite Hpu. cbn [walk]. rewrite Hpu.
    assert (augment s t s (path ++ [s]) (mkBlocking tf path u g ps) =
            augment s t s (path ++ [s])
              (mkBlocking tf (path ++ [s]) u g ps)) as Heq
      by (unfold augment; by rewrite Nat.eqb_refl).
    rewrite nextNode_after_augment by done. done.
  - destruct fuel as [|fuel]; [lia|].
    destruct (ps !!! u) as [|v l] eqn:Hpu.
    { destruct (lg_has_parent _ _ _ _ Hlg u Hu); [lia | done]. }
    destruct (lg_parents _ _ _ _ Hlg u v Hu) as (Hv & Hw & Hlv & Hlev').
    { rewrite Hpu. left. }
    assert (v ≠ s) as Hvs.
    { intros ->. rewrite (lg_source _ _ _ _ Hlg) in Hlev'. lia. }
    cbn [blocking_loop]. unfold nextNode at 1. cbn [bl_parents bl_u bl_path].
    rewrite Hpu.
    assert (augment s t v (path ++ [v]) (mkBlocking tf path u g ps) =
            mkBlocking tf (path ++ [v]) v g ps) as ->.
    { unfold augment. by rewrite (proj2 (Nat.eqb_neq v s) Hvs). }
    rewrite IH by (done || lia).
    change (walk ps u (S (S k))) with
      (match ps !!! u with [] => [] | v :: _ => v :: walk ps v (S k) end).
    rewrite Hpu, <- app_assoc. simpl.
    unfold augment. by rewrite Nat.eqb_refl.
Qed.

Lemma NoDup_lt_length (l : list nat) (n : nat) :
  NoDup l → (∀ x, x ∈ l → x < n) → length l ≤ n.
Proof.
  intros Hnd Hlt.
  assert (l ⊆+ seq 0 n) as Hsub.
  { apply NoDup_submseteq; [done|]. intros x Hx. apply elem_of_seq.
    specialize (Hlt x Hx). lia. }
  apply submseteq_length in Hsub. by rewrite length_seq in Hsub.
Qed.

(** One call of [computeBlockingPath] on a level graph whose target is
    reached: it returns, with a positive flow, and the residual capacities
    are those before the call changed along [phasePath]. *)
Lemma computeBlockingPath_spec fuel d level :
  wfGraph (residualGraph d) → nonnegGraph (residualGraph d) →
  level_graph (residualGraph d) (source d) level (parents d) →
  source d < numberOfNodes (residualGraph d) →
  target d < numberOfNodes (residualGraph d) →
  (1 ≤ level !!! target d)%Z →
  numberOfNodes (residualGraph d) + 1 ≤ fuel →
  ∃ b d',
    computeBlockingPath fuel d = Some (fadd 0 b, d') ∧
    b = bottleNeck (residualGraph d) (phasePath (parents d) (target d) level)
                   edgeweight_max ∧
    (0 < b)%Q ∧
    numberOfNodes (residualGraph d') = numberOfNodes (residualGraph d) ∧
    wfGraph (residualGraph d') ∧ nonnegGraph (residualGraph d') ∧
    ((∀ p c, onPath (phasePath (parents d) (target d) level) p c →
             weight (residualGraph d') p c = fsub (weight (residualGraph d) p c) b ∧
             weight (residualGraph d') c p =
               (if hasEdge (residualGraph d) c p
                then fadd (weight (residualGraph d) c p) b else b)) ∧
     (∀ x y, ¬ onPath (phasePath (parents d) (target d) level) x y →
             ¬ onPath (phasePath (parents d) (target d) level) y x →
             weight (residualGraph d') x y = weight (residualGraph d) x y)) ∧
    (∀ x, x ∈ phasePath (parents d) (target d) level →
          x < numberOfNodes (residualGraph d)) ∧
    head (phasePath (parents d) (target d) level) = Some (target d) ∧
    last (phasePath (parents d) (target d) level) = Some (source d) ∧
    residualGraph d' =
      (saturatePath b (residualGraph d, parents d)
         (phasePath (parents d) (target d) level)).1 ∧
    (∀ k, nonnegGraph
            (saturatePath b (residualGraph d, parents d)
               (take k (phasePath (parents d) (target d) level))).1) ∧
    NoDup (phasePath (parents d) (target d) level).
Proof.
  intros Hwf Hnn Hlg Hs Ht Hlev Hfuel.
  set (g := residualGraph d) in *. set (ps := parents d) in *.
  set (s := source d) in *. set (t := target d) in *.
  unfold phasePath.
  destruct (Z.to_nat (level !!! t)) as [|k] eqn:Hk; [lia|].
  destruct (walk_spec g s level ps (S k) t Hlg Ht ltac:(lia))
    as (Hlen & Hin & Hnd & Hlast & Hpos).
  set (path := t :: walk ps t (S k)) in *.
  assert (∀ x, x ∈ path → x < numberOfNodes g) as Hlt.
  { intros x [->|Hx]%elem_of_cons; [done|]. by destruct (Hin x Hx). }
  assert (S k + 1 ≤ numberOfNodes g) as Hbound.
  { pose proof (NoDup_lt_length path _ Hnd Hlt) as H. subst path.
    rewrite length_cons, Hlen in H. lia. }
  set (b := bottleNeck g path edgeweight_max).
  assert (0 < b)%Q as Hb
    by (apply bottleNeck_positive; [done | apply edgeweight_max_positive]).
  destruct (saturatePath_graph b path g ps Hwf Hnn ltac:(lra) Hnd Hlt
              (bottleNeck_pathCap g path edgeweight_max))
    as (Hn' & Hwf' & Hnn' & Hon & Hoff).
  exists b. eexists. split.
  { unfold computeBlockingPath. fold g ps s t.
    rewrite (blocking_loop_walk g s t level ps k Hlg Hs t [t] 0%Q fuel Ht)
      by lia.
    unfold augment. rewrite Nat.eqb_refl. cbn [bl_totalFlow bl_graph bl_parents].
    change ([t] ++ walk ps t (S k)) with path. fold b. reflexivity. }
  cbn [residualGraph set_parents set_residualGraph].
  split; [done|]. split; [done|]. split; [done|]. split; [done|].
  split; [done|]. split; [split; [exact Hon | exact Hoff]|].
  split; [done|]. split; [done|]. split; [done|]. split; [done|].
  split; [|done].
  intros j.
  destruct (saturatePath_graph b (take j path) g ps Hwf Hnn ltac:(lra))
    as (_ & _ & Hnnj & _); try done.
  - eapply sublist_NoDup; [done | apply sublist_take].
  - intros x (i & Hx & _)%elem_of_take. apply Hlt.
    by eapply list_elem_of_lookup_2.
  - apply pathCap_take, bottleNeck_pathCap.
Qed.

(** ** The residual graph throughout a run *)

Lemma wfGraph_initial d : wfGraph (residualGraph (initializeResidualGraph d)).
Proof.
  intros x y w Hin. rewrite initializeResidualGraph_nodes.
  apply elem_of_initializeResidualGraph, elem_of_residualEntries in Hin
    as (u & v & w' & Hu & Hvw%elem_of_inNeighborsOf & [[-> [= -> ->]]|[-> [= -> ->]]]);
    [done | by destruct Hvw].
Qed.

Lemma nonnegGraph_initial d :
  nonnegGraph (graph d) → nonnegGraph (residualGraph (initializeResidualGraph d)).
Proof.
  intros Hnn x y w Hin.
  apply elem_of_initializeResidualGraph, elem_of_residualEntries in Hin
    as (u & v & w' & Hu & [Hv Hvw]%elem_of_inNeighborsOf &
        [[-> [= -> ->]]|[-> [= -> ->]]]); [by eapply Hnn | done].
Qed.

Lemma run_inv_start d0 :
  nonnegGraph (graph d0) → length (parents d0) = numberOfNodes (graph d0) →
  run_inv d0 (run_start d0).
Proof.
  intros Hnn Hlen. split; try done.
  - apply initializeResidualGraph_nodes.
  - apply wfGraph_initial.
  - by apply nonnegGraph_initial.
Qed.

(** A search followed by [computeBlockingPath], with enough fuel: either the
    target is not reached, or one path from the source to the target is
    saturated with a positive flow. *)
Lemma phase_spec fuel d :
  wfGraph (residualGraph d) → nonnegGraph (residualGraph d) →
  source d < numberOfNodes (residualGraph d) →
  target d < numberOfNodes (residualGraph d) →
  source d ≠ target d →
  length (parents d) = numberOfNodes (residualGraph d) →
  numberOfNodes (residualGraph d) + 1 ≤ fuel →
  ∃ st d1,
    bfs_loop fuel (residualGraph d) (bfs_init d) = Some st ∧
    bfs_inv (residualGraph d) (source d) st ∧ bfs_closed (residualGraph d) [] st ∧
    d1 = set_parents d (bfs_parents st) ∧
    ((bfs_level st !!! target d = (-1)%Z ∧
      canReachTargetInLevelGraph fuel d = Some (false, d1)) ∨
     (canReachTargetInLevelGraph fuel d = Some (true, d1) ∧
      ∃ b d2,
        computeBlockingPath fuel d1 = Some (fadd 0 b, d2) ∧
        b = bottleNeck (residualGraph d)
              (phasePath (bfs_parents st) (target d) (bfs_level st)) edgeweight_max ∧
        (0 < b)%Q ∧
        numberOfNodes (residualGraph d2) = numberOfNodes (residualGraph d) ∧
        wfGraph (residualGraph d2) ∧ nonnegGraph (residualGraph d2) ∧
        ((∀ p c, onPath (phasePath (bfs_parents st) (target d) (bfs_level st)) p c →
                 weight (residualGraph d2) p c = fsub (weight (residualGraph d) p c) b ∧
                 weight (residualGraph d2) c p =
                   (if hasEdge (residualGraph d) c p
                    then fadd (weight (residualGraph d) c p) b else b)) ∧
         (∀ x y, ¬ onPath (phasePath (bfs_parents st) (target d) (bfs_level st)) x y →
                 ¬ onPath (phasePath (bfs_parents st) (target d) (bfs_level st)) y x →
                 weight (residualGraph d2) x y = weight (residualGraph d) x y)) ∧
        (∀ x, x ∈ phasePath (bfs_parents st) (target d) (bfs_level st) →
              x < numberOfNodes (residualGraph d)) ∧
        head (phasePath (bfs_parents st) (target d) (bfs_level st)) = Some (target d) ∧
        last (phasePath (bfs_parents st) (target d) (bfs_level st)) = Some (source d) ∧
        residualGraph d2 =
          (saturatePath b (residualGraph d, bfs_parents st)
             (phasePath (bfs_parents st) (target d) (bfs_level st))).1 ∧
        (∀ k, nonnegGraph
                (saturatePath b (residualGraph d, bfs_parents st)
                   (take k (phasePath (bfs_parents st) (target d) (bfs_level st)))).1) ∧
        NoDup (phasePath (bfs_parents st) (target d) (bfs_level st)))).
Proof.
  intros Hwf Hnn Hs Ht Hst Hlen Hfuel.
  destruct (canReach_spec fuel d Hwf Hs Hlen ltac:(lia))
    as (st & Hloop & Hinv & Hclosed & Hres).
  exists st, (set_parents d (bfs_parents st)).
  split; [done|]. split; [done|]. split; [done|]. split; [done|].
  pose proof (bi_level_ge _ _ _ Hinv (target d) Ht) as Hge.
  destruct (Z.ltb_spec (-1) (bfs_level st !!! target d)) as [Hreached|Hnot].
  - right. split; [done|].
    assert (1 ≤ bfs_level st !!! target d)%Z as Hlev.
    { destruct (decide (bfs_level st !!! target d = 0%Z)) as [H0|H0]; [|lia].
      apply (bi_level0 _ _ _ Hinv _ Ht) in H0. congruence. }
    destruct (computeBlockingPath_spec fuel (set_parents d (bfs_parents st))
                (bfs_level st)) as (b & d2 & H); try done.
    { simpl. by apply bfs_inv_level_graph. }
    exists b, d2. exact H.
  - left. split; [lia | done].
Qed.

Lemma phase_state_inv d0 d :
  nonnegGraph (graph d0) → length (parents d0) = numberOfNodes (graph d0) →
  source d0 < numberOfNodes (graph d0) → target d0 < numberOfNodes (graph d0) →
  source d0 ≠ target d0 →
  phase_state d0 d → run_inv d0 d.
Proof.
  intros Hnn Hlen Hs Ht Hst. induction 1 as [|d fuel fuel' d1 flow d2 _ IH Hbfs Hblock|d m _ IH].
  - by apply run_inv_start.
  - destruct IH as [Hg Hso Hta Hn Hl Hwf Hnn'].
    set (F := Nat.max (Nat.max fuel fuel') (numberOfNodes (residualGraph d) + 1)).
    apply (canReach_mono fuel F) in Hbfs; [|lia].
    apply (computeBlockingPath_mono fuel' F) in Hblock; [|lia].
    destruct (phase_spec F d)
      as (st & d1' & Hsearch & Hinv & _ & -> & [[_ Hfalse]|[Htrue Hphase]]);
      try (done || lia || congruence).
    assert (d1 = set_parents d (bfs_parents st)) as -> by congruence.
    destruct Hphase as (b & d2' & Hblock' & _ & Hb & Hn2 & Hwf2 & Hnn2 & Hw2 & _).
    assert (d2' = d2) as -> by congruence.
    apply computeBlockingPath_frame in Hblock as (Hg2 & Hs2 & Ht2 & _ & _ & Hl2).
    pose proof (bi_len_parents _ _ _ Hinv) as Hlst.
    cbn [residualGraph set_parents source target parents graph]
      in Hn2, Hwf2, Hnn2, Hw2, Hg2, Hs2, Ht2, Hl2.
    split; try congruence; try done.
  - destruct IH. by split.
Qed.

(** ** The residual graph while nothing is rounded *)

Lemma weight_multiple D g :
  (∀ u v w, (v, w) ∈ outEdges g !!! u → multipleOf D w) →
  ∀ x y, multipleOf D (weight g x y).
Proof.
  intros Hall x y. unfold weight.
  destruct (adjWeight (outEdges g !!! x) y) as [w|] eqn:Hw;
    [|apply multipleOf_0].
  apply adjWeight_Some_elem in Hw. by eapply Hall.
Qed.

Lemma weight_bounded M g :
  (0 <= M)%Q → (∀ u v w, (v, w) ∈ outEdges g !!! u → (w <= M)%Q) →
  ∀ x y, (weight g x y <= M)%Q.
Proof.
  intros HM Hall x y. unfold weight.
  destruct (adjWeight (outEdges g !!! x) y) as [w|] eqn:Hw; [|done].
  apply adjWeight_Some_elem in Hw. by eapply Hall.
Qed.

(** Every entry of the residual graph as initialised is an edge of the input
    graph or has capacity 0. *)
Lemma initial_entry d x y w :
  (y, w) ∈ outEdges (residualGraph (initializeResidualGraph d)) !!! x →
  w = 0%Q ∨ (y, w) ∈ outEdges (graph d) !!! x.
Proof.
  intros Hin.
  apply elem_of_initializeResidualGraph, elem_of_residualEntries in Hin
    as (u & v & w' & Hu & [Hv Hvw]%elem_of_inNeighborsOf &
        [[-> [= -> ->]]|[-> [= -> ->]]]); [by right | by left].
Qed.

Lemma initial_dyadic p M d0 :
  (0 <= M)%Q → dyadicGraph p M (graph d0) →
  (∀ x y, multipleOf (pow2 p) (weight (residualGraph (run_start d0)) x y)) ∧
  (∀ x y, (weight (residualGraph (run_start d0)) x y <= M)%Q).
Proof.
  intros HM Hdy. split.
  - apply weight_multiple. intros u v w [->|Hin]%initial_entry;
      [apply multipleOf_0 | by eapply Hdy].
  - apply weight_bounded; [done|]. intros u v w [->|Hin]%initial_entry;
      [done | by eapply Hdy].
Qed.

(** Saturating a path from the target to the source with its bottleneck,
    without rounding. *)
Lemma saturatePath_bottleNeck_exact D B g ps path s t b :
  exactOn D B → wfGraph g → nonnegGraph g →
  (∀ x y, multipleOf D (weight g x y)) →
  (∀ x y, x ≠ y → (weight g x y + weight g y x <= B)%Q) →
  b = bottleNeck g path edgeweight_max → (0 < b)%Q →
  NoDup path → (∀ x, x ∈ path → x < numberOfNodes g) →
  head path = Some t → last path = Some s → s ≠ t →
  multipleOf D b ∧ (fadd 0 b == b)%Q ∧
  ∀ x y, (weight (saturatePath b (g, ps) path).1 x y ==
          weight g x y + pathDelta b path x y)%Q.
Proof.
  intros HE Hwf Hnn Hm HB Hbdef Hb Hnd Hlt Hhead Hlast Hst.
  assert (multipleOf D b) as Hbm.
  { rewrite Hbdef. apply bottleNeck_multiple; [done | apply multipleOf_inject_Z]. }
  assert (pathCap g b path) as Hcap by (rewrite Hbdef; apply bottleNeck_pathCap).
  split; [done|]. split.
  - clear Hbdef. destruct path as [|c [|p path]]; [done | |].
    { simpl in Hhead, Hlast. congruence. }
    destruct Hcap as [Hcap _]. apply NoDup_cons in Hnd as [Hc _].
    assert (p ≠ c) as Hne by (intros ->; apply Hc; left).
    pose proof (HB p c Hne). pose proof (nonnegGraph_weight g c p Hnn).
    assert (fadd 0 b == 0 + b)%Q as Hr; [|lra].
    apply (exactOn_fadd D B); (done || lra || apply multipleOf_0).
  - apply (saturatePath_exact D B); try done. lra.
Qed.

Lemma exact_inv_start D d0 :
  (∀ x y, multipleOf D (weight (residualGraph (run_start d0)) x y)) →
  exact_inv D d0 (run_start d0).
Proof. intros Hm. by split. Qed.

(** One phase keeps [exact_inv]. *)
Lemma phase_state_exact D B d0 d :
  exactOn D B →
  nonnegGraph (graph d0) → length (parents d0) = numberOfNodes (graph d0) →
  source d0 < numberOfNodes (graph d0) → target d0 < numberOfNodes (graph d0) →
  source d0 ≠ target d0 →
  (∀ x y, multipleOf D (weight (residualGraph (run_start d0)) x y)) →
  (∀ x y, x ≠ y → (weight (residualGraph (run_start d0)) x y +
                    weight (residualGraph (run_start d0)) y x <= B)%Q) →
  phase_state d0 d → exact_inv D d0 d.
Proof.
  intros HE Hnn Hlen Hs Ht Hst Hm0 HB0.
  induction 1 as [|d fuel fuel' d1 flow d2 Hstate IH Hbfs Hblock|d m _ IH].
  - by apply exact_inv_start.
  - pose proof (phase_state_inv d0 d Hnn Hlen Hs Ht Hst Hstate)
      as [Hg Hso Hta Hn Hl Hwf Hnn'].
    destruct IH as [Hm Hpairs].
    set (F := Nat.max (Nat.max fuel fuel') (numberOfNodes (residualGraph d) + 1)).
    apply (canReach_mono fuel F) in Hbfs; [|lia].
    apply (computeBlockingPath_mono fuel' F) in Hblock; [|lia].
    destruct (phase_spec F d)
      as (st & d1' & Hsearch & Hinv & _ & -> & [[_ Hfalse]|[Htrue Hphase]]);
      try (done || lia || congruence).
    assert (d1 = set_parents d (bfs_parents st)) as -> by congruence.
    destruct Hphase as (b & d2' & Hblock' & Hbdef & Hb & _ & _ & _ & _ & Hlt &
                        Hhead & Hlast & Hg2 & _ & Hnd).
    assert (d2' = d2) as -> by congruence.
    cbn [residualGraph set_parents source target parents graph] in *.
    destruct (saturatePath_bottleNeck_exact D B (residualGraph d) (bfs_parents st)
                (phasePath (bfs_parents st) (target d) (bfs_level st))
                (source d) (target d) b HE Hwf Hnn' Hm)
      as (Hbm & _ & Hw2); try (done || congruence).
    { intros x y Hxy. rewrite Hpairs. by apply HB0. }
    rewrite <- Hg2 in Hw2. split.
    + intros x y. eapply multipleOf_eq; [symmetry; apply Hw2|].
      apply multipleOf_plus; [apply Hm | by apply pathDelta_multiple].
    + intros u v. rewrite !Hw2. pose proof (Hpairs u v).
      pose proof (pathDelta_skew b
                    (phasePath (bfs_parents st) (target d) (bfs_level st)) u v).
      lra.
  - destruct IH. by split.
Qed.




(** ** Deciding the conditions on a concrete graph *)

Lemma forallb_outEdges (f : node * edgeweight → bool) g u e :
  forallb (forallb f) (outEdges g) = true → e ∈ outEdges g !!! u → f e = true.
Proof.
  intros Hall Hin. rewrite list_lookup_total_alt in Hin.
  destruct (outEdges g !! u) as [adj|] eqn:Hadj; simpl in Hin;
    [|by apply elem_of_nil in Hin].
  rewrite forallb_forall in Hall.
  specialize (Hall adj ltac:(apply list_elem_of_In; by eapply list_elem_of_lookup_2)).
  rewrite forallb_forall in Hall. apply Hall. by apply list_elem_of_In.
Qed.

Lemma wfGraphb_correct g : wfGraphb g = true → wfGraph g.
Proof.
  intros H u v w Hin.
  apply (forallb_outEdges _ g u (v, w) H) in Hin. by apply Nat.ltb_lt in Hin.
Qed.

Lemma nonnegGraphb_correct g : nonnegGraphb g = true → nonnegGraph g.
Proof.
  intros H u v w Hin.
  apply (forallb_outEdges _ g u (v, w) H) in Hin. by apply Qle_bool_iff in Hin.
Qed.

Lemma dyadicGraphb_correct p M G :
  multiplesGraphb (pow2 p) G = true → boundedGraphb M G = true → dyadicGraph p M G.
Proof.
  intros Hm Hb u v w Hin. split.
  - apply multipleOfb_correct.
    by apply (forallb_outEdges _ G u (v, w) Hm) in Hin.
  - apply (forallb_outEdges _ G u (v, w) Hb) in Hin. by apply Qle_bool_iff in Hin.
Qed.



Lemma canReachTargetInLevelGraph_search_witness :
  ∃ st,
    bfs_loop 4 (residualGraph (run_start diamondInstance))
      (bfs_init (run_start diamondInstance)) = Some st ∧
    bfs_inv (residualGraph (run_start diamondInstance)) 0 st ∧
    bfs_queue st = [] ∧
    (∀ u v, u < 4 → (0 ≤ bfs_level st !!! u)%Z →
            (0 < weight (residualGraph (run_start diamondInstance)) u v)%Q →
            (0 ≤ bfs_level st !!! v ≤ bfs_level st !!! u + 1)%Z ∧
            (bfs_level st !!! v = (bfs_level st !!! u + 1)%Z →
             u ∈ bfs_parents st !!! v)) ∧
    canReachTargetInLevelGraph 4 (run_start diamondInstance) =
      Some (bool_decide (bfs_level st !!! 3 ≠ (-1)%Z),
            set_parents (run_start diamondInstance) (bfs_parents st)).
Proof.
  pose proof (canReachTargetInLevelGraph_search (run_start diamondInstance) 4)
    as H.
  destruct H as (_ & _ & _ & H).
  - apply wfGraphb_correct. vm_compute. reflexivity.
  - vm_compute. lia.
  - vm_compute. lia.
  - reflexivity.
  - vm_compute. lia.
  - exact H.
Defined.

(** ** Flows of the input graph *)

Lemma capacity_no_entry adj v :
  v ∉ adj.*1 →
  foldr (fun (e : node * edgeweight) acc => if Nat.eqb e.1 v then (e.2 + acc)%Q else acc)
        0%Q adj = 0%Q.
Proof.
  induction adj as [|[x w] adj IH]; simpl; [done|].
  intros [Hx Hin]%not_elem_of_cons.
  destruct (Nat.eqb_spec x v); [done | auto].
Qed.

Lemma capacity_weight G u v :
  NoDup (outEdges G !!! u).*1 → (capacity G u v == weight G u v)%Q.
Proof.
  unfold capacity, weight. induction (outEdges G !!! u) as [|[x w] adj IH]; simpl.
  - reflexivity.
  - intros [Hx Hnd]%NoDup_cons. destruct (Nat.eqb_spec x v) as [->|Hne]; simpl.
    + rewrite capacity_no_entry by done. lra.
    + by apply IH.
Qed.

Lemma hasEdge_elem g u v : hasEdge g u v = true ↔ ∃ w, (v, w) ∈ outEdges g !!! u.
Proof.
  unfold hasEdge. split.
  - destruct (adjWeight (outEdges g !!! u) v) as [w|] eqn:Hw; [|done].
    intros _. exists w. by apply adjWeight_Some_elem.
  - intros [w Hin]. destruct (adjWeight (outEdges g !!! u) v) eqn:Hw; [done|].
    apply adjWeight_None in Hw. destruct Hw.
    apply list_elem_of_fmap. by exists (v, w).
Qed.

Lemma adjWeight_unique adj v w :
  (v, w) ∈ adj → (∀ w', (v, w') ∈ adj → w' = w) → adjWeight adj v = Some w.
Proof.
  intros Hin Huniq. destruct (adjWeight adj v) as [w'|] eqn:Hw.
  - apply adjWeight_Some_elem in Hw. by rewrite (Huniq w' Hw).
  - apply adjWeight_None in Hw. destruct Hw.
    apply list_elem_of_fmap. by exists (v, w).
Qed.

Lemma NoDup_fst_unique (adj : list (node * edgeweight)) v w w' :
  NoDup adj.*1 → (v, w) ∈ adj → (v, w') ∈ adj → w = w'.
Proof.
  induction adj as [|[x a] adj IH]; simpl; [by intros _ ?%elem_of_nil|].
  intros [Hx Hnd]%NoDup_cons [H1|H1]%elem_of_cons [H2|H2]%elem_of_cons;
    simplify_eq.
  - done.
  - destruct Hx. apply list_elem_of_fmap. by exists (x, w').
  - destruct Hx. apply list_elem_of_fmap. by exists (x, w).
  - by apply IH.
Qed.

(** On a simple graph the residual graph starts with the capacities of the
    input graph. *)
Lemma weight_initial d u v :
  wfGraph (graph d) → simpleGraph (graph d) →
  weight (residualGraph (initializeResidualGraph d)) u v = weight (graph d) u v.
Proof.
  intros Hwf [Hnd Hanti]. unfold weight at 1.
  destruct (hasEdge (graph d) u v) eqn:Hhas.
  - pose proof Hhas as [w Hw]%hasEdge_elem.
    assert (weight (graph d) u v = w) as ->.
    { unfold weight. by rewrite (adjWeight_unique _ v w Hw)
        by (intros w' Hw'; by eapply NoDup_fst_unique). }
    assert (u < numberOfNodes (graph d)) as Hu by (by eapply hasEdge_lt).
    assert (v < numberOfNodes (graph d)) as Hv by (by eapply Hwf).
    rewrite (adjWeight_unique _ v w); [done | |].
    + apply elem_of_initializeResidualGraph, elem_of_residualEntries.
      exists v, u, w. split; [done|]. split; [|by left].
      by apply elem_of_inNeighborsOf.
    + intros w' Hin.
      apply elem_of_initializeResidualGraph, elem_of_residualEntries in Hin
        as (u' & v' & w'' & Hu' & [Hv' Hvw]%elem_of_inNeighborsOf &
            [[Hx He]|[Hx He]]); simplify_eq.
      * by eapply NoDup_fst_unique.
      * exfalso. apply Hanti in Hhas.
        rewrite (proj2 (hasEdge_elem _ _ _)) in Hhas by eauto. done.
  - rewrite (weight_no_edge _ _ _ Hhas).
    destruct (adjWeight _ v) as [w'|] eqn:Hw'; [|done].
    apply adjWeight_Some_elem in Hw'.
    apply elem_of_initializeResidualGraph, elem_of_residualEntries in Hw'
      as (u' & v' & w'' & Hu' & [Hv' Hvw]%elem_of_inNeighborsOf &
          [[Hx He]|[Hx He]]); simplify_eq; [|done].
    rewrite (proj2 (hasEdge_elem _ _ _)) in Hhas by eauto. done.
Qed.

(** ** The flow accounted for by [maxFlow] *)

Lemma steps_archimedean D (q : Q) : ∃ k, (q < steps D k)%Q.
Proof.
  assert (∀ k, steps D k == Z.of_nat k # D)%Q as Hsteps.
  { induction k as [|k IH]; [reflexivity|].
    change (steps D (S k)) with (steps D k + (1 # D))%Q. rewrite IH.
    unfold Qeq, Qplus; simpl. nia. }
  destruct q as [a b].
  exists (S (Z.to_nat (Z.abs a * Z.pos D))). rewrite Hsteps.
  unfold Qlt; simpl. nia.
Qed.

Lemma flow_inv_start D d0 :
  (∀ x y, multipleOf D (weight (residualGraph (run_start d0)) x y)) →
  flow_inv D d0 (run_start d0).
Proof.
  intros Hmult. split.
  - intros x _. unfold atNode. simpl. repeat case_decide; lra.
  - done.
  - apply Qle_refl.
Qed.

Lemma sumQ_nonneg f l : (∀ x, x ∈ l → (0 <= f x)%Q) → (0 <= sumQ f l)%Q.
Proof.
  intros H. pose proof (sumQ_le (fun _ => 0%Q) f l H) as Hle.
  pose proof (sumQ_zero l). lra.
Qed.

Lemma multipleOf_sumQ D f l :
  (∀ x, multipleOf D (f x)) → multipleOf D (sumQ f l).
Proof.
  intros Hf. induction l as [|x l IH]; [apply multipleOf_0|].
  by apply multipleOf_plus.
Qed.

Lemma not_tolerance_zero eps D flow :
  (eps < 1 # D)%Q → (1 # D <= flow)%Q → NumericTools_equal eps flow 0 = false.
Proof.
  intros Heps Hb. unfold NumericTools_equal.
  destruct (Qle_bool _ _) eqn:Hle; [|done].
  apply Qle_bool_iff in Hle.
  assert (0 < 1 # D)%Q by reflexivity.
  rewrite Qabs_pos in Hle by lra. lra.
Qed.

(** What [maxFlow] accounts for is a whole multiple of [1 / D]. *)
Lemma flow_inv_maxFlow D d0 d :
  source d0 < numberOfNodes (graph d0) → source d0 ≠ target d0 →
  (∀ x y, multipleOf D (weight (residualGraph (run_start d0)) x y)) →
  flow_inv D d0 d → multipleOf D (maxFlow d).
Proof.
  intros Hs Hst Hm0 Hflow.
  pose proof (fi_out _ _ _ Hflow (source d0) Hs) as Hout. unfold atNode in Hout.
  rewrite decide_True in Hout by done.
  rewrite decide_False in Hout by congruence.
  eapply (multipleOf_eq D
            (sumQ (weight (residualGraph (run_start d0)) (source d0))
                  (seq 0 (numberOfNodes (graph d0))) +
             - sumQ (weight (residualGraph d) (source d0))
                    (seq 0 (numberOfNodes (graph d0))))%Q); [lra|].
  apply multipleOf_plus; [|apply multipleOf_opp]; apply multipleOf_sumQ;
    intros y; [apply Hm0 | apply Hflow].
Qed.

(** One phase while nothing is rounded: the flow returned is the bottleneck,
    it is added to [maxFlow] as it is, and [maxFlow] accounts for it. *)
Lemma flow_inv_phase D B d0 d (ps : list (list node)) (path : list node) b d2 :
  exactOn D B →
  run_inv d0 d → exact_inv D d0 d → flow_inv D d0 d →
  source d0 < numberOfNodes (graph d0) → source d0 ≠ target d0 →
  (∀ x y, multipleOf D (weight (residualGraph (run_start d0)) x y)) →
  (∀ x y, x ≠ y → (weight (residualGraph (run_start d0)) x y +
                    weight (residualGraph (run_start d0)) y x <= B)%Q) →
  (sumQ (weight (residualGraph (run_start d0)) (source d0))
        (seq 0 (numberOfNodes (graph d0))) <= B)%Q →
  b = bottleNeck (residualGraph d) path edgeweight_max → (0 < b)%Q →
  NoDup path → (∀ x, x ∈ path → x < numberOfNodes (residualGraph d)) →
  head path = Some (target d) → last path = Some (source d) →
  residualGraph d2 = (saturatePath b (residualGraph d, ps) path).1 →
  maxFlow d2 = maxFlow d →
  nonnegGraph (residualGraph d2) →
  multipleOf D b ∧ (fadd 0 b == b)%Q ∧
  (fadd (maxFlow d2) (fadd 0 b) == maxFlow d + b)%Q ∧
  (∀ x y, (weight (residualGraph d2) x y ==
           weight (residualGraph d) x y + pathDelta b path x y)%Q) ∧
  flow_inv D d0 (set_maxFlow d2 (fadd (maxFlow d2) (fadd 0 b))).
Proof.
  intros HE [Hg Hso Hta Hn Hl Hwf Hnn'] [Hm Hpairs] Hflow Hs Hst Hm0 HB0 HBs
    Hbdef Hb Hnd Hlt Hhead Hlast Hg2 Hm2 Hnn2.
  destruct (saturatePath_bottleNeck_exact D B (residualGraph d) ps path
              (source d) (target d) b HE Hwf Hnn' Hm)
    as (Hbm & Hflow0 & Hw2); try (done || congruence).
  { intros x y Hxy. rewrite Hpairs. by apply HB0. }
  rewrite <- Hg2 in Hw2.
  assert (∀ x, x < numberOfNodes (graph d0) →
            (sumQ (weight (residualGraph d2) x) (seq 0 (numberOfNodes (graph d0))) ==
             sumQ (weight (residualGraph d) x) (seq 0 (numberOfNodes (graph d0))) +
             (atNode b (Some (target d)) x - atNode b (Some (source d)) x))%Q)
    as Hout2.
  { intros x Hx.
    transitivity
      (sumQ (fun y => weight (residualGraph d) x y + pathDelta b path x y)%Q
            (seq 0 (numberOfNodes (graph d0)))).
    - apply sumQ_ext. intros y _. apply Hw2.
    - rewrite (sumQ_plus (weight (residualGraph d) x) (pathDelta b path x)).
      rewrite sumQ_pathDelta by (intros y Hy; rewrite <- Hn; by apply Hlt).
      rewrite Hhead, Hlast. reflexivity. }
  pose proof (flow_inv_maxFlow D d0 d Hs Hst Hm0 Hflow) as Hmm.
  pose proof (fi_nonneg _ _ _ Hflow) as Hpos.
  assert (maxFlow d + b <= B)%Q as Hle.
  { pose proof (fi_out _ _ _ Hflow (source d0) Hs) as Hout.
    pose proof (Hout2 (source d0) Hs) as Hout2s.
    assert (0 <= sumQ (weight (residualGraph d2) (source d0))
                      (seq 0 (numberOfNodes (graph d0))))%Q
      by (apply sumQ_nonneg; intros y _; by apply nonnegGraph_weight).
    rewrite Hso, Hta in Hout2s. unfold atNode in Hout, Hout2s.
    rewrite decide_True in Hout by done.
    rewrite decide_False in Hout by congruence.
    rewrite decide_False in Hout2s by congruence.
    rewrite decide_True in Hout2s by done. lra. }
  assert (fadd (maxFlow d2) (fadd 0 b) == maxFlow d + b)%Q as Hm3.
  { rewrite Hm2.
    assert (fadd (maxFlow d) (fadd 0 b) == maxFlow d + fadd 0 b)%Q as Hr; [|lra].
    apply (exactOn_fadd D B); try (done || lra).
    eapply multipleOf_eq; [symmetry; apply Hflow0 | done]. }
  split; [done|]. split; [done|]. split; [done|]. split; [done|].
  split; cbn [residualGraph set_maxFlow maxFlow].
  - intros x Hx. pose proof (fi_out _ _ _ Hflow x Hx) as Hout.
    pose proof (Hout2 x Hx) as Hx2.
    set (m3 := fadd (maxFlow d2) (fadd 0 b)) in *.
    rewrite Hso, Hta in *. unfold atNode in *.
    repeat case_decide; simplify_eq; lra.
  - intros x y. eapply multipleOf_eq; [symmetry; apply Hw2|].
    apply multipleOf_plus; [apply Hm | by apply pathDelta_multiple].
  - lra.
Qed.

(** With enough fuel the loop of [run] ends, at a failed search, in a state
    that satisfies the invariants. *)
Lemma run_loop_spec eps D B d0 inner :
  exactOn D B →
  nonnegGraph (graph d0) → length (parents d0) = numberOfNodes (graph d0) →
  source d0 < numberOfNodes (graph d0) → target d0 < numberOfNodes (graph d0) →
  source d0 ≠ target d0 →
  (∀ x y, multipleOf D (weight (residualGraph (run_start d0)) x y)) →
  (∀ x y, x ≠ y → (weight (residualGraph (run_start d0)) x y +
                    weight (residualGraph (run_start d0)) y x <= B)%Q) →
  (sumQ (weight (residualGraph (run_start d0)) (source d0))
        (seq 0 (numberOfNodes (graph d0))) <= B)%Q →
  (eps < 1 # D)%Q →
  numberOfNodes (graph d0) + 1 ≤ inner →
  ∀ k fuel d,
    phase_state d0 d → flow_inv D d0 d →
    (sumQ (weight (residualGraph (run_start d0)) (source d0))
          (seq 0 (numberOfNodes (graph d0))) - maxFlow d < steps D k)%Q →
    k ≤ fuel →
    ∃ d' st,
      run_loop eps inner fuel d = Some d' ∧
      run_inv d0 d' ∧ flow_inv D d0 d' ∧ exact_inv D d0 d' ∧
      bfs_loop inner (residualGraph d') (bfs_init d') = Some st ∧
      parents d' = bfs_parents st ∧
      bfs_inv (residualGraph d') (source d0) st ∧
      bfs_closed (residualGraph d') [] st ∧
      bfs_level st !!! target d0 = (-1)%Z.
Proof.
  intros HE Hnn Hlen Hs Ht Hst Hm0 HB0 HBs Heps Hinner.
  induction k as [|k IH]; intros fuel d Hstate Hflow Hmeasure Hfuel.
  { exfalso. change (steps D 0) with 0%Q in Hmeasure.
    pose proof (phase_state_inv d0 d Hnn Hlen Hs Ht Hst Hstate) as Hinv.
    pose proof (fi_out _ _ _ Hflow (source d0) Hs) as Hout.
    unfold atNode in Hout. rewrite decide_True in Hout by done.
    rewrite decide_False in Hout by congruence.
    assert (0 <= sumQ (weight (residualGraph d) (source d0))
                      (seq 0 (numberOfNodes (graph d0))))%Q.
    { apply sumQ_nonneg. intros y _. apply nonnegGraph_weight, Hinv. }
    lra. }
  destruct fuel as [|fuel]; [lia|].
  pose proof (phase_state_inv d0 d Hnn Hlen Hs Ht Hst Hstate) as Hrun.
  pose proof (phase_state_exact D B d0 d HE Hnn Hlen Hs Ht Hst Hm0 HB0 Hstate)
    as Hex.
  pose proof Hrun as [Hg Hso Hta Hn Hl Hwf Hnn'].
  destruct (phase_spec inner d)
    as (st & d1 & Hsearch & Hinv & Hclosed & -> & [[Hunreached Hfalse]|[Htrue Hphase]]);
    try (done || lia || congruence).
  - (* the target is not reached *)
    exists (set_parents d (bfs_parents st)), st.
    cbn [run_loop]. rewrite Hfalse. split; [done|].
    pose proof (bi_len_parents _ _ _ Hinv) as Hlst.
    split; [split; simpl; (done || congruence)|].
    split; [by destruct Hflow|].
    split; [by destruct Hex|].
    split.
    { rewrite bfs_init_set_parents by congruence. exact Hsearch. }
    split; [done|].
    simpl. rewrite <- Hso, <- Hta. done.
  - (* one more path *)
    destruct Hphase as (b & d2 & Hblock & Hbdef & Hb & Hn2 & Hwf2 & Hnn2 & _ &
                        Hlt & Hhead & Hlast & Hg2 & _ & Hnd).
    cbn [residualGraph set_parents source target parents graph] in *.
    pose proof (computeBlockingPath_frame _ _ _ _ Hblock)
      as (Hg2' & Hs2 & Ht2 & Hm2 & _ & Hl2).
    cbn [residualGraph set_parents source target parents graph maxFlow] in *.
    destruct (flow_inv_phase D B d0 d (bfs_parents st)
                (phasePath (bfs_parents st) (target d) (bfs_level st)) b d2
                HE Hrun Hex Hflow Hs Hst Hm0 HB0 HBs Hbdef Hb Hnd Hlt Hhead Hlast
                Hg2 Hm2 Hnn2) as (Hbmult & Hflow0 & Hm3 & _ & Hflow3).
    pose proof (multipleOf_positive D b Hbmult Hb) as Hbge.
    set (d3 := set_maxFlow d2 (fadd (maxFlow d2) (fadd 0 b))) in *.
    assert (phase_state d0 d3) as Hstate3.
    { apply phase_accumulate. by eapply phase_next. }
    destruct (IH fuel d3 Hstate3 Hflow3) as (d' & st' & Hloop & Hres); [| lia |].
    { cbn [d3 set_maxFlow maxFlow].
      change (steps D (S k)) with (steps D k + (1 # D))%Q in Hmeasure. lra. }
    exists d', st'. split; [|done].
    cbn [run_loop]. rewrite Htrue, Hblock.
    rewrite (not_tolerance_zero eps D (fadd 0 b) Heps) by lra. done.
Qed.

(** ** A saturated cut certifies the maximum *)

Lemma sumQ_on b f l : (on b (sumQ f l) == sumQ (fun x => on b (f x)) l)%Q.
Proof.
  destruct b; simpl; [reflexivity|]. symmetry. apply sumQ_zero.
Qed.

(** Summing a skew-symmetric function over the pairs that leave a set of
    nodes gives the same as summing it over all pairs that start in the
    set. *)
Lemma sumQ_skew_cut (inS : nat → bool) (F : nat → nat → Q) l :
  (∀ x y, (F x y + F y x == 0)%Q) →
  (sumQ (fun u => on (inS u) (sumQ (F u) l)) l ==
   sumQ (fun u => sumQ (fun v => on (inS u && negb (inS v)) (F u v)) l) l)%Q.
Proof.
  intros Hskew.
  assert (sumQ (fun u => sumQ (fun v => on (inS u && inS v) (F u v)) l) l == 0)%Q
    as Hin.
  { apply (sumQ_skew (fun u v => on (inS u && inS v) (F u v))).
    intros x y. pose proof (Hskew x y).
    destruct (inS x), (inS y); simpl; lra. }
  assert (sumQ (fun u => on (inS u) (sumQ (F u) l)) l ==
          sumQ (fun u => sumQ (fun v => on (inS u && inS v) (F u v)) l +
                         sumQ (fun v => on (inS u && negb (inS v)) (F u v)) l)%Q l)%Q
    as Hsplit.
  { apply sumQ_ext. intros u _. rewrite sumQ_on.
    rewrite <- (sumQ_plus (fun v => on (inS u && inS v) (F u v))
                  (fun v => on (inS u && negb (inS v)) (F u v))).
    apply sumQ_ext. intros v _. destruct (inS u), (inS v); simpl; lra. }
  rewrite Hsplit.
  rewrite (sumQ_plus (fun u => sumQ (fun v => on (inS u && inS v) (F u v)) l)
             (fun u => sumQ (fun v => on (inS u && negb (inS v)) (F u v)) l)).
  lra.
Qed.

(** A sum over the nodes of a function that vanishes off [s]. *)
Lemma sumQ_single (h : nat → Q) (s n : nat) :
  s < n → (∀ u, u < n → u ≠ s → (h u == 0)%Q) →
  (sumQ h (seq 0 n) == h s)%Q.
Proof.
  intros Hs Hzero.
  transitivity (sumQ (fun u => if decide (u = s) then h s else 0%Q) (seq 0 n)).
  - apply sumQ_ext. intros u Hu%elem_of_seq.
    case_decide as Hus; [by subst|]. apply Hzero; [lia | done].
  - rewrite sumQ_indicator by apply NoDup_seq.
    rewrite decide_True by (apply elem_of_seq; lia). reflexivity.
Qed.

Section Cut.
Variables (G r : Graph) (s t : node) (m : Q) (level : list Z).

Hypothesis Hsimple : simpleGraph G.
Hypothesis Hs : s < numberOfNodes G.
Hypothesis Hst : s ≠ t.
Hypothesis Hnonneg : ∀ u v, (0 <= weight r u v)%Q.
Hypothesis Hpairs :
  ∀ u v, (weight r u v + weight r v u == weight G u v + weight G v u)%Q.
Hypothesis Hout :
  ∀ x, x < numberOfNodes G →
       (sumQ (weight G x) (seq 0 (numberOfNodes G)) -
        sumQ (weight r x) (seq 0 (numberOfNodes G)) ==
        atNode m (Some s) x - atNode m (Some t) x)%Q.
Hypothesis Hclosed :
  ∀ u v, reached level u = true → (0 < weight r u v)%Q → reached level v = true.
Hypothesis Hsource : reached level s = true.
Hypothesis Htarget : reached level t = false.

Lemma crossing_saturated u v :
  reached level u = true → reached level v = false → (weight r u v == 0)%Q.
Proof.
  intros Hu Hv. pose proof (Hnonneg u v).
  destruct (Qlt_le_dec 0 (weight r u v)) as [Hpos|Hle]; [|lra].
  rewrite (Hclosed u v Hu Hpos) in Hv. done.
Qed.


Lemma maxFlow_is_cut : (m == (cutCapacity G level))%Q.
Proof.
  set (n := numberOfNodes G) in *.
  set (phi := fun u v => (weight G u v - weight r u v)%Q).
  assert (∀ u, sumQ (phi u) (seq 0 n) ==
               sumQ (weight G u) (seq 0 n) - sumQ (weight r u) (seq 0 n))%Q as Hphi.
  { intros u. apply (sumQ_minus (weight G u) (weight r u)). }
  assert (sumQ (fun u => on (reached level u) (sumQ (phi u) (seq 0 n))) (seq 0 n) == m)%Q
    as Hvalue.
  { rewrite (sumQ_single _ s n Hs).
    - rewrite Hsource. simpl. rewrite Hphi, (Hout s Hs). unfold atNode.
      rewrite decide_True by done. rewrite decide_False by congruence. lra.
    - intros u Hu Hus. destruct (reached level u) eqn:Hr; simpl; [|reflexivity].
      rewrite Hphi, (Hout u Hu). unfold atNode.
      rewrite decide_False by congruence.
      case_decide as Hut; [|lra].
      injection Hut as <-. congruence. }
  rewrite <- Hvalue.
  rewrite (sumQ_skew_cut (reached level) phi)
    by (intros x y; unfold phi; pose proof (Hpairs x y); lra).
  apply sumQ_ext. intros u _. apply sumQ_ext. intros v _.
  destruct (reached level u) eqn:Hu, (reached level v) eqn:Hv; simpl; try lra.
  unfold phi. rewrite (crossing_saturated u v Hu Hv). lra.
Qed.

Lemma residualFlow_net u v :
  ((residualFlow G r) u v - (residualFlow G r) v u == weight G u v - weight r u v)%Q.
Proof.
  unfold residualFlow. destruct Hsimple as [_ Hanti].
  pose proof (Hpairs u v). pose proof (Hnonneg u v). pose proof (Hnonneg v u).
  destruct (hasEdge G u v) eqn:Huv, (hasEdge G v u) eqn:Hvu.
  - apply Hanti in Huv. congruence.
  - rewrite (weight_no_edge G v u Hvu) in *. lra.
  - rewrite (weight_no_edge G u v Huv) in *. lra.
  - rewrite (weight_no_edge G u v Huv), (weight_no_edge G v u Hvu) in *. lra.
Qed.

Lemma residualFlow_feasible : feasible_flow G s t (residualFlow G r).
Proof.
  destruct Hsimple as [Hnd Hanti]. split.
  - intros u v. rewrite capacity_weight by apply Hnd. unfold residualFlow.
    pose proof (Hpairs u v). pose proof (Hnonneg u v). pose proof (Hnonneg v u).
    destruct (hasEdge G u v) eqn:Huv.
    + rewrite (weight_no_edge G v u (Hanti u v Huv)) in *. split; lra.
    + rewrite (weight_no_edge G u v Huv). split; lra.
  - intros u Hu Hus Hut.
    pose proof (sumQ_minus (fun v => (residualFlow G r) u v) (fun v => (residualFlow G r) v u)
                  (seq 0 (numberOfNodes G))) as Hnet.
    pose proof (sumQ_minus (weight G u) (weight r u) (seq 0 (numberOfNodes G)))
      as Hphi.
    assert (sumQ (fun v => (residualFlow G r) u v - (residualFlow G r) v u)%Q
                 (seq 0 (numberOfNodes G)) ==
            sumQ (fun v => weight G u v - weight r u v)%Q (seq 0 (numberOfNodes G)))%Q
      as Heq by (apply sumQ_ext; intros v _; apply residualFlow_net).
    pose proof (Hout u Hu) as Hu0. unfold atNode in Hu0.
    rewrite !decide_False in Hu0 by congruence. cbv beta in Hnet. lra.
Qed.


End Cut.

(** ** [run] computes the maximum flow *)

(** A simple graph whose capacities are whole multiples of [1 / 2^p] and at
    most [2^53 / 2^p] starts the run where nothing is rounded. *)
Lemma simple_dyadic_exact p d0 :
  wfGraph (graph d0) → simpleGraph (graph d0) →
  (Z.of_nat p ≤ 1074)%Z → dyadicGraph p (2 ^ 53 # pow2 p) (graph d0) →
  exactOn (pow2 p) (2 ^ 53 # pow2 p) ∧
  (∀ x y, weight (residualGraph (run_start d0)) x y = weight (graph d0) x y) ∧
  (∀ x y, multipleOf (pow2 p) (weight (residualGraph (run_start d0)) x y)) ∧
  (∀ x y, x ≠ y → (weight (residualGraph (run_start d0)) x y +
                    weight (residualGraph (run_start d0)) y x <=
                    2 ^ 53 # pow2 p)%Q).
Proof.
  intros Hwf Hsimple Hp Hdy.
  assert (∀ x y, weight (residualGraph (run_start d0)) x y = weight (graph d0) x y)
    as Hw0 by (intros x y; by apply (weight_initial d0)).
  destruct (initial_dyadic p (2 ^ 53 # pow2 p) d0) as [Hm0 HM0]; [done | done|].
  split; [apply exactOn_pow2; [done | apply Qle_refl]|].
  split; [done|]. split; [done|].
  intros x y _. pose proof (HM0 x y) as Hxy. pose proof (HM0 y x) as Hyx.
  rewrite !Hw0 in *. destruct Hsimple as [_ Hanti].
  destruct (hasEdge (graph d0) x y) eqn:Hhas.
  - rewrite (weight_no_edge _ y x (Hanti x y Hhas)). lra.
  - rewrite (weight_no_edge _ x y Hhas). lra.
Qed.



Lemma simpleGraphb_correct G : simpleGraphb G = true → simpleGraph G.
Proof.
  unfold simpleGraphb. intros [Hnd Hanti]%andb_true_iff. split.
  - intros u. rewrite list_lookup_total_alt.
    destruct (outEdges G !! u) as [adj|] eqn:Hadj; simpl; [|apply NoDup_nil_2].
    rewrite forallb_forall in Hnd.
    specialize (Hnd adj ltac:(apply list_elem_of_In; by eapply list_elem_of_lookup_2)).
    by apply bool_decide_eq_true in Hnd.
  - intros u v Huv. destruct (hasEdge G v u) eqn:Hvu; [|done].
    pose proof (hasEdge_lt _ _ _ Hvu) as Hv.
    apply hasEdge_elem in Huv as [w Hw]. apply hasEdge_elem in Hvu as [w' Hw'].
    rewrite forallb_forall in Hanti.
    specialize (Hanti v ltac:(apply list_elem_of_In, elem_of_seq; lia)).
    rewrite forallb_forall in Hanti.
    specialize (Hanti (u, w') ltac:(by apply list_elem_of_In)). simpl in Hanti.
    rewrite (proj2 (hasEdge_elem G u v)) in Hanti by eauto. done.
Qed.

Lemma diamond_conditions :
  Dinic_new diamond 0 3 = inr diamondInstance ∧
  wfGraph diamond ∧ nonnegGraph diamond ∧ simpleGraph diamond ∧
  dyadicGraph 0 (2 ^ 53 # pow2 0) diamond ∧
  (sumQ (weight diamond 0) (seq 0 (numberOfNodes diamond)) <= 2 ^ 53 # pow2 0)%Q.
Proof.
  split; [reflexivity|].
  split; [apply wfGraphb_correct; reflexivity|].
  split; [apply nonnegGraphb_correct; reflexivity|].
  split; [apply simpleGraphb_correct; vm_compute; reflexivity|].
  split; [apply dyadicGraphb_correct; reflexivity|].
  vm_compute. discriminate.
Qed.






(** * Further properties *)

(** ** The levels of the search are distances *)

(** X1: with fuel for one round per node, the search returns, and it returns
    [true] exactly when a walk over edges of positive residual capacity leads
    from the source to the target. *)
Theorem canReachTargetInLevelGraph_reachable (d : Dinic) (fuel : nat) :
  wfGraph (residualGraph d) →
  source d < numberOfNodes (residualGraph d) →
  target d < numberOfNodes (residualGraph d) →
  length (parents d) = numberOfNodes (residualGraph d) →
  numberOfNodes (residualGraph d) ≤ fuel →
  ∃ b d', canReachTargetInLevelGraph fuel d = Some (b, d') ∧
          (b = true ↔ ∃ k, walkTo (residualGraph d) (source d) k (target d)).
Proof.
  intros Hwf Hs Ht Hlen Hfuel.
  destruct (canReach_tight fuel d Hwf Hs Hlen Hfuel) as (st & Hinv & Htight & Hres).
  eexists _, _. split; [exact Hres|].
  rewrite Z.ltb_lt. split.
  - intros Hlev. exists (Z.to_nat (bfs_level st !!! target d)).
    apply (level_walkTo _ _ st); [done | done | lia].
  - intros [k Hk].
    pose proof (walkTo_level _ _ st k _ Hwf Hinv Htight Hs Hk). lia.
Qed.

Lemma canReachTargetInLevelGraph_reachable_witness :
  ∃ b d', canReachTargetInLevelGraph 4 diamondStart = Some (b, d') ∧
          (b = true ↔
           ∃ k, walkTo (residualGraph diamondStart) (source diamondStart) k
                       (target diamondStart)).
Proof.
  apply (canReachTargetInLevelGraph_reachable diamondStart 4).
  - apply wfGraphb_correct. vm_compute. reflexivity.
  - vm_compute. lia.
  - vm_compute. lia.
  - vm_compute. reflexivity.
  - vm_compute. lia.
Defined.

(** X2: with fuel for one round per node, the search returns and leaves, for
    every node [c], exactly the predecessors over shortest walks: [p] is in
    the list of [c] exactly when the edge [p -> c] has positive residual
    capacity and the distance of [c] from the source is that of [p] plus
    one.  A node has a predecessor exactly when it is not the source and a
    walk over edges of positive residual capacity leads to it. *)
Theorem canReachTargetInLevelGraph_predecessors (d : Dinic) (fuel : nat) :
  wfGraph (residualGraph d) →
  source d < numberOfNodes (residualGraph d) →
  length (parents d) = numberOfNodes (residualGraph d) →
  numberOfNodes (residualGraph d) ≤ fuel →
  ∃ b d',
    canReachTargetInLevelGraph fuel d = Some (b, d') ∧
    (∀ c p, c < numberOfNodes (residualGraph d) →
       (p ∈ parents d' !!! c ↔
        (0 < weight (residualGraph d) p c)%Q ∧
        ∃ k, distance (residualGraph d) (source d) p k ∧
             distance (residualGraph d) (source d) c (S k))) ∧
    (∀ c, c < numberOfNodes (residualGraph d) →
       (parents d' !!! c ≠ [] ↔
        c ≠ source d ∧ ∃ k, walkTo (residualGraph d) (source d) k c)).
Proof.
  intros Hwf Hs Hlen Hfuel.
  destruct (canReach_tight fuel d Hwf Hs Hlen Hfuel) as (st & Hinv & Htight & Hres).
  eexists _, _. split; [exact Hres|]. simpl.
  split.
  - intros c p Hc. split.
    + intros Hin.
      destruct (bi_parents _ _ _ Hinv c p Hc Hin) as (Hp & Hpos%isPositive_iff & Hlp & Hlc).
      split; [done|]. exists (Z.to_nat (bfs_level st !!! p)). split.
      * by apply level_distance.
      * replace (S (Z.to_nat (bfs_level st !!! p)))
          with (Z.to_nat (bfs_level st !!! c)) by lia.
        apply level_distance; try done. lia.
    + intros (Hpos & k & Hdp & Hdc).
      pose proof (walkTo_lt _ _ _ _ Hwf Hs (proj1 Hdp)) as Hp.
      pose proof (walkTo_level _ _ st _ _ Hwf Hinv Htight Hs (proj1 Hdp)) as Hlp.
      pose proof (walkTo_level _ _ st _ _ Hwf Hinv Htight Hs (proj1 Hdc)) as Hlc.
      pose proof (distance_unique _ _ _ _ _ Hdp
                    (level_distance _ _ st p Hwf Hinv Htight Hs Hp ltac:(lia))) as Hk.
      pose proof (distance_unique _ _ _ _ _ Hdc
                    (level_distance _ _ st c Hwf Hinv Htight Hs Hc ltac:(lia))) as HSk.
      destruct (Htight p c Hp) as [Hin|[_ Hok]].
      * lia.
      * by apply isPositive_iff.
      * by apply elem_of_nil in Hin.
      * apply Hok. lia.
  - intros c Hc. split.
    + intros Hne. destruct (bfs_parents st !!! c) as [|p l] eqn:Hps; [done|].
      destruct (bi_parents _ _ _ Hinv c p Hc) as (Hp & _ & Hlp & Hlc).
      { rewrite Hps. left. }
      split.
      * intros ->. rewrite (bi_source _ _ _ Hinv) in Hlc. lia.
      * exists (Z.to_nat (bfs_level st !!! c)).
        apply (level_walkTo _ _ st); [done | done | lia].
    + intros [Hcs [k Hk]].
      pose proof (walkTo_level _ _ st _ _ Hwf Hinv Htight Hs Hk) as Hlc.
      apply (bi_has_parent _ _ _ Hinv c Hc).
      destruct (decide (bfs_level st !!! c = 0%Z)) as [H0|H0]; [|lia].
      by apply (bi_level0 _ _ _ Hinv c Hc) in H0.
Qed.

Lemma canReachTargetInLevelGraph_predecessors_witness :
  ∃ b d',
    canReachTargetInLevelGraph 4 diamondStart = Some (b, d') ∧
    (∀ c p, c < numberOfNodes (residualGraph diamondStart) →
       (p ∈ parents d' !!! c ↔
        (0 < weight (residualGraph diamondStart) p c)%Q ∧
        ∃ k, distance (residualGraph diamondStart) (source diamondStart) p k ∧
             distance (residualGraph diamondStart) (source diamondStart) c (S k))) ∧
    (∀ c, c < numberOfNodes (residualGraph diamondStart) →
       (parents d' !!! c ≠ [] ↔
        c ≠ source diamondStart ∧
        ∃ k, walkTo (residualGraph diamondStart) (source diamondStart) k c)).
Proof.
  apply (canReachTargetInLevelGraph_predecessors diamondStart 4).
  - apply wfGraphb_correct. vm_compute. reflexivity.
  - vm_compute. lia.
  - vm_compute. reflexivity.
  - vm_compute. lia.
Defined.

(** ** One phase: a search followed by [computeBlockingPath] *)

Lemma bottleNeck_attained g path acc :
  (bottleNeck g path acc == acc)%Q ∨
  ∃ i p c, path !! i = Some c ∧ path !! S i = Some p ∧
           (bottleNeck g path acc == weight g p c)%Q.
Proof.
  revert acc. induction path as [|c path IH]; intros acc; [left; reflexivity|].
  destruct path as [|p path]; [left; reflexivity|].
  change (bottleNeck g (c :: p :: path) acc)
    with (bottleNeck g (p :: path) (Qmin acc (weight g p c))).
  destruct (IH (Qmin acc (weight g p c))) as [Heq|(i & p' & c' & Hc & Hp & Heq)].
  - destruct (Q.min_spec acc (weight g p c)) as [[_ Hmin]|[_ Hmin]].
    + left. by rewrite Heq.
    + right. exists 0, p, c. split; [done|]. split; [done|]. by rewrite Heq.
  - right. by exists (S i), p', c'.
Qed.

(** The bottleneck of a path with an edge is the capacity of one of its
    edges, capacities being at most the initial value of the minimum. *)
Lemma bottleNeck_edge g path acc c p :
  path !! 0 = Some c → path !! 1 = Some p → (weight g p c <= acc)%Q →
  ∃ i p c, path !! i = Some c ∧ path !! S i = Some p ∧
           (bottleNeck g path acc == weight g p c)%Q.
Proof.
  intros Hc Hp Hle.
  destruct (bottleNeck_attained g path acc) as [Heq|H]; [|done].
  exists 0, p, c. split; [done|]. split; [done|].
  pose proof (bottleNeck_pathCap g path acc) as Hcap.
  destruct path as [|c' [|p' path]]; try done.
  simpl in Hc, Hp. injection Hc as ->. injection Hp as ->.
  destruct Hcap as [Hcap _]. lra.
Qed.

Lemma walk_front ps u k i c :
  (u :: walk ps u k) !! i = Some c → i < k →
  (u :: walk ps u k) !! S i = head (ps !!! c).
Proof.
  revert u i. induction k as [|k IH]; intros u i Hc Hi; [lia|].
  destruct i as [|i].
  - injection Hc as ->. simpl. by destruct (ps !!! c).
  - simpl in Hc |- *. destruct (ps !!! u) as [|v l]; [done|].
    apply (IH v i); [done | lia].
Qed.

Lemma boundedGraphb_correct M g :
  (0 <= M)%Q → boundedGraphb M g = true → ∀ u v, (weight g u v <= M)%Q.
Proof.
  intros HM H u v. unfold weight.
  destruct (adjWeight (outEdges g !!! u) v) as [w|] eqn:Hw; [|done].
  apply adjWeight_Some_elem in Hw.
  apply (forallb_outEdges _ g u (v, w) H) in Hw. by apply Qle_bool_iff in Hw.
Qed.

Lemma diamondStart_walk :
  ∃ k, walkTo (residualGraph diamondStart) (source diamondStart) k
              (target diamondStart).
Proof.
  exists 2. apply (walkTo_S _ _ 1 1 3); [apply (walkTo_S _ _ 0 0 1)|].
  - apply walkTo_O.
  - vm_compute. reflexivity.
  - vm_compute. reflexivity.
Qed.

(** X3: one phase augments along one shortest path.  When a walk over edges
    of positive residual capacity leads from the source to the target, the
    search returns [true] and [computeBlockingPath] returns after saturating
    a single path: the path follows front predecessors from the target to
    the source, repeats no node, has as many edges as the distance of the
    target from the source, and all its edges have positive residual
    capacity.  The flow returned is the least residual capacity [b] on the
    path, rounded after it is added to 0; every edge of the path is left
    with the rounded difference of its capacity and [b], its reverse edge
    with the rounded sum of its capacity and [b] (with [b] when it was not
    stored), no other capacity changes, and at least one edge of the path is
    left with residual capacity 0. *)
Theorem phase_shortest_path (d : Dinic) (fuel : nat) :
  wfGraph (residualGraph d) → nonnegGraph (residualGraph d) →
  (∀ u v, (weight (residualGraph d) u v <= edgeweight_max)%Q) →
  source d < numberOfNodes (residualGraph d) →
  target d < numberOfNodes (residualGraph d) →
  source d ≠ target d →
  length (parents d) = numberOfNodes (residualGraph d) →
  numberOfNodes (residualGraph d) + 1 ≤ fuel →
  (∃ k, walkTo (residualGraph d) (source d) k (target d)) →
  ∃ d1 b d2 path k,
    canReachTargetInLevelGraph fuel d = Some (true, d1) ∧
    computeBlockingPath fuel d1 = Some (fadd 0 b, d2) ∧
    distance (residualGraph d) (source d) (target d) k ∧
    length path = S k ∧ NoDup path ∧
    head path = Some (target d) ∧ last path = Some (source d) ∧
    (∀ i c, i < k → path !! i = Some c → path !! S i = head (parents d1 !!! c)) ∧
    pathPositive (residualGraph d) path ∧
    (0 < b)%Q ∧ pathCap (residualGraph d) b path ∧
    (∃ i p c, path !! i = Some c ∧ path !! S i = Some p ∧
              (weight (residualGraph d) p c == b)%Q ∧
              (weight (residualGraph d2) p c == 0)%Q) ∧
    (∀ p c, onPath path p c →
            weight (residualGraph d2) p c = fsub (weight (residualGraph d) p c) b ∧
            weight (residualGraph d2) c p =
              (if hasEdge (residualGraph d) c p
               then fadd (weight (residualGraph d) c p) b else b)) ∧
    (∀ x y, ¬ onPath path x y → ¬ onPath path y x →
            weight (residualGraph d2) x y = weight (residualGraph d) x y).
Proof.
  intros Hwf Hnn Hmax Hs Ht Hst Hlen Hfuel [k0 Hwalk].
  destruct (canReach_tight fuel d Hwf Hs Hlen ltac:(lia))
    as (st & Hinv & Htight & Hres).
  pose proof (walkTo_level _ _ st _ _ Hwf Hinv Htight Hs Hwalk) as Hlt.
  assert (1 ≤ bfs_level st !!! target d)%Z as Hlev.
  { destruct (decide (bfs_level st !!! target d = 0%Z)) as [H0|H0]; [|lia].
    apply (bi_level0 _ _ _ Hinv _ Ht) in H0. congruence. }
  pose proof (bfs_inv_level_graph _ _ _ Hinv) as Hlg.
  destruct (computeBlockingPath_spec fuel (set_parents d (bfs_parents st))
              (bfs_level st) Hwf Hnn Hlg Hs Ht Hlev Hfuel)
    as (b & d2 & Hblock & Hbdef & Hb & _ & _ & _ & [Hon Hoff] & _ & Hhead & Hlast & _).
  cbn [residualGraph set_parents source target parents] in *.
  unfold phasePath in *.
  destruct (Z.to_nat (bfs_level st !!! target d)) as [|k] eqn:Hk; [lia|].
  destruct (walk_spec _ _ _ _ (S k) (target d) Hlg Ht ltac:(lia))
    as (Hwlen & _ & Hnd & _ & Hpos).
  set (path := target d :: walk (bfs_parents st) (target d) (S k)) in *.
  exists (set_parents d (bfs_parents st)), b, d2, path, (S k).
  split. { rewrite Hres. f_equal. f_equal. apply Z.ltb_lt. lia. }
  split; [done|].
  split. { rewrite <- Hk. apply level_distance; try done. lia. }
  split; [unfold path; by rewrite length_cons, Hwlen|].
  split; [done|]. split; [done|]. split; [done|].
  split. { intros i c Hi Hc. by apply walk_front. }
  split; [done|]. split; [done|].
  split. { rewrite Hbdef. apply bottleNeck_pathCap. }
  split; [|split; [exact Hon | exact Hoff]].
  destruct (walk (bfs_parents st) (target d) (S k)) as [|p0 rest] eqn:Hwk;
    [done|].
  destruct (bottleNeck_edge (residualGraph d) path edgeweight_max (target d) p0)
    as (i & p & c & Hc & Hp & Heq); [done | done | apply Hmax|].
  exists i, p, c. split; [done|]. split; [done|].
  rewrite <- Hbdef in Heq. split; [by symmetry|].
  destruct (Hon p c) as [-> _]; [by exists i|].
  rewrite fsub_same; [reflexivity | by symmetry].
Qed.

Lemma phase_shortest_path_witness :
  ∃ d1 b d2 path k,
    canReachTargetInLevelGraph 5 diamondStart = Some (true, d1) ∧
    computeBlockingPath 5 d1 = Some (fadd 0 b, d2) ∧
    distance (residualGraph diamondStart) (source diamondStart)
             (target diamondStart) k ∧
    length path = S k ∧ NoDup path ∧
    head path = Some (target diamondStart) ∧
    last path = Some (source diamondStart) ∧
    (∀ i c, i < k → path !! i = Some c → path !! S i = head (parents d1 !!! c)) ∧
    pathPositive (residualGraph diamondStart) path ∧
    (0 < b)%Q ∧ pathCap (residualGraph diamondStart) b path ∧
    (∃ i p c, path !! i = Some c ∧ path !! S i = Some p ∧
              (weight (residualGraph diamondStart) p c == b)%Q ∧
              (weight (residualGraph d2) p c == 0)%Q) ∧
    (∀ p c, onPath path p c →
            weight (residualGraph d2) p c =
              fsub (weight (residualGraph diamondStart) p c) b ∧
            weight (residualGraph d2) c p =
              (if hasEdge (residualGraph diamondStart) c p
               then fadd (weight (residualGraph diamondStart) c p) b else b)) ∧
    (∀ x y, ¬ onPath path x y → ¬ onPath path y x →
            weight (residualGraph d2) x y = weight (residualGraph diamondStart) x y).
Proof.
  apply (phase_shortest_path diamondStart 5).
  - apply wfGraphb_correct. vm_compute. reflexivity.
  - apply nonnegGraphb_correct. vm_compute. reflexivity.
  - apply boundedGraphb_correct; vm_compute; (reflexivity || discriminate).
  - vm_compute. lia.
  - vm_compute. lia.
  - vm_compute. lia.
  - vm_compute. reflexivity.
  - vm_compute. lia.
  - exact diamondStart_walk.
Defined.

(** ** The edges of the residual graph *)

Lemma edgeKeys_lookup g u : edgeKeys g !!! u = (outEdges g !!! u).*1.
Proof.
  unfold edgeKeys. rewrite !list_lookup_total_alt, list_lookup_fmap.
  by destruct (outEdges g !! u).
Qed.

Lemma hasEdge_keys g u v : hasEdge g u v = true ↔ v ∈ edgeKeys g !!! u.
Proof.
  rewrite edgeKeys_lookup. unfold hasEdge.
  destruct (adjWeight (outEdges g !!! u) v) as [w|] eqn:Hw.
  - split; [intros _|done].
    apply list_elem_of_fmap. exists (v, w). split; [done|].
    by apply adjWeight_Some_elem.
  - apply adjWeight_None in Hw. split; [done | by intros ?%Hw].
Qed.

Lemma hasEdge_ext g1 g2 u v :
  edgeKeys g1 = edgeKeys g2 → hasEdge g1 u v = hasEdge g2 u v.
Proof.
  intros Hk.
  pose proof (hasEdge_keys g1 u v) as H1. pose proof (hasEdge_keys g2 u v) as H2.
  rewrite Hk in H1.
  destruct (hasEdge g1 u v), (hasEdge g2 u v); try done.
  - symmetry. apply H2, H1. done.
  - apply H1, H2. done.
Qed.

Lemma adjSetWeight_keys adj v w : (adjSetWeight adj v w).*1 = adj.*1.
Proof.
  induction adj as [|[x w0] adj IH]; [done|].
  cbn [adjSetWeight]. destruct (Nat.eqb x v); [done|].
  rewrite !fmap_cons. by rewrite IH.
Qed.

Lemma edgeKeys_setWeight g u v w :
  hasEdge g u v = true → edgeKeys (setWeight g u v w) = edgeKeys g.
Proof.
  intros Hhas. unfold setWeight, edgeKeys. rewrite Hhas. simpl.
  rewrite (list_fmap_alter _ _ id).
  - apply list_eq. intros i. destruct (decide (i = u)) as [->|Hne].
    + rewrite list_lookup_alter_eq. by destruct (_ !! u).
    + by rewrite list_lookup_alter_ne.
  - apply Forall_forall. intros adj _. apply adjSetWeight_keys.
Qed.

Lemma saturateEdge_keys b g ps p c :
  hasEdge g p c = true → hasEdge g c p = true →
  edgeKeys (saturateEdge b (g, ps) p c).1 = edgeKeys g.
Proof.
  intros Hpc Hcp. unfold saturateEdge; simpl.
  pose proof (edgeKeys_setWeight g p c (fsub (weight g p c) b) Hpc) as Hk.
  rewrite (hasEdge_ext _ g c p Hk), Hcp.
  rewrite edgeKeys_setWeight; [done|].
  by rewrite (hasEdge_ext _ g c p Hk).
Qed.

Lemma pathStored_ext g1 g2 path :
  edgeKeys g1 = edgeKeys g2 → pathStored g1 path → pathStored g2 path.
Proof.
  intros Hk. induction path as [|c path IH]; [done|].
  destruct path as [|p path]; [done|].
  intros (Hpc & Hcp & Hrest).
  split; [by rewrite <- (hasEdge_ext g1 g2)|].
  split; [by rewrite <- (hasEdge_ext g1 g2)|]. by apply IH.
Qed.

(** Along a path of stored edges [saturatePath] changes weights only. *)
Lemma saturatePath_keys b path g ps :
  pathStored g path → edgeKeys (saturatePath b (g, ps) path).1 = edgeKeys g.
Proof.
  revert g ps. induction path as [|c path IH]; intros g ps; [done|].
  destruct path as [|p path]; [done|].
  intros (Hpc & Hcp & Hrest).
  change (saturatePath b (g, ps) (c :: p :: path))
    with (saturatePath b (saturateEdge b (g, ps) p c) (p :: path)).
  pose proof (saturateEdge_keys b g ps p c Hpc Hcp) as Hk.
  destruct (saturateEdge b (g, ps) p c) as [g' ps']. simpl in Hk.
  rewrite IH; [done|]. by apply (pathStored_ext g).
Qed.

Lemma pathPositive_stored g path :
  (∀ u v, hasEdge g u v = hasEdge g v u) →
  pathPositive g path → pathStored g path.
Proof.
  intros Hsym. induction path as [|c path IH]; [done|].
  destruct path as [|p path]; [done|].
  intros [Hpos Hrest].
  assert (hasEdge g p c = true) as Hpc.
  { destruct (hasEdge g p c) eqn:Hhas; [done|].
    rewrite (weight_no_edge g p c Hhas) in Hpos. lra. }
  split; [done|]. split; [by rewrite Hsym|]. by apply IH.
Qed.

(** [initializeResidualGraph] stores every edge with its reverse edge. *)
Lemma hasEdge_initial_symmetric d u v :
  hasEdge (residualGraph (initializeResidualGraph d)) u v =
  hasEdge (residualGraph (initializeResidualGraph d)) v u.
Proof.
  assert (∀ x y, hasEdge (residualGraph (initializeResidualGraph d)) x y = true →
                 hasEdge (residualGraph (initializeResidualGraph d)) y x = true)
    as Himp.
  { intros x y [w Hin]%hasEdge_elem.
    apply elem_of_initializeResidualGraph, elem_of_residualEntries in Hin
      as (u' & v' & w' & Hu' & Hvw & Hcase).
    apply hasEdge_elem.
    destruct Hcase as [[Hx He]|[Hx He]]; injection He as Hy Hw; subst;
      eexists; apply elem_of_initializeResidualGraph, elem_of_residualEntries;
      exists u', v', w'; (split; [done|]); (split; [done|]).
    - right. split; reflexivity.
    - left. split; reflexivity. }
  destruct (hasEdge _ u v) eqn:Huv.
  - symmetry. by apply Himp.
  - destruct (hasEdge _ v u) eqn:Hvu; [|done].
    apply Himp in Hvu. congruence.
Qed.

(** X4: throughout a run the residual graph keeps the edges it was
    initialised with: at every phase boundary every node has the neighbours
    stored at initialisation, in the same order, and every stored edge has
    its reverse edge stored.  So [computeBlockingPath] changes weights only:
    an insertion by [addEdge], which appends an entry, has not taken
    place. *)
Theorem residual_edges_fixed (G : Graph) (s t : node) (d0 d : Dinic) :
  Dinic_new G s t = inr d0 →
  nonnegGraph G → s < numberOfNodes G → t < numberOfNodes G →
  phase_state d0 d →
  edgeKeys (residualGraph d) = edgeKeys (residualGraph (run_start d0)) ∧
  (∀ u v, hasEdge (residualGraph d) u v = hasEdge (residualGraph d) v u).
Proof.
  intros (-> & Hst & _)%Dinic_new_inr Hnn Hs Ht.
  set (d0 := mkDinic G s t emptyGraph (replicate (numberOfNodes G) []) 0%Q false).
  assert (length (parents d0) = numberOfNodes (graph d0)) as Hlen
    by (simpl; by rewrite length_replicate).
  revert d.
  assert (∀ d, phase_state d0 d →
               (∀ u v, hasEdge (residualGraph d) u v = hasEdge (residualGraph d) v u) →
               ∀ fuel d1 fuel' flow d2,
                 canReachTargetInLevelGraph fuel d = Some (true, d1) →
                 computeBlockingPath fuel' d1 = Some (flow, d2) →
                 edgeKeys (residualGraph d2) = edgeKeys (residualGraph d)) as Hstep.
  { intros d Hstate Hsym fuel d1 fuel' flow d2 Hbfs Hblock.
    pose proof (phase_state_inv d0 d Hnn Hlen Hs Ht Hst Hstate)
      as [Hg Hso Hta Hn Hl Hwf Hnn'].
    simpl in Hg, Hso, Hta, Hn, Hl.
    set (F := Nat.max (Nat.max fuel fuel') (numberOfNodes (residualGraph d) + 1)).
    apply (canReach_mono fuel F) in Hbfs; [|lia].
    apply (computeBlockingPath_mono fuel' F) in Hblock; [|lia].
    destruct (canReach_tight F d Hwf) as (st & Hinv & _ & Hres);
      [congruence | congruence | lia |].
    rewrite Hres in Hbfs. injection Hbfs as Hb <-. apply Z.ltb_lt in Hb.
    assert (1 ≤ bfs_level st !!! target d)%Z as Hlev.
    { destruct (decide (bfs_level st !!! target d = 0%Z)) as [H0|H0]; [|lia].
      apply (bi_level0 _ _ _ Hinv) in H0; congruence. }
    pose proof (bfs_inv_level_graph _ _ _ Hinv) as Hlg.
    assert (source d < numberOfNodes (residualGraph d)) as Hs' by congruence.
    assert (target d < numberOfNodes (residualGraph d)) as Ht' by congruence.
    destruct (computeBlockingPath_spec F (set_parents d (bfs_parents st))
                (bfs_level st) Hwf Hnn' Hlg Hs' Ht' Hlev ltac:(simpl; lia))
      as (b & d2' & Hblock' & _ & _ & _ & _ & _ & _ & _ & _ & _ & Hg2 & _).
    assert (d2' = d2) as -> by congruence.
    cbn [residualGraph set_parents source target parents] in Hg2.
    rewrite Hg2. apply saturatePath_keys, pathPositive_stored; [done|].
    unfold phasePath.
    apply (walk_spec _ (source d) (bfs_level st)); [done | congruence | lia]. }
  intros d Hstate.
  induction Hstate as [|d fuel fuel' d1 flow d2 Hstate IH Hbfs Hblock|d m _ IH].
  - split; [done|]. intros u v. apply hasEdge_initial_symmetric.
  - destruct IH as [Hkeys Hsym].
    pose proof (Hstep d Hstate Hsym _ _ _ _ _ Hbfs Hblock) as Hk.
    split; [congruence|].
    intros u v. rewrite !(hasEdge_ext _ _ _ _ Hk). apply Hsym.
  - done.
Qed.

Lemma residual_edges_fixed_witness :
  edgeKeys (residualGraph diamondAfterPhase) =
    edgeKeys (residualGraph (run_start diamondInstance)) ∧
  (∀ u v, hasEdge (residualGraph diamondAfterPhase) u v =
          hasEdge (residualGraph diamondAfterPhase) v u).
Proof.
  apply (residual_edges_fixed diamond 0 3 diamondInstance diamondAfterPhase).
  - reflexivity.
  - apply nonnegGraphb_correct. vm_compute. reflexivity.
  - vm_compute. lia.
  - vm_compute. lia.
  - eapply (phase_next _ diamondStart 4 5).
    + apply phase_start.
    + vm_compute. reflexivity.
    + vm_compute. reflexivity.
Defined.

(** ** A target out of reach *)

(** A walk in the residual graph as initialised is a walk in the input
    graph: the reverse edges start with capacity 0. *)
Lemma walkTo_initial d k v :
  walkTo (residualGraph (initializeResidualGraph d)) (source d) k v →
  positiveWalk (graph d) (source d) v.
Proof.
  induction 1 as [|k u v _ IH Hw]; [constructor|].
  unfold weight in Hw.
  destruct (adjWeight _ v) as [w|] eqn:Hadj; [|unfold nullWeight in Hw; lra].
  apply adjWeight_Some_elem in Hadj.
  apply elem_of_initializeResidualGraph, elem_of_residualEntries in Hadj
    as (u' & v' & w' & Hu' & [Hv' Hvw]%elem_of_inNeighborsOf & [[Hx He]|[Hx He]]);
    injection He as Hy Hw'; subst; [|lra].
  by eapply positiveWalk_step.
Qed.

Lemma positiveWalk_no_out G s v :
  (∀ x w, (x, w) ∈ outEdges G !!! s → ¬ (0 < w)%Q) →
  positiveWalk G s v → v = s.
Proof.
  intros Hno. induction 1 as [|u v w _ -> Hin Hw]; [done|].
  by destruct (Hno v w Hin).
Qed.

(** X5: when no walk over edges of positive capacity leads from the source
    to the target in the input graph (for instance in a graph without
    edges), [run] ends after a single search: the first search returns
    [false], so the loop of [run] ends in its first round, without a call of
    [computeBlockingPath]; the residual graph is left as initialised and
    [getMaxFlow] returns 0, whatever the tolerance and the sign of the other
    capacities. *)
Theorem run_unreachable_target (eps : Q) (G : Graph) (s t : node) (d0 : Dinic)
    (fuel : nat) :
  Dinic_new G s t = inr d0 →
  s < numberOfNodes G → t < numberOfNodes G →
  ¬ positiveWalk G s t →
  numberOfNodes G ≤ fuel →
  ∃ d1,
    canReachTargetInLevelGraph fuel (run_start d0) = Some (false, d1) ∧
    run_loop eps fuel 1 (run_start d0) = Some d1 ∧
    phaseFlows eps fuel fuel (run_start d0) = Some [] ∧
    run eps fuel d0 = Some (set_hasRun d1 true) ∧
    getMaxFlow (set_hasRun d1 true) = inr 0%Q ∧
    residualGraph d1 = residualGraph (initializeResidualGraph d0).
Proof.
  intros (-> & Hst & _)%Dinic_new_inr Hs Ht Hno Hfuel.
  set (d0 := mkDinic G s t emptyGraph (replicate (numberOfNodes G) []) 0%Q false).
  pose proof (initializeResidualGraph_nodes d0) as Hn. simpl in Hn.
  destruct (canReach_tight fuel (run_start d0)) as (st & Hinv & Htight & Hres).
  { apply wfGraph_initial. }
  { simpl. by rewrite Hn. }
  { simpl. by rewrite Hn, length_replicate. }
  { simpl. by rewrite Hn. }
  assert ((-1 <? bfs_level st !!! t)%Z = false) as Hfalse.
  { apply Z.ltb_ge.
    pose proof (bi_level_ge _ _ _ Hinv t) as Hge. simpl in Hge.
    rewrite Hn in Hge. specialize (Hge Ht).
    destruct (decide (bfs_level st !!! t = (-1)%Z)) as [H1|H1]; [lia|].
    destruct Hno. apply (walkTo_initial d0 (Z.to_nat (bfs_level st !!! t))).
    apply (level_walkTo _ _ st); [done | simpl; by rewrite Hn | lia]. }
  simpl in Hres. rewrite Hfalse in Hres.
  destruct fuel as [|fuel]; [lia|].
  exists (set_parents (run_start d0) (bfs_parents st)).
  split; [exact Hres|].
  split; [cbn [run_loop]; by rewrite Hres|].
  split; [cbn [phaseFlows]; by rewrite Hres|].
  split; [unfold run; fold (run_start d0); cbn [run_loop]; by rewrite Hres|].
  split; reflexivity.
Qed.

Lemma run_unreachable_target_witness :
  ∃ d1,
    canReachTargetInLevelGraph 2 (run_start (instanceOn backEdge 0 1)) =
      Some (false, d1) ∧
    run_loop tolerance 2 1 (run_start (instanceOn backEdge 0 1)) = Some d1 ∧
    phaseFlows tolerance 2 2 (run_start (instanceOn backEdge 0 1)) = Some [] ∧
    run tolerance 2 (instanceOn backEdge 0 1) = Some (set_hasRun d1 true) ∧
    getMaxFlow (set_hasRun d1 true) = inr 0%Q ∧
    residualGraph d1 =
      residualGraph (initializeResidualGraph (instanceOn backEdge 0 1)).
Proof.
  apply (run_unreachable_target tolerance backEdge 0 1).
  - reflexivity.
  - vm_compute. lia.
  - vm_compute. lia.
  - intros Hwalk. apply positiveWalk_no_out in Hwalk; [lia|].
    intros x w Hin. vm_compute in Hin. by apply elem_of_nil in Hin.
  - vm_compute. lia.
Defined.

(** ** The value [run] returns, whatever the tolerance *)

(** With enough fuel the loop of [run] ends; the value it leaves in
    [maxFlow] is the one of a phase boundary [dl] whose residual graph
    accounts for it. *)
Lemma run_loop_flow eps D B d0 inner :
  exactOn D B →
  nonnegGraph (graph d0) → length (parents d0) = numberOfNodes (graph d0) →
  source d0 < numberOfNodes (graph d0) → target d0 < numberOfNodes (graph d0) →
  source d0 ≠ target d0 →
  (∀ x y, multipleOf D (weight (residualGraph (run_start d0)) x y)) →
  (∀ x y, x ≠ y → (weight (residualGraph (run_start d0)) x y +
                    weight (residualGraph (run_start d0)) y x <= B)%Q) →
  (sumQ (weight (residualGraph (run_start d0)) (source d0))
        (seq 0 (numberOfNodes (graph d0))) <= B)%Q →
  numberOfNodes (graph d0) + 1 ≤ inner →
  ∀ k fuel d,
    phase_state d0 d → flow_inv D d0 d →
    (sumQ (weight (residualGraph (run_start d0)) (source d0))
          (seq 0 (numberOfNodes (graph d0))) - maxFlow d < steps D k)%Q →
    k ≤ fuel →
    ∃ d' dl,
      run_loop eps inner fuel d = Some d' ∧
      phase_state d0 dl ∧ flow_inv D d0 dl ∧
      maxFlow d' = maxFlow dl.
Proof.
  intros HE Hnn Hlen Hs Ht Hst Hm0 HB0 HBs Hinner.
  induction k as [|k IH]; intros fuel d Hstate Hflow Hmeasure Hfuel.
  { exfalso. change (steps D 0) with 0%Q in Hmeasure.
    pose proof (phase_state_inv d0 d Hnn Hlen Hs Ht Hst Hstate) as Hinv.
    pose proof (fi_out _ _ _ Hflow (source d0) Hs) as Hout.
    unfold atNode in Hout. rewrite decide_True in Hout by done.
    rewrite decide_False in Hout by congruence.
    assert (0 <= sumQ (weight (residualGraph d) (source d0))
                      (seq 0 (numberOfNodes (graph d0))))%Q.
    { apply sumQ_nonneg. intros y _. apply nonnegGraph_weight, Hinv. }
    lra. }
  destruct fuel as [|fuel]; [lia|].
  pose proof (phase_state_inv d0 d Hnn Hlen Hs Ht Hst Hstate) as Hrun.
  pose proof (phase_state_exact D B d0 d HE Hnn Hlen Hs Ht Hst Hm0 HB0 Hstate)
    as Hex.
  pose proof Hrun as [Hg Hso Hta Hn Hl Hwf Hnn'].
  destruct (phase_spec inner d)
    as (st & d1 & Hsearch & Hinv & Hclosed & -> & [[Hunreached Hfalse]|[Htrue Hphase]]);
    try (done || lia || congruence).
  - (* the target is not reached *)
    exists (set_parents d (bfs_parents st)), d.
    cbn [run_loop]. rewrite Hfalse. done.
  - (* one more path *)
    destruct Hphase as (b & d2 & Hblock & Hbdef & Hb & Hn2 & Hwf2 & Hnn2 & _ &
                        Hlt & Hhead & Hlast & Hg2 & _ & Hnd).
    cbn [residualGraph set_parents source target parents graph] in *.
    pose proof (computeBlockingPath_frame _ _ _ _ Hblock)
      as (Hg2' & Hs2 & Ht2 & Hm2 & _ & Hl2).
    cbn [residualGraph set_parents source target parents graph maxFlow] in *.
    cbn [run_loop]. rewrite Htrue, Hblock.
    destruct (NumericTools_equal eps (fadd 0 b) 0) eqn:Hzero; cbn [negb].
    { (* the flow of the phase is taken for zero *)
      exists d2, d. done. }
    destruct (flow_inv_phase D B d0 d (bfs_parents st)
                (phasePath (bfs_parents st) (target d) (bfs_level st)) b d2
                HE Hrun Hex Hflow Hs Hst Hm0 HB0 HBs Hbdef Hb Hnd Hlt Hhead Hlast
                Hg2 Hm2 Hnn2) as (Hbmult & Hflow0 & Hm3 & _ & Hflow3).
    pose proof (multipleOf_positive D b Hbmult Hb) as Hbge.
    set (d3 := set_maxFlow d2 (fadd (maxFlow d2) (fadd 0 b))) in *.
    assert (phase_state d0 d3) as Hstate3.
    { apply phase_accumulate. by eapply phase_next. }
    apply (IH fuel d3 Hstate3 Hflow3); [|lia].
    cbn [d3 set_maxFlow maxFlow].
    change (steps D (S k)) with (steps D k + (1 # D))%Q in Hmeasure. lra.
Qed.

Lemma residualFlow_net_at G r u v :
  simpleGraph G → (∀ u v, (0 <= weight r u v)%Q) →
  (∀ u v, (weight r u v + weight r v u == weight G u v + weight G v u)%Q) →
  (residualFlow G r u v - residualFlow G r v u == weight G u v - weight r u v)%Q.
Proof.
  intros [_ Hanti] Hnonneg Hpairs. unfold residualFlow.
  pose proof (Hpairs u v). pose proof (Hnonneg u v). pose proof (Hnonneg v u).
  destruct (hasEdge G u v) eqn:Huv, (hasEdge G v u) eqn:Hvu.
  - apply Hanti in Huv. congruence.
  - rewrite (weight_no_edge G v u Hvu) in *. lra.
  - rewrite (weight_no_edge G u v Huv) in *. lra.
  - rewrite (weight_no_edge G u v Huv), (weight_no_edge G v u Hvu) in *. lra.
Qed.

(** The value of the flow a residual graph stands for is what [maxFlow]
    accounts for. *)
Lemma residualFlow_value_at G r s t m :
  simpleGraph G → s < numberOfNodes G → s ≠ t →
  (∀ u v, (0 <= weight r u v)%Q) →
  (∀ u v, (weight r u v + weight r v u == weight G u v + weight G v u)%Q) →
  (∀ x, x < numberOfNodes G →
        (sumQ (weight G x) (seq 0 (numberOfNodes G)) -
         sumQ (weight r x) (seq 0 (numberOfNodes G)) ==
         atNode m (Some s) x - atNode m (Some t) x)%Q) →
  (flow_value G s (residualFlow G r) == m)%Q.
Proof.
  intros Hsimple Hs Hst Hnonneg Hpairs Hout. unfold flow_value.
  pose proof (sumQ_minus (fun v => residualFlow G r s v) (fun v => residualFlow G r v s)
                (seq 0 (numberOfNodes G))) as Hnet.
  pose proof (sumQ_minus (weight G s) (weight r s) (seq 0 (numberOfNodes G)))
    as Hphi.
  assert (sumQ (fun v => residualFlow G r s v - residualFlow G r v s)%Q
               (seq 0 (numberOfNodes G)) ==
          sumQ (fun v => weight G s v - weight r s v)%Q (seq 0 (numberOfNodes G)))%Q
    as Heq by (apply sumQ_ext; intros v _; by apply residualFlow_net_at).
  pose proof (Hout s Hs) as Hs0. unfold atNode in Hs0.
  rewrite decide_True in Hs0 by done.
  rewrite decide_False in Hs0 by (intros [= ?]; done).
  cbv beta in Hnet. lra.
Qed.

(** X6: on a simple graph with non-negative capacities that are whole
    multiples of some [1 / 2^p], [p <= 1074], at most [2^53 / 2^p] each and,
    over the edges that leave the source, in total, whatever the tolerance,
    [run] completes with enough fuel and [getMaxFlow] returns a value that
    is not negative and is the value of a flow of the input graph: [run]
    reports no more than can be sent.  The value and the flow on every pair
    of nodes are whole multiples of [1 / 2^p] as well: integers for integer
    capacities. *)
Theorem run_returns_flow_value (eps : Q) (p : nat) (G : Graph) (s t : node)
    (d0 : Dinic) :
  Dinic_new G s t = inr d0 →
  s < numberOfNodes G → t < numberOfNodes G →
  wfGraph G → nonnegGraph G → simpleGraph G →
  (Z.of_nat p ≤ 1074)%Z →
  dyadicGraph p (2 ^ 53 # pow2 p) G →
  (sumQ (weight G s) (seq 0 (numberOfNodes G)) <= 2 ^ 53 # pow2 p)%Q →
  ∃ fuel0, ∀ fuel, fuel0 ≤ fuel →
    ∃ d' x f, run eps fuel d0 = Some d' ∧ getMaxFlow d' = inr x ∧
              (0 <= x)%Q ∧ feasible_flow G s t f ∧ (flow_value G s f == x)%Q ∧
              multipleOf (pow2 p) x ∧ (∀ u v, multipleOf (pow2 p) (f u v)).
Proof.
  intros (-> & Hst & _)%Dinic_new_inr Hs Ht Hwf Hnn Hsimple Hp Hdy Hsum.
  set (d0 := mkDinic G s t emptyGraph (replicate (numberOfNodes G) []) 0%Q false).
  assert (length (parents d0) = numberOfNodes (graph d0)) as Hlen
    by (simpl; by rewrite length_replicate).
  destruct (simple_dyadic_exact p d0 Hwf Hsimple Hp Hdy) as (HE & Hw0 & Hm0 & HB0).
  destruct (steps_archimedean (pow2 p)
              (sumQ (weight (residualGraph (run_start d0)) s)
                    (seq 0 (numberOfNodes G)) - 0)) as [k Hk].
  exists (Nat.max k (numberOfNodes G + 1)). intros fuel Hfuel.
  destruct (run_loop_flow eps (pow2 p) (2 ^ 53 # pow2 p) d0 fuel HE)
    with (k := k) (fuel := fuel) (d := run_start d0)
    as (d' & dl & Hloop & Hstate & Hflow & Hmax);
    try (done || (simpl; lia)).
  { erewrite sumQ_ext; [exact Hsum|]. intros y _. by rewrite Hw0. }
  { apply phase_start. }
  { by apply flow_inv_start. }
  pose proof (phase_state_inv d0 dl Hnn Hlen Hs Ht Hst Hstate)
    as [Hg Hso Hta Hn Hl Hwf' Hnn'].
  pose proof (phase_state_exact _ _ d0 dl HE Hnn Hlen Hs Ht Hst Hm0 HB0 Hstate)
    as [_ Hpairs].
  exists (set_hasRun d' true), (maxFlow dl), (residualFlow G (residualGraph dl)).
  split; [unfold run; fold (run_start d0); by rewrite Hloop|].
  split; [unfold getMaxFlow, assureFinished; cbn [hasRun set_hasRun maxFlow];
          by rewrite Hmax|].
  split; [apply Hflow|].
  assert (∀ u v, (0 <= weight (residualGraph dl) u v)%Q) as Hnonneg
    by (intros u v; by apply nonnegGraph_weight).
  assert (∀ u v, (weight (residualGraph dl) u v + weight (residualGraph dl) v u ==
                  weight G u v + weight G v u)%Q) as Hpairs'
    by (intros u v; rewrite <- !Hw0; apply Hpairs).
  assert (∀ x, x < numberOfNodes G →
               (sumQ (weight G x) (seq 0 (numberOfNodes G)) -
                sumQ (weight (residualGraph dl) x) (seq 0 (numberOfNodes G)) ==
                atNode (maxFlow dl) (Some s) x - atNode (maxFlow dl) (Some t) x)%Q)
    as Hout.
  { intros x Hx. pose proof (fi_out _ _ _ Hflow x Hx) as Hout. simpl in Hout.
    rewrite <- Hout. apply Qplus_inj_r. apply sumQ_ext. intros y _.
    by rewrite <- Hw0. }
  assert (∀ u v, multipleOf (pow2 p) (weight G u v)) as HmultG
    by (intros u v; rewrite <- Hw0; apply Hm0).
  split; [by apply (residualFlow_feasible G (residualGraph dl) s t (maxFlow dl))|].
  split; [by apply (residualFlow_value_at G (residualGraph dl) s t (maxFlow dl))|].
  split.
  - by apply (flow_inv_maxFlow (pow2 p) d0 dl).
  - intros u v. unfold residualFlow.
    destruct (hasEdge G u v); [|apply multipleOf_0].
    apply (multipleOf_eq (pow2 p) (weight G u v + - weight (residualGraph dl) u v)%Q);
      [lra|].
    apply multipleOf_plus; [apply HmultG | apply multipleOf_opp, Hflow].
Qed.

Lemma run_returns_flow_value_witness :
  ∃ fuel0, ∀ fuel, fuel0 ≤ fuel →
    ∃ d' x f,
      run tolerance fuel (instanceOn tinyEdge 0 1) = Some d' ∧
      getMaxFlow d' = inr x ∧ (0 <= x)%Q ∧
      feasible_flow tinyEdge 0 1 f ∧ (flow_value tinyEdge 0 f == x)%Q ∧
      multipleOf (pow2 44) x ∧ (∀ u v, multipleOf (pow2 44) (f u v)).
Proof.
  apply (run_returns_flow_value tolerance 44 tinyEdge 0 1).
  - reflexivity.
  - vm_compute. lia.
  - vm_compute. lia.
  - apply wfGraphb_correct. vm_compute. reflexivity.
  - apply nonnegGraphb_correct. vm_compute. reflexivity.
  - apply simpleGraphb_correct. vm_compute. reflexivity.
  - lia.
  - apply dyadicGraphb_correct; vm_compute; reflexivity.
  - vm_compute. discriminate.
Defined.

(** ** [run] starts from scratch *)

(** X7: [run] reads nothing an earlier call has left in the instance: two
    instances on the same graph, source and target, and with as many
    predecessor lists, give the same result, whatever their residual graphs,
    predecessor lists, [maxFlow] and [hasRun] are. *)
Theorem run_ignores_state (eps : Q) (fuel : nat) (d1 d2 : Dinic) :
  graph d1 = graph d2 → source d1 = source d2 → target d1 = target d2 →
  length (parents d1) = length (parents d2) →
  run eps fuel d1 = run eps fuel d2.
Proof.
  destruct d1 as [g1 s1 t1 r1 ps1 m1 h1], d2 as [g s t r2 ps2 m2 h2]; simpl.
  intros -> -> -> Hlen. unfold run.
  change (set_maxFlow (initializeResidualGraph (mkDinic g s t r1 ps1 m1 h1)) 0%Q)
    with (set_hasRun
            (set_parents
               (set_maxFlow (initializeResidualGraph (mkDinic g s t r2 ps2 m2 h2)) 0%Q)
               ps1) h1).
  rewrite run_loop_set_hasRun, run_loop_set_parents by done.
  by destruct (run_loop _ _ _ _).
Qed.

Lemma run_ignores_state_witness :
  run tolerance 8 diamondFinished = run tolerance 8 diamondInstance.
Proof.
  apply (run_ignores_state tolerance 8 diamondFinished diamondInstance);
    reflexivity.
Defined.

(** ** The order in which [initializeResidualGraph] takes the nodes *)

Lemma initializeResidualGraph_in_entries order d :
  residualGraph (initializeResidualGraph_in order d) =
    completeGraph (addHalfEdges (GraphBuilder_new (numberOfNodes (graph d)) true true false)
                                (residualEntries_in (graph d) order)).
Proof.
  unfold initializeResidualGraph_in, residualEntries_in; simpl. f_equal.
  generalize (GraphBuilder_new (numberOfNodes (graph d)) true true false).
  induction order as [|u us IH]; intros b; [done|].
  simpl. rewrite addHalfEdges_app, IH. f_equal. apply foldl_addResidualEdges.
Qed.

(** Inserted in any order, the half edges give every node the same entries. *)
Lemma addHalfEdges_Permutation n l1 l2 x :
  l1 ≡ₚ l2 → Forall (fun p => p.1 < n) l2 →
  builderOutEdges (addHalfEdges (GraphBuilder_new n true true false) l1) !!! x ≡ₚ
  builderOutEdges (addHalfEdges (GraphBuilder_new n true true false) l2) !!! x.
Proof.
  intros Hperm Hlt.
  rewrite !addHalfEdges_lookup
    by (simpl; rewrite length_replicate; by rewrite ?Hperm).
  by rewrite Hperm.
Qed.

(** The weights of a graph that has the entries [initializeResidualGraph]
    inserts, in whatever order, are those of the input graph when this one
    is simple. *)
Lemma weight_of_entries G r u v :
  (∀ x e, e ∈ outEdges r !!! x ↔ (x, e) ∈ residualEntries G) →
  wfGraph G → simpleGraph G → weight r u v = weight G u v.
Proof.
  intros Hentries Hwf [Hnd Hanti]. unfold weight at 1.
  destruct (hasEdge G u v) eqn:Hhas.
  - pose proof Hhas as [w Hw]%hasEdge_elem.
    assert (weight G u v = w) as ->.
    { unfold weight. by rewrite (adjWeight_unique _ v w Hw)
        by (intros w' Hw'; by eapply NoDup_fst_unique). }
    assert (u < numberOfNodes G) as Hu by (by eapply hasEdge_lt).
    assert (v < numberOfNodes G) as Hv by (by eapply Hwf).
    rewrite (adjWeight_unique _ v w); [done | |].
    + apply Hentries, elem_of_residualEntries.
      exists v, u, w. split; [done|]. split; [|by left].
      by apply elem_of_inNeighborsOf.
    + intros w' Hin.
      apply Hentries, elem_of_residualEntries in Hin
        as (u' & v' & w'' & Hu' & [Hv' Hvw]%elem_of_inNeighborsOf &
            [[Hx He]|[Hx He]]); simplify_eq.
      * by eapply NoDup_fst_unique.
      * exfalso. apply Hanti in Hhas.
        rewrite (proj2 (hasEdge_elem _ _ _)) in Hhas by eauto. done.
  - rewrite (weight_no_edge _ _ _ Hhas).
    destruct (adjWeight _ v) as [w'|] eqn:Hw'; [|done].
    apply adjWeight_Some_elem in Hw'.
    apply Hentries, elem_of_residualEntries in Hw'
      as (u' & v' & w'' & Hu' & [Hv' Hvw]%elem_of_inNeighborsOf &
          [[Hx He]|[Hx He]]); simplify_eq; [|done].
    rewrite (proj2 (hasEdge_elem _ _ _)) in Hhas by eauto. done.
Qed.

(** X8: the residual graph does not depend on the order in which
    [parallelForNodes] takes the nodes, up to the order of the entries of a
    node: for every order the graph has the nodes of the input graph and
    every node has the same entries, so the same edges; when the input graph
    is simple, every pair of nodes has the same residual capacity as well. *)
Theorem initializeResidualGraph_order (d : Dinic) (order : list node) :
  order ≡ₚ seq 0 (numberOfNodes (graph d)) →
  numberOfNodes (residualGraph (initializeResidualGraph_in order d)) =
    numberOfNodes (graph d) ∧
  (∀ u, outEdges (residualGraph (initializeResidualGraph_in order d)) !!! u ≡ₚ
        outEdges (residualGraph (initializeResidualGraph d)) !!! u) ∧
  (∀ u v, hasEdge (residualGraph (initializeResidualGraph_in order d)) u v =
          hasEdge (residualGraph (initializeResidualGraph d)) u v) ∧
  (wfGraph (graph d) → simpleGraph (graph d) →
   ∀ u v, weight (residualGraph (initializeResidualGraph_in order d)) u v =
          weight (residualGraph (initializeResidualGraph d)) u v).
Proof.
  intros Hperm.
  assert (residualEntries_in (graph d) order ≡ₚ residualEntries (graph d)) as Hent.
  { unfold residualEntries_in, residualEntries. by rewrite Hperm. }
  assert (∀ u, outEdges (residualGraph (initializeResidualGraph_in order d)) !!! u ≡ₚ
               outEdges (residualGraph (initializeResidualGraph d)) !!! u) as Hout.
  { intros u.
    rewrite initializeResidualGraph_in_entries, initializeResidualGraph_entries.
    simpl. apply addHalfEdges_Permutation; [done | apply residualEntries_lt]. }
  split.
  { rewrite initializeResidualGraph_in_entries. unfold numberOfNodes at 1. simpl.
    destruct (addHalfEdges_flags
                (GraphBuilder_new (numberOfNodes (graph d)) true true false)
                (residualEntries_in (graph d) order)) as (_ & _ & ->).
    simpl. apply length_replicate. }
  split; [done|]. split.
  - intros u v.
    pose proof (hasEdge_elem (residualGraph (initializeResidualGraph_in order d)) u v)
      as H1.
    pose proof (hasEdge_elem (residualGraph (initializeResidualGraph d)) u v) as H2.
    setoid_rewrite (Hout u) in H1.
    destruct (hasEdge _ u v), (hasEdge _ u v); try done.
    + symmetry. apply H2, H1. done.
    + apply H1, H2. done.
  - intros Hwf Hsimple u v. rewrite weight_initial by done.
    apply weight_of_entries; try done.
    intros x e. rewrite (Hout x). apply elem_of_initializeResidualGraph.
Qed.

Lemma initializeResidualGraph_order_witness :
  numberOfNodes (residualGraph (initializeResidualGraph_in [3; 1; 0; 2] diamondInstance)) =
    numberOfNodes (graph diamondInstance) ∧
  (∀ u, outEdges (residualGraph (initializeResidualGraph_in [3; 1; 0; 2] diamondInstance))
          !!! u ≡ₚ
        outEdges (residualGraph (initializeResidualGraph diamondInstance)) !!! u) ∧
  (∀ u v, hasEdge (residualGraph (initializeResidualGraph_in [3; 1; 0; 2] diamondInstance))
                  u v =
          hasEdge (residualGraph (initializeResidualGraph diamondInstance)) u v) ∧
  (wfGraph (graph diamondInstance) → simpleGraph (graph diamondInstance) →
   ∀ u v, weight (residualGraph (initializeResidualGraph_in [3; 1; 0; 2] diamondInstance))
                 u v =
          weight (residualGraph (initializeResidualGraph diamondInstance)) u v).
Proof.
  apply (initializeResidualGraph_order diamondInstance [3; 1; 0; 2]).
  apply (bool_decide_unpack _). vm_compute. exact I.
Defined.

(** ** Distances from one phase to the next *)

(** Along the path of front predecessors the level drops by one per edge. *)
Lemma walk_levels g s level ps k u i c p :
  level_graph g s level ps → u < numberOfNodes g → level !!! u = Z.of_nat k →
  (u :: walk ps u k) !! i = Some c → (u :: walk ps u k) !! S i = Some p →
  c < numberOfNodes g ∧ p < numberOfNodes g ∧
  (0 ≤ level !!! p)%Z ∧ (level !!! c = level !!! p + 1)%Z.
Proof.
  intros Hlg Hu Hlev Hc Hp.
  destruct (walk_spec g s level ps k u Hlg Hu Hlev) as (Hlen & Hin & _).
  assert (c < numberOfNodes g) as Hcn.
  { apply list_elem_of_lookup_2 in Hc.
    apply elem_of_cons in Hc as [->|Hc]; [done|]. by destruct (Hin c Hc). }
  assert (i < k) as Hi.
  { apply lookup_lt_Some in Hp. rewrite length_cons, Hlen in Hp. lia. }
  rewrite (walk_front ps u k i c Hc Hi) in Hp.
  destruct (ps !!! c) as [|q l] eqn:Hps; [done|]. injection Hp as ->.
  destruct (lg_parents _ _ _ _ Hlg c p Hcn) as (Hpn & _ & Hlp & Hlc).
  { rewrite Hps. left. }
  done.
Qed.

(** X9: distances from the source do not shrink over a phase.  When the
    target can be reached, the search and [computeBlockingPath] return, and
    every node that a walk of [j] edges of positive residual capacity reaches
    afterwards was at a distance of at most [j] before; in particular a node
    out of reach before the phase is out of reach after it. *)
Theorem phase_distances_grow (d : Dinic) (fuel : nat) :
  wfGraph (residualGraph d) → nonnegGraph (residualGraph d) →
  source d < numberOfNodes (residualGraph d) →
  target d < numberOfNodes (residualGraph d) →
  source d ≠ target d →
  length (parents d) = numberOfNodes (residualGraph d) →
  numberOfNodes (residualGraph d) + 1 ≤ fuel →
  (∃ k, walkTo (residualGraph d) (source d) k (target d)) →
  ∃ d1 b d2,
    canReachTargetInLevelGraph fuel d = Some (true, d1) ∧
    computeBlockingPath fuel d1 = Some (fadd 0 b, d2) ∧
    ∀ j v, walkTo (residualGraph d2) (source d) j v →
           ∃ k, k ≤ j ∧ distance (residualGraph d) (source d) v k.
Proof.
  intros Hwf Hnn Hs Ht Hst Hlen Hfuel [k0 Hwalk].
  destruct (canReach_tight fuel d Hwf Hs Hlen ltac:(lia))
    as (st & Hinv & Htight & Hres).
  pose proof (walkTo_level _ _ st _ _ Hwf Hinv Htight Hs Hwalk) as Hlt.
  assert (1 ≤ bfs_level st !!! target d)%Z as Hlev.
  { destruct (decide (bfs_level st !!! target d = 0%Z)) as [H0|H0]; [|lia].
    apply (bi_level0 _ _ _ Hinv _ Ht) in H0. congruence. }
  pose proof (bfs_inv_level_graph _ _ _ Hinv) as Hlg.
  destruct (computeBlockingPath_spec fuel (set_parents d (bfs_parents st))
              (bfs_level st) Hwf Hnn Hlg Hs Ht Hlev Hfuel)
    as (b & d2 & Hblock & _ & Hb & _ & _ & _ & [Hon Hoff] & _).
  cbn [residualGraph set_parents source target parents] in *.
  exists (set_parents d (bfs_parents st)), b, d2.
  split. { rewrite Hres. f_equal. f_equal. apply Z.ltb_lt. lia. }
  split; [done|].
  assert (∀ j v, walkTo (residualGraph d2) (source d) j v →
                 v < numberOfNodes (residualGraph d) ∧
                 (0 ≤ bfs_level st !!! v ≤ Z.of_nat j)%Z) as Hlevels.
  { induction 1 as [|j u v _ [Hu IH] Hw].
    - split; [done|]. rewrite (bi_source _ _ _ Hinv). lia.
    - assert ((0 < weight (residualGraph d) u v)%Q →
              v < numberOfNodes (residualGraph d) ∧
              (0 ≤ bfs_level st !!! v ≤ Z.of_nat (S j))%Z) as Hbefore.
      { intros Hpos. split.
        - eapply neighborRange_lt; [done|].
          apply (weight_nonzero_neighbor _ u v). lra.
        - destruct (Htight u v Hu) as [Hin|[Hv _]].
          + lia.
          + by apply isPositive_iff.
          + by apply elem_of_nil in Hin.
          + lia. }
      destruct (onPath_dec (phasePath (bfs_parents st) (target d) (bfs_level st))
                  v u) as [(i & Hi & HSi)|Hvu].
      + (* the reverse of an edge of the path *)
        unfold phasePath in Hi, HSi.
        destruct (walk_levels _ _ _ _ (Z.to_nat (bfs_level st !!! target d))
                    (target d) i u v Hlg Ht ltac:(lia) Hi HSi)
          as (_ & Hv & Hlv & Hlu).
        split; [done | lia].
      + destruct (onPath_dec (phasePath (bfs_parents st) (target d) (bfs_level st))
                    u v) as [Huv|Huv].
        * (* an edge of the path: it had more than the bottleneck *)
          destruct (Hon u v Huv) as [Hw2 _]. rewrite Hw2 in Hw.
          apply fsub_positive in Hw. apply Hbefore. lra.
        * rewrite (Hoff u v Huv Hvu) in Hw. by apply Hbefore. }
  intros j v Hj. destruct (Hlevels j v Hj) as [Hv Hbound].
  exists (Z.to_nat (bfs_level st !!! v)). split; [lia|].
  apply level_distance; try done. lia.
Qed.

Lemma phase_distances_grow_witness :
  ∃ d1 b d2,
    canReachTargetInLevelGraph 5 diamondStart = Some (true, d1) ∧
    computeBlockingPath 5 d1 = Some (fadd 0 b, d2) ∧
    ∀ j v, walkTo (residualGraph d2) (source diamondStart) j v →
           ∃ k, k ≤ j ∧
                distance (residualGraph diamondStart) (source diamondStart) v k.
Proof.
  apply (phase_distances_grow diamondStart 5).
  - apply wfGraphb_correct. vm_compute. reflexivity.
  - apply nonnegGraphb_correct. vm_compute. reflexivity.
  - vm_compute. lia.
  - vm_compute. lia.
  - vm_compute. lia.
  - vm_compute. reflexivity.
  - vm_compute. lia.
  - exact diamondStart_walk.
Defined.

(** ** The value [run] returns is the capacity of a cut *)

(** X10: on a simple graph with non-negative capacities that are whole
    multiples of some [1 / 2^p], [p <= 1074], at most [2^53 / 2^p] each and,
    over the edges that leave the source, in total, and with a tolerance
    below [1 / 2^p], the value [getMaxFlow] returns after [run] is the
    capacity of a cut of the input graph that separates the source from the
    target: the capacities of the edges from the nodes the last search
    reached to the other nodes, added up.  The last search is the one that
    left the predecessor lists of the instance; run again on the state [run]
    leaves, the search ends in the same state, and the nodes it reaches are
    those to which a walk over edges of positive residual capacity leads
    from the source. *)
Theorem run_returns_cut_capacity (eps : Q) (p : nat) (G : Graph) (s t : node)
    (d0 : Dinic) :
  Dinic_new G s t = inr d0 →
  s < numberOfNodes G → t < numberOfNodes G →
  wfGraph G → nonnegGraph G → simpleGraph G →
  (Z.of_nat p ≤ 1074)%Z →
  dyadicGraph p (2 ^ 53 # pow2 p) G →
  (sumQ (weight G s) (seq 0 (numberOfNodes G)) <= 2 ^ 53 # pow2 p)%Q →
  (eps < 1 # pow2 p)%Q →
  ∃ fuel0, ∀ fuel, fuel0 ≤ fuel →
    ∃ d' x st,
      run eps fuel d0 = Some d' ∧ getMaxFlow d' = inr x ∧
      bfs_loop fuel (residualGraph d') (bfs_init d') = Some st ∧
      parents d' = bfs_parents st ∧
      (∀ v, v < numberOfNodes G →
            (reached (bfs_level st) v = true ↔
             ∃ k, walkTo (residualGraph d') s k v)) ∧
      reached (bfs_level st) s = true ∧ reached (bfs_level st) t = false ∧
      (x == cutCapacity G (bfs_level st))%Q.
Proof.
  intros (-> & Hst & _)%Dinic_new_inr Hs Ht Hwf Hnn Hsimple Hp Hdy Hsum Heps.
  set (d0 := mkDinic G s t emptyGraph (replicate (numberOfNodes G) []) 0%Q false).
  destruct (simple_dyadic_exact p d0 Hwf Hsimple Hp Hdy) as (HE & Hw0 & Hm0 & HB0).
  destruct (steps_archimedean (pow2 p)
              (sumQ (weight (residualGraph (run_start d0)) s)
                    (seq 0 (numberOfNodes G)) - 0)) as [k Hk].
  exists (Nat.max k (numberOfNodes G + 1)). intros fuel Hfuel.
  destruct (run_loop_spec eps (pow2 p) (2 ^ 53 # pow2 p) d0 fuel HE)
    with (k := k) (fuel := fuel) (d := run_start d0)
    as (d' & st & Hloop & Hinv & Hflow & Hex & Hsearch & Hpar & Hbfs & Hclosed &
        Htarget);
    try (done || (simpl; lia)).
  { simpl. by rewrite length_replicate. }
  { erewrite sumQ_ext; [exact Hsum|]. intros y _. by rewrite Hw0. }
  { apply phase_start. }
  { by apply flow_inv_start. }
  exists (set_hasRun d' true), (maxFlow d'), st.
  split; [unfold run; fold (run_start d0); by rewrite Hloop|].
  split; [done|].
  destruct Hinv as [Hg Hso Hta Hn Hl Hwf' Hnn'].
  split; [exact Hsearch|]. split; [exact Hpar|].
  simpl in Hg, Hso, Hta, Hn, Hl, Hbfs, Htarget.
  cbn [residualGraph set_hasRun source target] in *.
  assert (source d' < numberOfNodes (residualGraph d')) as Hs' by congruence.
  assert (length (parents d') = numberOfNodes (residualGraph d')) as Hl'
    by congruence.
  assert (bfs_tight (residualGraph d') [] st) as Htight.
  { apply (bfs_loop_tight _ (source d') _ _ _ Hwf' (bfs_init_inv d' Hs' Hl'))
      in Hsearch; [done | | apply bfs_init_tight].
    exists 0%Z. by apply bfs_init_order. }
  split.
  { intros v Hv. unfold reached. rewrite Z.leb_le. split.
    - intros Hlev. exists (Z.to_nat (bfs_level st !!! v)).
      apply (level_walkTo _ _ st); [done | congruence | lia].
    - intros [j Hj].
      pose proof (walkTo_level _ _ st _ _ Hwf' Hbfs Htight ltac:(congruence) Hj).
      lia. }
  assert (reached (bfs_level st) s = true) as Hrs.
  { unfold reached. by rewrite (bi_source _ _ _ Hbfs). }
  assert (reached (bfs_level st) t = false) as Hrt.
  { unfold reached. by rewrite Htarget. }
  split; [done|]. split; [done|].
  apply (maxFlow_is_cut G (residualGraph d') s t (maxFlow d') (bfs_level st));
    try done.
  - intros u v. by apply nonnegGraph_weight.
  - intros u v. rewrite <- !Hw0. apply Hex.
  - intros x Hx. pose proof (fi_out _ _ _ Hflow x Hx) as Hout. simpl in Hout.
    rewrite <- Hout. apply Qplus_inj_r. apply sumQ_ext. intros y _.
    by rewrite <- Hw0.
  - intros u v Hu Hpos. unfold reached in *.
    apply Z.leb_le in Hu. apply Z.leb_le.
    destruct (Hclosed u v) as [Hin|Hv]; try done.
    + apply (weight_nonzero_neighbor _ u v). lra.
    + by apply isPositive_iff.
    + by apply elem_of_nil in Hin.
Qed.

Lemma run_returns_cut_capacity_witness :
  ∃ fuel0, ∀ fuel, fuel0 ≤ fuel →
    ∃ d' x st,
      run tolerance fuel diamondInstance = Some d' ∧ getMaxFlow d' = inr x ∧
      bfs_loop fuel (residualGraph d') (bfs_init d') = Some st ∧
      parents d' = bfs_parents st ∧
      (∀ v, v < numberOfNodes diamond →
            (reached (bfs_level st) v = true ↔
             ∃ k, walkTo (residualGraph d') 0 k v)) ∧
      reached (bfs_level st) 0 = true ∧ reached (bfs_level st) 3 = false ∧
      (x == cutCapacity diamond (bfs_level st))%Q.
Proof.
  destruct diamond_conditions as (Hnew & Hwf & Hnn & Hsimple & Hdy & Hsum).
  apply (run_returns_cut_capacity tolerance 0 diamond 0 3 diamondInstance Hnew);
    [vm_compute; lia | vm_compute; lia | exact Hwf | exact Hnn | exact Hsimple
    | lia | exact Hdy | exact Hsum | reflexivity].
Defined.
